(** * Adaptive assessment kernel: IRT 3PL, BKT and the session routes

    A shallow embedding of the TypeScript sources
      - [lib/algorithms/irt.ts]   (3PL probability, item information, grid
                                   EAP, maximum-information selection),
      - [lib/algorithms/bkt.ts]   (Bayesian Knowledge Tracing update),
      - [prisma/seed.ts]          (the seeded five-item bank),
      - [api/sessions/[id]/next-question/route.ts] and
        [api/sessions/[id]/answer/route.ts] (the two session routes),
      - [api/sessions/route.ts]   (session creation),
      - [lib/algorithms/elo.ts] and [lib/algorithms/mastery.ts],
    followed by the properties proved about them.

    Numbers.  JavaScript numbers are IEEE-754 doubles.  The IRT code is
    embedded over the real numbers [R]: every operation is the exact real
    operation, and every statement about it carries the hypotheses under
    which no division by zero happens.  The BKT code divides by quantities
    that can be zero, so it is embedded over [JSNum.num], the reals extended
    with the IEEE special values [NaN], [+Infinity] and [-Infinity]. *)

From Stdlib Require Import Reals Lra Lia ZArith List Bool Ascii String.
From stdpp Require Import gmap strings.

Local Open Scope R_scope.

(* ===================================================================== *)
(** * Part I.  Definitions                                                *)
(* ===================================================================== *)

(** ** How a call can end *)

(** The error kinds are those of the specification's taxonomy. *)
Inductive ErrorKind : Type :=
| InvalidArgument | NotFound | Conflict | NumericError | Internal.

Inductive Outcome (A : Type) : Type :=
| Returned (v : A)
| Thrown (e : ErrorKind).
Arguments Returned {A} v.
Arguments Thrown {A} e.

(** ** Numbers with the IEEE special values *)

Module JSNum.

Inductive num : Type :=
| Fin (r : R)
| PInf
| NInf
| NaN.

(** Zero is unsigned here: [x / 0] for [x <> 0] takes the sign of [x], which
    is the IEEE answer for the divisor [+0]. *)

Definition neg (x : num) : num :=
  match x with
  | Fin r => Fin (- r)
  | PInf => NInf
  | NInf => PInf
  | NaN => NaN
  end.

Definition add (x y : num) : num :=
  match x, y with
  | NaN, _ | _, NaN => NaN
  | PInf, NInf | NInf, PInf => NaN
  | PInf, _ | _, PInf => PInf
  | NInf, _ | _, NInf => NInf
  | Fin r, Fin s => Fin (r + s)
  end.

Definition sub (x y : num) : num := add x (neg y).

(** The infinity whose sign is that of [r] ([r] non-zero), or its opposite. *)
Definition signed_inf (r : R) (flip : bool) : num :=
  if Rlt_dec 0 r then (if flip then NInf else PInf)
  else (if flip then PInf else NInf).

Definition mul (x y : num) : num :=
  match x, y with
  | NaN, _ | _, NaN => NaN
  | Fin r, Fin s => Fin (r * s)
  | Fin r, PInf | PInf, Fin r =>
      if Req_dec_T r 0 then NaN else signed_inf r false
  | Fin r, NInf | NInf, Fin r =>
      if Req_dec_T r 0 then NaN else signed_inf r true
  | PInf, PInf | NInf, NInf => PInf
  | PInf, NInf | NInf, PInf => NInf
  end.

Definition div (x y : num) : num :=
  match x, y with
  | NaN, _ | _, NaN => NaN
  | Fin r, Fin s =>
      if Req_dec_T s 0
      then (if Req_dec_T r 0 then NaN else signed_inf r false)
      else Fin (r / s)
  | Fin _, PInf | Fin _, NInf => Fin 0
  | PInf, Fin s => if Rlt_dec s 0 then NInf else PInf
  | NInf, Fin s => if Rlt_dec s 0 then PInf else NInf
  | PInf, PInf | PInf, NInf | NInf, PInf | NInf, NInf => NaN
  end.

(** [Math.min] and [Math.max]: [NaN] if either argument is [NaN]. *)
Definition min (x y : num) : num :=
  match x, y with
  | NaN, _ | _, NaN => NaN
  | NInf, _ | _, NInf => NInf
  | PInf, z | z, PInf => z
  | Fin r, Fin s => Fin (Rmin r s)
  end.

Definition max (x y : num) : num :=
  match x, y with
  | NaN, _ | _, NaN => NaN
  | PInf, _ | _, PInf => PInf
  | NInf, z | z, NInf => z
  | Fin r, Fin s => Fin (Rmax r s)
  end.

(** [x >= y]: false as soon as one side is [NaN]. *)
Definition geb (x y : num) : bool :=
  match x, y with
  | NaN, _ | _, NaN => false
  | PInf, _ => true
  | _, NInf => true
  | NInf, _ => false
  | Fin _, PInf => false
  | Fin r, Fin s => if Rle_dec s r then true else false
  end.

(** [Math.round(x)]: the nearest integer, halves going up. *)
Definition round (x : num) : num :=
  match x with
  | Fin r => Fin (IZR (Int_part (r + 0.5)))
  | _ => x
  end.

End JSNum.

(** ** IRT core ([irt.ts]) *)

Module IRT.

Definition THETA_INITIAL : R := -0.780.
Definition THETA_INITIAL_SD : R := 0.543.
Definition D : R := 1.7.
Definition C_DEFAULT : R := 0.25.
Definition MASTERY_PROBABILITY : R := 0.8.
Definition THETA_MIN : R := -4.
Definition THETA_MAX : R := 4.
Definition THETA_STEPS : nat := 161.

Record IRTParams : Type := mkParams { a : R; b : R; c : R }.

(** [IRTQuestion extends IRTParams]; [options] maps the labels to the
    option texts. *)
Record IRTQuestion : Type := mkQuestion {
  id : string;
  text : string;
  options : list (string * string);
  correct : string;
  bloom : nat;
  kc : string;
  irt :> IRTParams
}.

Record EAPResult : Type := mkEAP {
  theta : R;
  sd : R;
  ci95Low : R;
  ci95High : R
}.

Record NextQuestionCriteria : Type := mkCriteria {
  targetTheta : R;
  excludeIds : list string;
  bloomLevel : option nat
}.

Record Response : Type := mkResponse {
  params : IRTParams;
  isCorrect : bool
}.

(** The comparisons [x >= y] and [x === y] on numbers. *)
Definition geb (x y : R) : bool := if Rle_dec y x then true else false.
Definition eqb (x y : R) : bool := if Req_dec_T x y then true else false.

(** [c + (1 - c) / (1 + Math.exp(-D * a * (theta - b)))] *)
Definition p3PL (th : R) (q : IRTParams) : R :=
  c q + (1 - c q) / (1 + exp (- D * a q * (th - b q))).

(** [(D ** 2 * a ** 2 * ((p - c) ** 2)) / ((1 - c) ** 2 * p * (1 - p))] *)
Definition itemInformation (th : R) (q : IRTParams) : R :=
  let p := p3PL th q in
  (D ^ 2 * a q ^ 2 * ((p - c q) ^ 2)) / ((1 - c q) ^ 2 * p * (1 - p)).

(** *** The grid EAP estimator *)

Definition step : R := (THETA_MAX - THETA_MIN) / (INR THETA_STEPS - 1).

(** [Array.from({ length: THETA_STEPS }, (_, i) => THETA_MIN + i * step)] *)
Definition grid : list R :=
  map (fun i : nat => THETA_MIN + INR i * step) (seq 0 THETA_STEPS).

Definition prior (priorMean priorSd : R) : list R :=
  map (fun t => exp (- 0.5 * ((t - priorMean) / priorSd) ^ 2)) grid.

(** The callback of [responses.reduce] at grid point [t]. *)
Definition likelihood_step (t : R) (acc : R) (r : Response) : R :=
  let p := p3PL t (params r) in
  acc * (if isCorrect r then p else 1 - p).

(** [grid.map((theta, i) => responses.reduce(..., prior[i]))]; [grid] and
    [prior] have the same length, so indexing [prior[i]] is zipping. *)
Definition likelihood (responses : list Response) (priorMean priorSd : R)
  : list R :=
  map (fun tp : R * R => fold_left (likelihood_step (fst tp)) responses (snd tp))
      (combine grid (prior priorMean priorSd)).

(** [xs.reduce((a, b) => a + b, 0)] *)
Definition sum_list (xs : list R) : R := fold_left Rplus xs 0.

(** The credible-interval loop: one call is one iteration of the [for] over
    the grid zipped with the posterior; the [break] is the branch that does
    not recurse.  The result is [(ci95Low, ci95High)]. *)
Fixpoint ci_loop (items : list (R * R)) (cumulative lo hi : R) : R * R :=
  match items with
  | [] => (lo, hi)
  | (g, p) :: rest =>
      let cumulative' := cumulative + p in
      let lo' :=
        if geb cumulative' 0.025 && eqb lo THETA_MIN then g else lo in
      if geb cumulative' 0.975 && eqb hi THETA_MAX
      then (lo', g)
      else ci_loop rest cumulative' lo' hi
  end.

Definition eapEstimate (responses : list Response) (priorMean priorSd : R)
  : EAPResult :=
  let lik := likelihood responses priorMean priorSd in
  let sum := sum_list lik in
  let posterior := map (fun l => l / sum) lik in
  let th := fold_left (fun acc tp => acc + fst tp * snd tp)
                      (combine grid posterior) 0 in
  let s := sqrt (fold_left (fun acc tp => acc + (fst tp - th) ^ 2 * snd tp)
                           (combine grid posterior) 0) in
  let ci := ci_loop (combine grid posterior) 0 THETA_MIN THETA_MAX in
  {| theta := th; sd := s; ci95Low := fst ci; ci95High := snd ci |}.

Arguments grid : simpl never.
Arguments eapEstimate : simpl never.

(** *** Maximum-information selection *)

(** [Array.prototype.sort(cmp)] is stable, and for a comparator that is a
    consistent ordering it puts [x] before [y] exactly when [cmp x y < 0],
    or when they compare equal and [x] came first.  Stable insertion
    computes that arrangement. *)
Section Sort.
Context {A : Type} (cmp : A -> A -> R).

Fixpoint sort_insert (x : A) (l : list A) : list A :=
  match l with
  | [] => [x]
  | y :: l' =>
      if Rlt_dec (cmp y x) 0 then y :: sort_insert x l' else x :: y :: l'
  end.

Definition sort (l : list A) : list A := fold_right sort_insert [] l.
End Sort.

Record Scored : Type := mkScored { question : IRTQuestion; info : R }.

Definition eligible (criteria : NextQuestionCriteria) (q : IRTQuestion) : bool :=
  negb (existsb (String.eqb (id q)) (excludeIds criteria))
  && match bloomLevel criteria with
     | None => true
     | Some l => Nat.eqb (bloom q) l
     end.

Definition selectNextQuestion (questions : list IRTQuestion)
    (criteria : NextQuestionCriteria) : option IRTQuestion :=
  let el := List.filter (eligible criteria) questions in
  match el with
  | [] => None
  | _ =>
      let scored :=
        map (fun q => {| question := q;
                         info := itemInformation (targetTheta criteria) q |}) el in
      match sort (fun x y => info y - info x) scored with
      | s :: _ => Some (question s)
      | [] => None
      end
  end.

(** *** Mastery check and the learner state *)

(** [checkMastery(theta, kcItems)]: false on an empty list, else whether
    the mean probability of a correct answer reaches the threshold. *)
Definition checkMastery (th : R) (kcItems : list IRTParams) : bool :=
  if Nat.eqb (length kcItems) 0 then false
  else
    let avgProbability :=
      fold_left (fun sum item => sum + p3PL th item) kcItems 0
      / INR (length kcItems) in
    geb avgProbability MASTERY_PROBABILITY.

(** The fields of [ResponseRecord] and [LearnerState] that share a name
    with a field above carry a prefix ([rr_], [ls_]). *)
Record ResponseRecord : Type := mkRecord {
  rr_questionId : string;
  rr_isCorrect : bool;
  timestamp : Z;
  theta_before : R;
  theta_after : R
}.

Record LearnerState : Type := mkLearner {
  ls_theta : R;
  thetaSd : R;
  responseHistory : list ResponseRecord
}.

Definition initialiseLearner : LearnerState :=
  {| ls_theta := THETA_INITIAL;
     thetaSd := THETA_INITIAL_SD;
     responseHistory := [] |}.

(** [updateLearnerState]; [now] is the value of [Date.now()]. *)
Definition updateLearnerState (now : Z) (state : LearnerState)
    (question : IRTQuestion) (isCorrect : bool) (allResponses : list Response)
  : LearnerState :=
  let eap := eapEstimate allResponses THETA_INITIAL THETA_INITIAL_SD in
  let record :=
    {| rr_questionId := id question;
       rr_isCorrect := isCorrect;
       timestamp := now;
       theta_before := ls_theta state;
       theta_after := theta eap |} in
  {| ls_theta := theta eap;
     thetaSd := sd eap;
     responseHistory := responseHistory state ++ [record] |}.

(** *** Vocabulary for the statements *)

Definition Rsum (l : list R) : R := fold_right Rplus 0 l.

(** The [i]-th grid point, and the unnormalised posterior weight the
    estimator gives it. *)
Definition gridpoint (i : nat) : R := THETA_MIN + INR i * step.

Definition weight (responses : list Response) (priorMean priorSd : R) (i : nat) : R :=
  fold_left (likelihood_step (gridpoint i)) responses
            (exp (- 0.5 * ((gridpoint i - priorMean) / priorSd) ^ 2)).

(** The normalised posterior weight of grid point [i]. *)
Definition posterior_at (responses : list Response) (priorMean priorSd : R)
    (i : nat) : R :=
  weight responses priorMean priorSd i
  / sum_list (likelihood responses priorMean priorSd).

(** A zipped list given by index: grid values [g], weights [p], indices
    [a, a + n). *)
Definition items (g p : nat -> R) (a n : nat) : list (R * R) :=
  map (fun i => (g i, p i)) (seq a n).

(** The normalised posterior, zipped with the grid. *)
Definition zipped (responses : list Response) (priorMean priorSd : R)
  : list (R * R) :=
  combine grid
    (map (fun l => l / sum_list (likelihood responses priorMean priorSd))
         (likelihood responses priorMean priorSd)).

(** The empty-history property as the specification words it: the estimate
    returns the prior, within one grid step. *)
Definition prior_recovered (priorMean priorSd : R) (e : EAPResult) : Prop :=
  Rabs (theta e - priorMean) < 0.05 /\ Rabs (sd e - priorSd) < 0.05.

(** The interval property as the specification words it: each bound within
    one grid step. *)
Definition within_one_step (e : EAPResult) : Prop :=
  0 <= sd e /\ ci95Low e - 0.05 <= theta e /\ theta e <= ci95High e + 0.05.

(** [q] is the first item of [l] that carries the largest information. *)
Definition first_argmax (th : R) (l : list IRTQuestion) (q : IRTQuestion) : Prop :=
  exists l1 l2,
    l = l1 ++ q :: l2 /\
    Forall (fun y : IRTQuestion => itemInformation th y < itemInformation th q) l1 /\
    Forall (fun y : IRTQuestion => itemInformation th y <= itemInformation th q) l2.

(** The order of preference of the specification: more information first,
    then the smaller [|b - targetTheta|], then the smaller id. *)
Definition preferred (th : R) (q q' : IRTQuestion) : Prop :=
  itemInformation th q' < itemInformation th q
  \/ (itemInformation th q' = itemInformation th q
      /\ (Rabs (b q - th) < Rabs (b q' - th)
          \/ (Rabs (b q - th) = Rabs (b q' - th)
              /\ String.leb (id q) (id q') = true))).

Definition spec_choice (questions : list IRTQuestion)
    (criteria : NextQuestionCriteria) (q : IRTQuestion) : Prop :=
  In q (List.filter (eligible criteria) questions)
  /\ forall q', In q' (List.filter (eligible criteria) questions) ->
                preferred (targetTheta criteria) q q'.

(** The parameter domain of the specification: [a > 0], [0 <= c < 1]. *)
Definition valid_params (q : IRTParams) : Prop := 0 < a q /\ 0 <= c q < 1.

(** The exponential inside the item-characteristic curve. *)
Definition expo (th : R) (q : IRTParams) : R := exp (- D * a q * (th - b q)).

(** The history of a learner is a trail from [start] to [stop]: the first
    record starts at [start], each record starts where the one before it
    ended, and the last one ends at [stop]. *)
Fixpoint trail (start : R) (history : list ResponseRecord) (stop : R) : Prop :=
  match history with
  | [] => start = stop
  | r :: rest => theta_before r = start /\ trail (theta_after r) rest stop
  end.

(** The learner states a caller can build: the initial one, updated any
    number of times. *)
Inductive learner_reachable : LearnerState -> Prop :=
| learner_init : learner_reachable initialiseLearner
| learner_step (now : Z) (state : LearnerState) (question : IRTQuestion)
    (isCorrect : bool) (allResponses : list Response) :
    learner_reachable state ->
    learner_reachable (updateLearnerState now state question isCorrect allResponses).

End IRT.

(** ** BKT core ([bkt.ts]) *)

Module BKT.
Import JSNum.

Record BKTParams : Type := mkBKT { pL0 : num; pT : num; pS : num; pG : num }.

Record KCState : Type := mkKC {
  kcId : string;
  pLearned : num;
  attempts : nat;
  correct : nat;
  isMastered : bool
}.

(** [isMastered] of the update result is [upd_isMastered] here, the name
    being taken by [KCState]. *)
Record BKTUpdateResult : Type := mkUpd {
  pLearned_before : num;
  pLearned_after : num;
  upd_isMastered : bool
}.

Definition MASTERY_THRESHOLD : num := Fin 0.95.

Definition bkt (l0 t s g : R) : BKTParams :=
  {| pL0 := Fin l0; pT := Fin t; pS := Fin s; pG := Fin g |}.

(** The object literal [DEFAULT_BKT_PARAMS], in source order. *)
Definition DEFAULT_BKT_PARAMS_entries : list (string * BKTParams) :=
  [ ("UK_national_parks"%string, bkt 0.40 0.20 0.10 0.25);
    ("UK_capitals"%string, bkt 0.60 0.25 0.08 0.25);
    ("UK_county_locations"%string, bkt 0.30 0.20 0.12 0.25);
    ("UK_rivers"%string, bkt 0.50 0.22 0.10 0.25);
    ("UK_mountains"%string, bkt 0.45 0.20 0.10 0.25);
    ("westerly_winds_rainfall"%string, bkt 0.25 0.18 0.12 0.25);
    ("maritime_continental"%string, bkt 0.20 0.18 0.12 0.25);
    ("pennines_rain_shadow"%string, bkt 0.20 0.15 0.15 0.25);
    ("north_atlantic_drift"%string, bkt 0.22 0.18 0.12 0.25);
    ("continental_effect"%string, bkt 0.18 0.15 0.15 0.25);
    ("climate_classification"%string, bkt 0.15 0.15 0.18 0.25);
    ("climate_change_application"%string, bkt 0.12 0.15 0.18 0.25);
    ("flood_risk_integration"%string, bkt 0.10 0.12 0.20 0.25) ].

Definition DEFAULT_BKT_PARAMS : gmap string BKTParams :=
  list_to_map DEFAULT_BKT_PARAMS_entries.

Definition initialiseKC (k : string) (ps : BKTParams) : KCState :=
  {| kcId := k;
     pLearned := pL0 ps;
     attempts := 0;
     correct := 0;
     isMastered := geb (pL0 ps) MASTERY_THRESHOLD |}.

(** [pLearned * (1 - pS) + (1 - pLearned) * pG] *)
Definition pCorrect (pl : num) (ps : BKTParams) : num :=
  add (mul pl (sub (Fin 1) (pS ps))) (mul (sub (Fin 1) pl) (pG ps)).

(** [pLearned * pS + (1 - pLearned) * (1 - pG)] *)
Definition pIncorrect (pl : num) (ps : BKTParams) : num :=
  add (mul pl (pS ps)) (mul (sub (Fin 1) pl) (sub (Fin 1) (pG ps))).

Definition updateBKT (pl : num) (isCorrect : bool) (ps : BKTParams)
  : BKTUpdateResult :=
  let pLearnedGivenResponse :=
    if isCorrect
    then div (mul pl (sub (Fin 1) (pS ps))) (pCorrect pl ps)
    else div (mul pl (pS ps)) (pIncorrect pl ps) in
  let after :=
    add pLearnedGivenResponse
        (mul (sub (Fin 1) pLearnedGivenResponse) (pT ps)) in
  let clamped := max (Fin 0) (min (Fin 1) after) in
  {| pLearned_before := pl;
     pLearned_after := clamped;
     upd_isMastered := geb clamped MASTERY_THRESHOLD |}.

Definition updateKCState (state : KCState) (isCorrect : bool) (ps : BKTParams)
  : KCState :=
  let result := updateBKT (pLearned state) isCorrect ps in
  {| kcId := kcId state;
     pLearned := pLearned_after result;
     attempts := attempts state + 1;
     correct := correct state + (if isCorrect then 1 else 0);
     isMastered := upd_isMastered result |}.

Definition initialiseAllKCs : gmap string KCState :=
  list_to_map (map (fun e => (fst e, initialiseKC (fst e) (snd e)))
                   DEFAULT_BKT_PARAMS_entries).

(** A call of [updateBKT].  Its body has no [throw], and arithmetic,
    [Math.min], [Math.max] and [>=] on numbers never throw: every call
    returns. *)
Definition call_updateBKT (pl : num) (isCorrect : bool) (ps : BKTParams)
  : Outcome BKTUpdateResult :=
  Returned (updateBKT pl isCorrect ps).

(** *** Session-level summaries *)

(** A [Record<string, KCState>] as [Object.values] enumerates it: the
    entries in insertion order. *)
Definition KCStates : Type := list (string * KCState).

Definition values (kcStates : KCStates) : list KCState := map snd kcStates.

(** [Object.values(kcStates).every((s) => s.isMastered)] *)
Definition isSessionComplete (kcStates : KCStates) : bool :=
  forallb isMastered (values kcStates).

(** [x < 0] on numbers: false for [NaN]. *)
Definition ltb0 (x : num) : bool :=
  match x with
  | Fin r => if Rlt_dec r 0 then true else false
  | NInf => true
  | PInf | NaN => false
  end.

(** [Array.prototype.sort(cmp)] with a numeric comparator: stable, [x]
    before [y] when [cmp x y < 0] or when neither is negative and [x] came
    first.  When a difference is [NaN] the comparator is no consistent
    ordering and the standard leaves the arrangement to the implementation;
    the statements that depend on the arrangement assume finite values. *)
Section SortBy.
Context {A : Type} (cmp : A -> A -> num).

Fixpoint insert_by (x : A) (l : list A) : list A :=
  match l with
  | [] => [x]
  | y :: l' => if ltb0 (cmp y x) then y :: insert_by x l' else x :: y :: l'
  end.

Definition sort_by (l : list A) : list A := fold_right insert_by [] l.
End SortBy.

Definition getWeakestKC (kcStates : KCStates) : option KCState :=
  let unmastered := List.filter (fun s => negb (isMastered s)) (values kcStates) in
  if Nat.eqb (length unmastered) 0 then None
  else hd_error (sort_by (fun a b => sub (pLearned a) (pLearned b)) unmastered).

Record SessionSummary : Type := mkSummary {
  total : nat;
  mastered : nat;
  inProgress : nat;
  notStarted : nat;
  overallProgress : num
}.

Definition getSessionSummary (kcStates : KCStates) : SessionSummary :=
  let all := values kcStates in
  let mastered := length (List.filter isMastered all) in
  let inProgress :=
    length (List.filter (fun s => negb (isMastered s) && (0 <? attempts s)%nat) all) in
  let notStarted := length (List.filter (fun s => (attempts s =? 0)%nat) all) in
  {| total := length all;
     mastered := mastered;
     inProgress := inProgress;
     notStarted := notStarted;
     overallProgress :=
       round (mul (div (Fin (INR mastered)) (Fin (INR (length all)))) (Fin 100)) |}.

(** *** Vocabulary for the statements *)

(** The parameter domain on which no denominator of [updateBKT] vanishes:
    slip and guess strictly between 0 and 1, transit between 0 and 1. *)
Definition valid_bkt (ps : BKTParams) (t s g : R) : Prop :=
  pT ps = Fin t /\ pS ps = Fin s /\ pG ps = Fin g
  /\ 0 <= t <= 1 /\ 0 < s < 1 /\ 0 < g < 1.

(** The Bayesian posterior of [updateBKT] in real arithmetic. *)
Definition posterior_real (l s g : R) (isCorrect : bool) : R :=
  if isCorrect then l * (1 - s) / (l * (1 - s) + (1 - l) * g)
  else l * s / (l * s + (1 - l) * (1 - g)).

(** The real value of a belief ([0] where it is not a number). *)
Definition belief (s : KCState) : R :=
  match pLearned s with Fin r => r | _ => 0 end.

(** The head of a list carries the least key. *)
Definition head_least {A : Type} (key : A -> R) (l : list A) : Prop :=
  match l with
  | [] => True
  | h :: _ => forall y, In y l -> key h <= key y
  end.

(** A KC state driven through a sequence of responses. *)
Definition practise (state : KCState) (ps : BKTParams) (answers : list bool)
  : KCState :=
  fold_left (fun st isCorrect => updateKCState st isCorrect ps) answers state.

End BKT.

(** ** The session routes *)

Module Engine.
Import JSNum.

(** *** Rows of the relational store (Prisma models) *)

(** The columns keep their names, behind a prefix per table ([o_], [q_],
    [i_], [s_]) where two tables share a column name. *)

Record OptionRow : Type := mkOption {
  o_text : string;
  o_isCorrect : bool;
  o_order : Z
}.

Record QuestionRow : Type := mkQuestionRow {
  q_id : string;
  q_text : string;
  q_order : Z;
  irt_a : R;
  irt_b : R;
  irt_c : R;
  q_bloom : nat;
  q_kc : string;
  q_quizId : string;
  q_options : list OptionRow
}.

Record InteractionRow : Type := mkInteraction {
  i_id : string;
  i_sessionId : string;
  i_questionId : string;
  i_selectedAnswer : string;
  i_isCorrect : bool;
  i_responseTimeMs : Z;
  i_theta_before : R;
  i_theta_after : R;
  i_pLearned_before : num;
  i_pLearned_after : num;
  i_createdAt : Z
}.

(** The column [kcStates] holds JSON text: either text that [JSON.parse]
    rejects, or the serialised map. *)
Inductive KCStatesText : Type :=
| Unparsable
| Serialised (m : gmap string BKT.KCState).

Record SessionRow : Type := mkSession {
  s_id : string;
  s_userId : string;
  s_quizId : string;
  s_condition : string;
  s_startedAt : Z;
  s_completedAt : option Z;
  s_theta : R;
  s_thetaSd : R;
  s_kcStates : KCStatesText
}.

(** The three tables the routes touch.  Sessions are keyed by their primary
    key; questions and interactions are kept in insertion order. *)
Record DB : Type := mkDB {
  questions : list QuestionRow;
  sessions : gmap string SessionRow;
  interactions : list InteractionRow
}.

(** *** Queries *)

(** [orderBy: { <key>: 'asc' }], rows with equal keys staying in table order. *)
Section OrderBy.
Context {A : Type} (key : A -> Z).

Fixpoint order_insert (x : A) (l : list A) : list A :=
  match l with
  | [] => [x]
  | y :: l' => if (key y <=? key x)%Z then y :: order_insert x l' else x :: y :: l'
  end.

Definition orderBy (l : list A) : list A := fold_right order_insert [] l.
End OrderBy.

(** [prisma.question.findUnique({ where: { id }, include: { options: ... } })] *)
Definition findQuestion (db : DB) (qid : string) : option QuestionRow :=
  option_map
    (fun q => {| q_id := q_id q; q_text := q_text q; q_order := q_order q;
                 irt_a := irt_a q; irt_b := irt_b q; irt_c := irt_c q;
                 q_bloom := q_bloom q; q_kc := q_kc q; q_quizId := q_quizId q;
                 q_options := orderBy o_order (q_options q) |})
    (List.find (fun q => String.eqb (q_id q) qid) (questions db)).

(** [prisma.question.findMany({ where: { quizId }, ..., orderBy: { order: 'asc' } })] *)
Definition findQuestions (db : DB) (quizId : string) : list QuestionRow :=
  orderBy q_order
    (map (fun q => {| q_id := q_id q; q_text := q_text q; q_order := q_order q;
                      irt_a := irt_a q; irt_b := irt_b q; irt_c := irt_c q;
                      q_bloom := q_bloom q; q_kc := q_kc q; q_quizId := q_quizId q;
                      q_options := orderBy o_order (q_options q) |})
         (List.filter (fun q => String.eqb (q_quizId q) quizId) (questions db))).

(** The [interactions] relation of a session.  Rows are appended as they
    are created, so table order is ascending [createdAt]. *)
Definition sessionInteractions (db : DB) (sid : string) : list InteractionRow :=
  List.filter (fun i => String.eqb (i_sessionId i) sid) (interactions db).

(** *** Responses *)

Record ThetaSummary : Type := mkThetaSummary {
  ts_before : R;
  ts_after : R;
  ts_delta : R;
  ts_sd : R;
  ts_ci95 : R * R
}.

Record BktSummary : Type := mkBktSummary {
  bs_kc : string;
  bs_pLearned_before : num;
  bs_pLearned_after : num;
  bs_isMastered : bool
}.

Record Meta : Type := mkMeta {
  currentTheta : R;
  itemDifficulty : R;
  meta_itemInformation : R;
  questionsAnswered : nat;
  questionsRemaining : nat;
  meta_condition : string
}.

Inductive Body : Type :=
| ErrorBody (error : string)
| CompletedBody (message : string) (finalTheta : R) (totalAnswered : nat)
| QuestionBody (questionId text : string) (options : list (string * string))
    (bloom : nat) (kc : string) (meta : Meta)
| AnswerBody (correct : bool) (correctAnswer : option string)
    (selectedAnswer : string)
    (theta : ThetaSummary) (bkt : BktSummary) (interactionId : string).

Record HttpResponse : Type := mkResponse { status : nat; body : Body }.

Definition json_error (msg : string) (st : nat) : HttpResponse :=
  {| status := st; body := ErrorBody msg |}.

Definition json_ok (b : Body) : HttpResponse := {| status := 200; body := b |}.

(** [Math.round(x * 1000) / 1000] *)
Definition round3 (x : R) : R := IZR (Int_part (x * 1000 + 0.5)) / 1000.
Definition round3_num (x : num) : num :=
  div (round (mul x (Fin 1000))) (Fin 1000).

(** *** Shared pieces of the two routes *)

Definition labels : list string := ["A"; "B"; "C"; "D"]%string.

(** [options.findIndex((o) => o.isCorrect)] *)
Fixpoint findIndex {A : Type} (f : A -> bool) (l : list A) : option nat :=
  match l with
  | [] => None
  | x :: l' => if f x then Some 0%nat else option_map S (findIndex f l')
  end.

(** [correctIdx >= 0 ? labels[correctIdx] : 'A']; an index past the fourth
    option reads [undefined] from [labels], which no string equals. *)
Definition correctLabel (opts : list OptionRow) : option string :=
  match findIndex o_isCorrect opts with
  | None => Some "A"%string
  | Some i => nth_error labels i
  end.

(** [String.prototype.toUpperCase] on the ASCII letters; other bytes are
    kept. *)
Definition upper_ascii (ch : ascii) : ascii :=
  let n := nat_of_ascii ch in
  if ((97 <=? n) && (n <=? 122))%nat then ascii_of_nat (n - 32) else ch.

Fixpoint toUpperCase (s : string) : string :=
  match s with
  | EmptyString => EmptyString
  | String ch s' => String (upper_ascii ch) (toUpperCase s')
  end.

(** Truthiness of a string: the empty string (and an absent field, read as
    the empty string here) is falsy. *)
Definition truthy (s : string) : bool := negb (String.eqb s "").

(** The mapping of a question row to an [IRTQuestion] in the next-question
    route ([correct] reads [undefined], here the empty string, when the
    correct option is not among the first four). *)
Definition toIRTQuestion (q : QuestionRow) : IRT.IRTQuestion :=
  {| IRT.id := q_id q;
     IRT.text := q_text q;
     IRT.options := combine labels (map o_text (q_options q));
     IRT.correct := match findIndex o_isCorrect (q_options q) with
                    | None => "A"%string
                    | Some i => nth i labels ""%string
                    end;
     IRT.bloom := if Nat.eqb (q_bloom q) 0 then 1%nat else q_bloom q;
     IRT.kc := q_kc q;
     IRT.irt := {| IRT.a := irt_a q; IRT.b := irt_b q; IRT.c := irt_c q |} |}.

(** *** GET /api/sessions/[id]/next-question *)

Definition GET_next_question (db : DB) (now : Z) (sessionId : string)
  : DB * HttpResponse :=
  match sessions db !! sessionId with
  | None => (db, json_error "Session not found" 404)
  | Some session =>
    match s_completedAt session with
    | Some _ => (db, json_error "Session already completed" 400)
    | None =>
      let qs := findQuestions db (s_quizId session) in
      if Nat.eqb (length qs) 0
      then (db, json_error "No questions found for this quiz" 404)
      else
        let answeredIds := map i_questionId (sessionInteractions db sessionId) in
        if (length qs <=? length answeredIds)%nat
        then
          ({| questions := questions db;
              sessions :=
                <[ sessionId :=
                     {| s_id := s_id session; s_userId := s_userId session;
                        s_quizId := s_quizId session;
                        s_condition := s_condition session;
                        s_startedAt := s_startedAt session;
                        s_completedAt := Some now;
                        s_theta := s_theta session;
                        s_thetaSd := s_thetaSd session;
                        s_kcStates := s_kcStates session |} ]> (sessions db);
              interactions := interactions db |},
           json_ok (CompletedBody "All questions answered — session complete"
                      (s_theta session) (length answeredIds)))
        else
          let irtQuestions := map toIRTQuestion qs in
          let selectedQuestion :=
            if String.eqb (s_condition session) "adaptive"
            then IRT.selectNextQuestion irtQuestions
                   {| IRT.targetTheta := s_theta session;
                      IRT.excludeIds := answeredIds;
                      IRT.bloomLevel := None |}
            else
              hd_error
                (List.filter
                   (fun q => negb (existsb (String.eqb (IRT.id q)) answeredIds))
                   irtQuestions) in
          match selectedQuestion with
          | None => (db, json_error "No eligible questions remaining" 404)
          | Some q =>
            let infoAtTheta := IRT.itemInformation (s_theta session) (IRT.irt q) in
            (db,
             json_ok
               (QuestionBody (IRT.id q) (IRT.text q) (IRT.options q)
                  (IRT.bloom q) (IRT.kc q)
                  {| currentTheta := s_theta session;
                     itemDifficulty := IRT.b (IRT.irt q);
                     meta_itemInformation := round3 infoAtTheta;
                     questionsAnswered := length answeredIds;
                     questionsRemaining := length qs - length answeredIds;
                     meta_condition := s_condition session |}))
          end
    end
  end.

(** *** POST /api/sessions/[id]/answer *)

Record AnswerRequest : Type := mkAnswerRequest {
  questionId : string;
  selectedAnswer : string;
  responseTimeMs : option Z
}.

(** [interaction.question.irt_*] for every prior interaction; a row whose
    question is gone makes the read throw. *)
Definition priorResponses (db : DB) (sid : string) : option (list IRT.Response) :=
  mapM (fun i =>
          option_map
            (fun q => {| IRT.params := {| IRT.a := irt_a q; IRT.b := irt_b q;
                                          IRT.c := irt_c q |};
                         IRT.isCorrect := i_isCorrect i |})
            (findQuestion db (i_questionId i)))
       (sessionInteractions db sid).

Definition parseKCStates (t : KCStatesText) : gmap string BKT.KCState :=
  match t with
  | Unparsable => ∅
  | Serialised m => m
  end.

Definition POST_answer (db : DB) (now : Z) (newId : string)
    (sessionId : string) (req : AnswerRequest) : DB * HttpResponse :=
  if negb (truthy (questionId req)) || negb (truthy (selectedAnswer req))
  then (db, json_error "questionId and selectedAnswer are required" 400)
  else
  match sessions db !! sessionId with
  | None => (db, json_error "Session not found" 404)
  | Some session =>
  match s_completedAt session with
  | Some _ => (db, json_error "Session already completed" 400)
  | None =>
  match findQuestion db (questionId req) with
  | None => (db, json_error "Question not found" 404)
  | Some question =>
  if negb (String.eqb (q_quizId question) (s_quizId session))
  then (db, json_error "Question does not belong to this session" 400)
  else
  if existsb (fun i => String.eqb (i_questionId i) (questionId req))
             (sessionInteractions db sessionId)
  then (db, json_error "Question already answered in this session" 400)
  else
  let correctLbl := correctLabel (q_options question) in
  let isCorrect :=
    match correctLbl with
    | Some l => String.eqb (toUpperCase (selectedAnswer req)) l
    | None => false
    end in
  match priorResponses db sessionId with
  | None => (db, json_error "Internal server error" 500)
  | Some prev =>
  let allResponses :=
    prev ++ [ {| IRT.params := {| IRT.a := irt_a question;
                                  IRT.b := irt_b question;
                                  IRT.c := irt_c question |};
                 IRT.isCorrect := isCorrect |} ] in
  let eap := IRT.eapEstimate allResponses IRT.THETA_INITIAL IRT.THETA_INITIAL_SD in
  let theta_before := s_theta session in
  let theta_after := IRT.theta eap in
  let kcStates := parseKCStates (s_kcStates session) in
  let kc := q_kc question in
  let pLearned_before :=
    match kcStates !! kc with
    | Some st => BKT.pLearned st
    | None => Fin 0.25
    end in
  let '(kcStates', pLearned_after) :=
    match (if truthy kc then BKT.DEFAULT_BKT_PARAMS !! kc else None) with
    | Some ps =>
        let updated :=
          BKT.updateKCState
            (default {| BKT.kcId := kc; BKT.pLearned := BKT.pL0 ps;
                        BKT.attempts := 0; BKT.correct := 0;
                        BKT.isMastered := false |}
                     (kcStates !! kc))
            isCorrect ps in
        (<[ kc := updated ]> kcStates, BKT.pLearned updated)
    | None => (kcStates, pLearned_before)
    end in
  let interaction :=
    {| i_id := newId;
       i_sessionId := sessionId;
       i_questionId := questionId req;
       i_selectedAnswer := toUpperCase (selectedAnswer req);
       i_isCorrect := isCorrect;
       i_responseTimeMs :=
         match responseTimeMs req with Some t => t | None => 0%Z end;
       i_theta_before := theta_before;
       i_theta_after := theta_after;
       i_pLearned_before := pLearned_before;
       i_pLearned_after := pLearned_after;
       i_createdAt := now |} in
  ({| questions := questions db;
      sessions :=
        <[ sessionId :=
             {| s_id := s_id session; s_userId := s_userId session;
                s_quizId := s_quizId session;
                s_condition := s_condition session;
                s_startedAt := s_startedAt session;
                s_completedAt := s_completedAt session;
                s_theta := theta_after;
                s_thetaSd := IRT.sd eap;
                s_kcStates := Serialised kcStates' |} ]> (sessions db);
      interactions := interactions db ++ [interaction] |},
   json_ok
     (AnswerBody isCorrect
        correctLbl
        (toUpperCase (selectedAnswer req))
        {| ts_before := round3 theta_before;
           ts_after := round3 theta_after;
           ts_delta := round3 (theta_after - theta_before);
           ts_sd := round3 (IRT.sd eap);
           ts_ci95 := (round3 (IRT.ci95Low eap), round3 (IRT.ci95High eap)) |}
        {| bs_kc := kc;
           bs_pLearned_before := round3_num pLearned_before;
           bs_pLearned_after := round3_num pLearned_after;
           bs_isMastered :=
             match kcStates' !! kc with
             | Some st => BKT.isMastered st
             | None => false
             end |}
        newId))
  end end end end.

(** *** The seed ([prisma/seed.ts]) *)

Definition seedQuizId : string := "quiz-uk-geo-adaptive".

Definition opt (t : string) (ok : bool) (o : Z) : OptionRow :=
  {| o_text := t; o_isCorrect := ok; o_order := o |}.

Definition questionsData : list QuestionRow :=
  [ {| q_id := "q-001";
       q_text := "Which county is home to the Peak District National Park?";
       q_order := 1; irt_a := 0.85; irt_b := -0.80; irt_c := 0.25;
       q_bloom := 1; q_kc := "UK_national_parks"; q_quizId := seedQuizId;
       q_options := [ opt "Derbyshire" true 1; opt "Yorkshire" false 2;
                      opt "Lancashire" false 3; opt "Staffordshire" false 4 ] |};
    {| q_id := "q-002";
       q_text := "What is the capital city of Wales?";
       q_order := 2; irt_a := 1.20; irt_b := -1.50; irt_c := 0.25;
       q_bloom := 1; q_kc := "UK_capitals"; q_quizId := seedQuizId;
       q_options := [ opt "Swansea" false 1; opt "Newport" false 2;
                      opt "Cardiff" true 3; opt "Wrexham" false 4 ] |};
    {| q_id := "q-003";
       q_text := "Which county is located in the far south-west tip of England?";
       q_order := 3; irt_a := 0.90; irt_b := -0.60; irt_c := 0.25;
       q_bloom := 1; q_kc := "UK_county_locations"; q_quizId := seedQuizId;
       q_options := [ opt "Devon" false 1; opt "Dorset" false 2;
                      opt "Somerset" false 3; opt "Cornwall" true 4 ] |};
    {| q_id := "q-004";
       q_text := "Why does the west coast of the UK receive more rainfall than the east coast?";
       q_order := 4; irt_a := 1.10; irt_b := 0.20; irt_c := 0.25;
       q_bloom := 2; q_kc := "westerly_winds_rainfall"; q_quizId := seedQuizId;
       q_options :=
         [ opt "The east coast is warmer due to the North Sea current" false 1;
           opt "Prevailing westerly winds bring moist air from the Atlantic" true 2;
           opt "The west coast has higher elevation throughout" false 3;
           opt "Urban heat islands create more precipitation in western cities" false 4 ] |};
    {| q_id := "q-005";
       q_text := "Which area of England lies in the rain shadow of the Pennines?";
       q_order := 5; irt_a := 1.30; irt_b := 0.50; irt_c := 0.25;
       q_bloom := 2; q_kc := "pennines_rain_shadow"; q_quizId := seedQuizId;
       q_options := [ opt "The Lake District" false 1; opt "The Yorkshire Dales" false 2;
                      opt "The Vale of York" true 3; opt "The Peak District" false 4 ] |}
  ]%string.

Arguments GET_next_question : simpl never.
Arguments POST_answer : simpl never.

(** *** Vocabulary for the statements *)

(** The abstract error kind of a response: 404 is [NotFound], 500 is
    [Internal]; among the 400 responses the two state conflicts (session
    completed, question already answered) are [Conflict] and the others are
    [InvalidArgument]. *)
Definition errorKind (r : HttpResponse) : option ErrorKind :=
  match body r with
  | ErrorBody msg =>
      if Nat.eqb (status r) 404 then Some NotFound
      else if Nat.eqb (status r) 500 then Some Internal
      else if String.eqb msg "Session already completed"
              || String.eqb msg "Question already answered in this session"
           then Some Conflict
           else Some InvalidArgument
  | _ => None
  end.

(** The external events, and the handler that serves each. *)
Inductive Op : Type :=
| OpNext (sessionId : string)
| OpAnswer (newId sessionId : string) (req : AnswerRequest).

Definition run (now : Z) (op : Op) (db : DB) : DB * HttpResponse :=
  match op with
  | OpNext sid => GET_next_question db now sid
  | OpAnswer newId sid req => POST_answer db now newId sid req
  end.

Definition answeredIds (db : DB) (sid : string) : list string :=
  map i_questionId (sessionInteractions db sid).

Definition no_duplicate_answers (db : DB) : Prop :=
  forall sid, NoDup (answeredIds db sid).

(** Every interaction belongs to a stored session and answers a stored
    question of that session's quiz (the foreign keys of the schema, and the
    check the answer route makes before it writes). *)
Definition consistent (db : DB) : Prop :=
  forall i, In i (interactions db) ->
    exists session question,
      sessions db !! i_sessionId i = Some session
      /\ findQuestion db (i_questionId i) = Some question
      /\ q_quizId question = s_quizId session.

(** The stores the two routes can produce, starting from any store that is
    consistent and has no duplicate answer (in particular from any store
    without interactions). *)
Inductive reachable : DB -> Prop :=
| reachable_init (db : DB) :
    no_duplicate_answers db -> consistent db -> reachable db
| reachable_step (db : DB) (now : Z) (op : Op) :
    reachable db -> reachable (fst (run now op db)).

(** A sequence of timed events, served one after the other. *)
Definition run_all (ops : list (Z * Op)) (db : DB) : DB :=
  fold_left (fun d e => fst (run (fst e) (snd e) d)) ops db.

Definition completed (db : DB) (sid : string) : Prop :=
  exists session t,
    sessions db !! sid = Some session /\ s_completedAt session = Some t.

Definition is_completed_payload (r : HttpResponse) : Prop :=
  match body r with CompletedBody _ _ _ => True | _ => False end.

(** *** POST /api/sessions *)

(** The route also reads the tables of users and quizzes, of which only the
    primary keys matter to it. *)
Record Store : Type := mkStore {
  users : gset string;
  quizzes : gset string;
  db : DB
}.

(** The request body; an absent [condition] takes the default. *)
Record SessionRequest : Type := mkSessionRequest {
  userId : string;
  quizId : string;
  condition : option string
}.

Inductive SessionsBody : Type :=
| SessionsError (error : string)
| SessionCreated (sessionId condition : string) (theta thetaSd : R)
    (message : string).

Record SessionsResponse : Type := mkSessionsResponse {
  sr_status : nat;
  sr_body : SessionsBody
}.

Definition sessions_error (msg : string) (st : nat) : SessionsResponse :=
  {| sr_status := st; sr_body := SessionsError msg |}.

Definition quote : string := String "034" EmptyString.

(** [newId] is the primary key the client library generates for the row;
    [create] throws when the key is taken, and the handler answers 500. *)
Definition POST_sessions (st : Store) (now : Z) (newId : string)
    (req : SessionRequest) : Store * SessionsResponse :=
  let cond := default "adaptive"%string (condition req) in
  if negb (truthy (userId req)) || negb (truthy (quizId req))
  then (st, sessions_error "userId and quizId are required" 400)
  else
  if negb (String.eqb cond "adaptive") && negb (String.eqb cond "static")
  then (st, sessions_error
              ("condition must be " ++ quote ++ "adaptive" ++ quote
               ++ " or " ++ quote ++ "static" ++ quote) 400)
  else
  if negb (bool_decide (userId req ∈ users st))
  then (st, sessions_error "User not found" 404)
  else
  if negb (bool_decide (quizId req ∈ quizzes st))
  then (st, sessions_error "Quiz not found" 404)
  else
  let initialKCStates := BKT.initialiseAllKCs in
  match sessions (db st) !! newId with
  | Some _ => (st, sessions_error "Internal server error" 500)
  | None =>
    let session :=
      {| s_id := newId;
         s_userId := userId req;
         s_quizId := quizId req;
         s_condition := cond;
         s_startedAt := now;
         s_completedAt := None;
         s_theta := IRT.THETA_INITIAL;
         s_thetaSd := IRT.THETA_INITIAL_SD;
         s_kcStates := Serialised initialKCStates |} in
    ({| users := users st;
        quizzes := quizzes st;
        db := {| questions := questions (db st);
                 sessions := <[ newId := session ]> (sessions (db st));
                 interactions := interactions (db st) |} |},
     {| sr_status := 201;
        sr_body := SessionCreated (s_id session) (s_condition session)
                     (s_theta session) (s_thetaSd session)
                     "Session created successfully" |})
  end.

Arguments POST_sessions : simpl never.

(** *** Vocabulary for the life of a store *)

(** The session an event addresses. *)
Definition op_session (op : Op) : string :=
  match op with
  | OpNext sid => sid
  | OpAnswer _ sid _ => sid
  end.

(** What the creation route needs to accept a request: both ids present, a
    known condition (or none), an existing user and quiz, and a free key. *)
Definition creatable (st : Store) (newId : string) (req : SessionRequest) : Prop :=
  userId req <> ""%string
  /\ quizId req <> ""%string
  /\ (condition req = None \/ condition req = Some "adaptive"%string
      \/ condition req = Some "static"%string)
  /\ userId req ∈ users st
  /\ quizId req ∈ quizzes st
  /\ sessions (db st) !! newId = None.

(** The interactions of a session are an audit trail of its ability: they
    start at the initial ability, each starts where the one before it
    ended, and the last one ends at the session's current ability. *)
Fixpoint theta_trail (start : R) (rows : list InteractionRow) (stop : R) : Prop :=
  match rows with
  | [] => start = stop
  | i :: rest => i_theta_before i = start /\ theta_trail (i_theta_after i) rest stop
  end.

(** The estimates of a session are on the grid range. *)
Definition estimates_in_range (session : SessionRow) : Prop :=
  -4 <= s_theta session <= 4 /\ 0 <= s_thetaSd session.

(** Every session's interactions are an audit trail of its ability, from
    the initial ability to the current one. *)
Definition trails_kept (d : DB) : Prop :=
  forall sid session,
    sessions d !! sid = Some session ->
    theta_trail IRT.THETA_INITIAL (sessionInteractions d sid) (s_theta session).

(** The answer request with its label upper-cased. *)
Definition upper_request (req : AnswerRequest) : AnswerRequest :=
  {| questionId := questionId req;
     selectedAnswer := toUpperCase (selectedAnswer req);
     responseTimeMs := responseTimeMs req |}.

(** The three routes as external events on the whole store. *)
Inductive Request : Type :=
| ReqCreate (newId : string) (req : SessionRequest)
| ReqOp (op : Op).

Definition serve (now : Z) (r : Request) (st : Store) : Store :=
  match r with
  | ReqCreate newId req => fst (POST_sessions st now newId req)
  | ReqOp op =>
      {| users := users st; quizzes := quizzes st;
         db := fst (run now op (db st)) |}
  end.

Definition serve_all (rs : list (Z * Request)) (st : Store) : Store :=
  fold_left (fun s e => serve (fst e) (snd e) s) rs st.

(** A store before any session: no session row and no interaction. *)
Definition no_sessions (st : Store) : Prop :=
  sessions (db st) = ∅ /\ interactions (db st) = [].

(** The item parameters of the whole bank are in the 3PL domain. *)
Definition valid_bank (d : DB) : Prop :=
  Forall (fun q => 0 < irt_a q /\ 0 <= irt_c q < 1) (questions d).

(** The primary key of the table of questions. *)
Definition unique_question_ids (d : DB) : Prop :=
  NoDup (map q_id (questions d)).

End Engine.

(** ** Elo rating ([elo.ts]) *)

Module Elo.

Definition INITIAL_RATING : R := 1500.
Definition K_FACTOR : R := 32.

Record EloResult : Type := mkElo { questionRating : R; userRating : R }.

(** [1 / (1 + Math.pow(10, (opponentRating - playerRating) / 400))] *)
Definition calculateExpectedScore (playerRating opponentRating : R) : R :=
  1 / (1 + Rpower 10 ((opponentRating - playerRating) / 400)).

(** [currentRating + kFactor * (actualScore - expectedScore)]; the default
    of [kFactor] is passed by the callers that omit it. *)
Definition updateEloRating (currentRating expectedScore actualScore kFactor : R) : R :=
  currentRating + kFactor * (actualScore - expectedScore).

Definition calculateQuestionDifficulty (questionRating userRating : R)
    (isCorrect : bool) : EloResult :=
  let expectedScore := calculateExpectedScore userRating questionRating in
  let actualScore := if isCorrect then 1 else 0 in
  let newQuestionRating :=
    updateEloRating questionRating expectedScore actualScore K_FACTOR in
  let newUserRating :=
    updateEloRating userRating (1 - expectedScore) (1 - actualScore) K_FACTOR in
  {| questionRating := newQuestionRating; userRating := newUserRating |}.

End Elo.

(** ** Mastery threshold for content sequencing ([mastery.ts]) *)

Module Mastery.

Definition MASTERY_THRESHOLD : R := 0.8.

(** [accuracy >= MASTERY_THRESHOLD * 100] *)
Definition checkMastery (accuracy : R) : bool :=
  IRT.geb accuracy (MASTERY_THRESHOLD * 100).

Definition calculateTopicAccuracy (correctAnswers totalQuestions : R) : R :=
  if Req_dec_T totalQuestions 0 then 0
  else correctAnswers / totalQuestions * 100.

Definition determineNextTopic (currentAccuracy attemptCount : R) : string :=
  if checkMastery currentAccuracy then "ready_for_next"
  else if IRT.geb attemptCount 3 && IRT.geb currentAccuracy 60 then "skip_to_next"
  else "review_current".

End Mastery.

(** ** Certified bounds on the exponential *)

(** Integer enclosures of [scale * exp (- p / q)] for rationals [p / q >= 0],
    from [1 - u <= exp (- u) <= 1 / (1 + u)] at [u = p / (q * 2^12)]
    followed by twelve squarings, rounded down (resp. up) to a multiple of
    [1 / scale]. *)
Module ExpBound.

Definition scale : Z := 2 ^ 60.
Definition halvings : nat := 12.

Fixpoint square_down (k : nat) (x : Z) : Z :=
  match k with
  | O => x
  | S k' => let y := square_down k' x in (y * y / scale)%Z
  end.

Fixpoint square_up (k : nat) (x : Z) : Z :=
  match k with
  | O => x
  | S k' => let y := square_up k' x in (y * y / scale + 1)%Z
  end.

Definition exp_neg_lo (p q : Z) : Z :=
  let n := (q * 2 ^ Z.of_nat halvings)%Z in
  square_down halvings (Z.max 0 (scale * (n - p) / n)).

Definition exp_neg_hi (p q : Z) : Z :=
  let n := (q * 2 ^ Z.of_nat halvings)%Z in
  square_up halvings (scale * n / (n + p) + 1)%Z.

Definition Zsum (l : list Z) : Z := fold_right Z.add 0%Z l.

End ExpBound.

(** ** The default prior on the grid, in integers *)

(** With [priorMean = -0.780] and [priorSd = 0.543] the distance of grid
    point [i] to the prior mean is [offset i / 100], and the prior weight is
    [exp (- exponent_num i / exponent_den)]. *)
Module DefaultPrior.
Import ExpBound.

Definition offset (i : nat) : Z := (5 * Z.of_nat i - 322)%Z.
Definition exponent_num (i : nat) : Z := (50 * (offset i * offset i))%Z.
Definition exponent_den : Z := 294849%Z.

Definition w_lo (i : nat) : Z := exp_neg_lo (exponent_num i) exponent_den.
Definition w_hi (i : nat) : Z := exp_neg_hi (exponent_num i) exponent_den.

Definition indices : list nat := seq 0 IRT.THETA_STEPS.

Definition mass_lo : Z := Zsum (map w_lo indices).
Definition mass_hi : Z := Zsum (map w_hi indices).

Definition moment1_term_hi (i : nat) : Z :=
  if (0 <=? offset i)%Z then (offset i * w_hi i)%Z else (offset i * w_lo i)%Z.
Definition moment1_term_lo (i : nat) : Z :=
  if (0 <=? offset i)%Z then (offset i * w_lo i)%Z else (offset i * w_hi i)%Z.

Definition moment1_hi : Z := Zsum (map moment1_term_hi indices).
Definition moment1_lo : Z := Zsum (map moment1_term_lo indices).

Definition moment2_lo : Z := Zsum (map (fun i => (offset i * offset i * w_lo i)%Z) indices).
Definition moment2_hi : Z := Zsum (map (fun i => (offset i * offset i * w_hi i)%Z) indices).

(** The real quantities these integers enclose: the prior weight of grid
    point [i], its total [T], and the sums [M0], [M1], [M2] of the weights
    against the powers of the offsets. *)
Definition W : nat -> R := IRT.weight [] IRT.THETA_INITIAL IRT.THETA_INITIAL_SD.
Definition T : R := IRT.sum_list (IRT.likelihood [] IRT.THETA_INITIAL IRT.THETA_INITIAL_SD).
Definition M0 : R := IRT.Rsum (map W indices).
Definition M1 : R := IRT.Rsum (map (fun i => IZR (offset i) * W i) indices).
Definition M2 : R :=
  IRT.Rsum (map (fun i => IZR (offset i) * IZR (offset i) * W i) indices).

End DefaultPrior.

(** ** Concrete inputs of the scenarios and examples *)

Module Scenario.
Import IRT.

(** The seeded bank as the next-question route hands it to the selector. *)
Definition seed_bank : list IRTQuestion :=
  map Engine.toIRTQuestion Engine.questionsData.

Definition q002 : IRTQuestion := nth 1 seed_bank (mkQuestion "" "" [] "" 0 "" (mkParams 0 0 0)).

(** The first selection of an adaptive session: [theta = -0.780], nothing
    answered, no Bloom filter. *)
Definition first_pick : NextQuestionCriteria :=
  {| targetTheta := -0.780; excludeIds := []; bloomLevel := None |}.

(** Two items with the same parameters, listed with the larger id first. *)
Definition tie_item (name : string) : IRTQuestion :=
  {| id := name; text := ""; options := []; correct := "A"; bloom := 1;
     kc := ""; irt := {| a := 1; b := 0; c := 0.25 |} |}.

Definition tie_bank : list IRTQuestion := [tie_item "q-b"; tie_item "q-a"].

Definition tie_criteria : NextQuestionCriteria :=
  {| targetTheta := 0; excludeIds := []; bloomLevel := None |}.

(** Three items that differ in difficulty only. *)
Definition graded_item (name : string) (difficulty : R) : IRTQuestion :=
  {| id := name; text := ""; options := []; correct := "A"; bloom := 1;
     kc := ""; irt := {| a := 1; b := difficulty; c := 0.25 |} |}.

Definition graded_bank : list IRTQuestion :=
  [graded_item "q-hard" 0.5; graded_item "q-easy" (-1.5); graded_item "q-mid" 0.2].

(** Scenario D: the knowledge component [UK_capitals]. *)
Definition UK_capitals : BKT.BKTParams := BKT.bkt 0.60 0.25 0.08 0.25.

Definition scenario_D_expected : R :=
  0.60 * 0.92 / (0.60 * 0.92 + 0.40 * 0.25)
  + (1 - 0.60 * 0.92 / (0.60 * 0.92 + 0.40 * 0.25)) * 0.25.

(** Degenerate parameters: a learner who knows the skill always slips and a
    learner who does not never guesses, so a correct answer has
    probability zero. *)
Definition degenerate : BKT.BKTParams := BKT.bkt 0.5 0.1 1 0.

(** A very sharp item just below the top of the grid with a small guessing
    floor, answered correctly, under a nearly flat prior: almost all of the
    posterior sits on the last grid point, the rest is spread evenly below. *)
Definition skew_item : IRTParams := {| a := 10000000; b := 3.975; c := 0.0001 |}.

Definition skew_responses : list Response :=
  [ {| params := skew_item; isCorrect := true |} ].

Definition skew_weight : nat -> R := weight skew_responses 0 1000.
Definition skew_total : R := sum_list (likelihood skew_responses 0 1000).
Definition skew_post (i : nat) : R := skew_weight i / skew_total.

(** A store with the seeded bank and one adaptive session, nothing
    answered; the same store with the session completed. *)
Definition session_s1 (completedAt : option Z) : Engine.SessionRow :=
  {| Engine.s_id := "s1"; Engine.s_userId := "u1";
     Engine.s_quizId := Engine.seedQuizId;
     Engine.s_condition := "adaptive";
     Engine.s_startedAt := 0;
     Engine.s_completedAt := completedAt;
     Engine.s_theta := THETA_INITIAL;
     Engine.s_thetaSd := THETA_INITIAL_SD;
     Engine.s_kcStates := Engine.Serialised BKT.initialiseAllKCs |}.

Definition fresh_db : Engine.DB :=
  {| Engine.questions := Engine.questionsData;
     Engine.sessions := {[ "s1"%string := session_s1 None ]};
     Engine.interactions := [] |}.

Definition done_db : Engine.DB :=
  {| Engine.questions := Engine.questionsData;
     Engine.sessions := {[ "s1"%string := session_s1 (Some 5%Z) ]};
     Engine.interactions := [] |}.

(** The seeded store when the quiz holds one question only, [q-002], and
    the session has answered it. *)
Definition last_db : Engine.DB :=
  {| Engine.questions := [nth 1 Engine.questionsData
                              (Engine.mkQuestionRow "" "" 0 0 0 0 0 "" "" [])];
     Engine.sessions := {[ "s1"%string := session_s1 None ]};
     Engine.interactions :=
       [ {| Engine.i_id := "i1"; Engine.i_sessionId := "s1";
            Engine.i_questionId := "q-002"; Engine.i_selectedAnswer := "C";
            Engine.i_isCorrect := true; Engine.i_responseTimeMs := 0;
            Engine.i_theta_before := THETA_INITIAL;
            Engine.i_theta_after := THETA_INITIAL;
            Engine.i_pLearned_before := JSNum.Fin 0.60;
            Engine.i_pLearned_after := JSNum.Fin 0.60;
            Engine.i_createdAt := 1 |} ] |}.

(** A record of three knowledge components: one in progress, one not
    started, one mastered. *)
Definition kc_state (k : string) (pl : R) (n : nat) (m : bool) : BKT.KCState :=
  {| BKT.kcId := k; BKT.pLearned := JSNum.Fin pl; BKT.attempts := n;
     BKT.correct := 0; BKT.isMastered := m |}.

Definition three_kcs : BKT.KCStates :=
  [ ("UK_capitals"%string, kc_state "UK_capitals" 0.60 2 false);
    ("UK_rivers"%string, kc_state "UK_rivers" 0.30 0 false);
    ("UK_mountains"%string, kc_state "UK_mountains" 0.97 3 true) ].

(** The seeded tables before any session, with one user; a request of
    that user for the seeded quiz; and a short life of the store. *)
Definition seeded_store : Engine.Store :=
  {| Engine.users := {[ "u1"%string ]};
     Engine.quizzes := {[ Engine.seedQuizId ]};
     Engine.db := {| Engine.questions := Engine.questionsData;
                     Engine.sessions := ∅;
                     Engine.interactions := [] |} |}.

Definition create_s1 : Engine.SessionRequest :=
  {| Engine.userId := "u1"; Engine.quizId := Engine.seedQuizId;
     Engine.condition := None |}.

Definition answer_C : Engine.AnswerRequest :=
  {| Engine.questionId := "q-002";
     Engine.selectedAnswer := "c";
     Engine.responseTimeMs := Some 1200%Z |}.

Definition short_life : list (Z * Engine.Request) :=
  [ (1%Z, Engine.ReqCreate "s1" create_s1);
    (2%Z, Engine.ReqOp (Engine.OpNext "s1"));
    (3%Z, Engine.ReqOp (Engine.OpAnswer "i1" "s1" answer_C)) ].

(** The seeded store with one session of the static condition. *)
Definition static_db : Engine.DB :=
  {| Engine.questions := Engine.questionsData;
     Engine.sessions :=
       {[ "s1"%string :=
            {| Engine.s_id := "s1"; Engine.s_userId := "u1";
               Engine.s_quizId := Engine.seedQuizId;
               Engine.s_condition := "static";
               Engine.s_startedAt := 0;
               Engine.s_completedAt := None;
               Engine.s_theta := THETA_INITIAL;
               Engine.s_thetaSd := THETA_INITIAL_SD;
               Engine.s_kcStates := Engine.Serialised BKT.initialiseAllKCs |} ]};
     Engine.interactions := [] |}.

(** An answer to [q-002] with a label outside A-D. *)
Definition answer_E : Engine.AnswerRequest :=
  {| Engine.questionId := "q-002";
     Engine.selectedAnswer := "e";
     Engine.responseTimeMs := None |}.

End Scenario.

(* ===================================================================== *)
(** * Part II.  Properties                                                *)
(* ===================================================================== *)

(** ** The 3PL curve *)

Section P3PL.
Import IRT.

Lemma logistic_den_pos (x : R) : 0 < 1 + exp x.
Proof. pose proof (exp_pos x). lra. Qed.

Lemma expo_pos th q : 0 < expo th q.
Proof. apply exp_pos. Qed.

Lemma p3PL_expo th q : p3PL th q = (1 + c q * expo th q) / (1 + expo th q).
Proof.
  unfold p3PL. fold (expo th q). pose proof (expo_pos th q). field. lra.
Qed.

Lemma p3PL_minus_c th q :
  p3PL th q - c q = (1 - c q) / (1 + expo th q).
Proof. unfold p3PL. fold (expo th q). ring. Qed.

Lemma one_minus_p3PL th q :
  1 - p3PL th q = (1 - c q) * expo th q / (1 + expo th q).
Proof.
  rewrite p3PL_expo. pose proof (expo_pos th q). field. lra.
Qed.

Lemma p3PL_gt_c th q : c q < 1 -> c q < p3PL th q.
Proof.
  intros Hc. pose proof (p3PL_minus_c th q) as H.
  pose proof (expo_pos th q) as He.
  assert (0 < (1 - c q) / (1 + expo th q)) by (apply Rdiv_lt_0_compat; lra).
  lra.
Qed.

Lemma p3PL_lt_1 th q : c q < 1 -> p3PL th q < 1.
Proof.
  intros Hc. pose proof (one_minus_p3PL th q) as H.
  pose proof (expo_pos th q) as He.
  assert (0 < (1 - c q) * expo th q / (1 + expo th q)).
  { apply Rdiv_lt_0_compat; [apply Rmult_lt_0_compat|]; lra. }
  lra.
Qed.



End P3PL.

(** ** Maximum-information selection *)

Section Selection.
Import IRT.

Section SortFacts.
Context {A : Type} (cmp : A -> A -> R).

Lemma sort_insert_In (x y : A) (l : list A) :
  In y (sort_insert cmp x l) -> y = x \/ In y l.
Proof.
  induction l as [|z l IH]; simpl.
  - intros [H|[]]; auto.
  - destruct (Rlt_dec (cmp z x) 0); simpl.
    + intros [H|H]; auto. destruct (IH H); auto.
    + intros [H|[H|H]]; auto.
Qed.

Lemma sort_In (y : A) (l : list A) : In y (sort cmp l) -> In y l.
Proof.
  induction l as [|x l IH]; simpl; [tauto|].
  intros H. apply sort_insert_In in H. destruct H; auto.
Qed.

Lemma sort_length (l : list A) : length (sort cmp l) = length l.
Proof.
  assert (Hins : forall x l', length (sort_insert cmp x l') = S (length l')).
  { intros x l'. induction l' as [|z l' IH]; simpl; [reflexivity|].
    destruct (Rlt_dec (cmp z x) 0); simpl; congruence. }
  induction l as [|x l IH]; simpl; [reflexivity|].
  rewrite Hins. congruence.
Qed.

(** The head of the sorted list is the first element that no element
    strictly precedes. *)
Lemma sort_head (l1 l2 : list A) (x : A) :
  Forall (fun y => cmp x y < 0) l1 ->
  Forall (fun y => ~ cmp y x < 0) l2 ->
  exists tl, sort cmp (l1 ++ x :: l2) = x :: tl.
Proof.
  intros H1 H2. induction H1 as [|y l1 Hy _ IH]; simpl.
  - destruct (sort cmp l2) as [|z tl] eqn:E; simpl; [eauto|].
    assert (Hz : In z l2) by (apply sort_In; rewrite E; now left).
    rewrite List.Forall_forall in H2. specialize (H2 z Hz).
    destruct (Rlt_dec (cmp z x) 0); [contradiction|eauto].
  - destruct IH as [tl ->]. simpl.
    destruct (Rlt_dec (cmp x y) 0); [eauto|contradiction].
Qed.

End SortFacts.

(** Every non-empty list splits at the first of its largest elements. *)
Lemma first_argmax_exists (th : R) (l : list IRTQuestion) :
  l <> [] -> exists q, first_argmax th l q.
Proof.
  induction l as [|x l IH]; [congruence|]. intros _.
  destruct l as [|y l'].
  - exists x, [], []. repeat split; constructor.
  - destruct IH as [q (l1 & l2 & E & H1 & H2)]; [discriminate|].
    destruct (Rlt_dec (itemInformation th x) (itemInformation th q)) as [Hlt|Hge].
    + exists q, (x :: l1), l2. rewrite E. repeat split; auto.
    + exists x, [], (y :: l'). split; [reflexivity|]. split; [constructor|].
      rewrite E. apply List.Forall_app. split.
      * eapply List.Forall_impl; [|exact H1]. simpl. intros; lra.
      * constructor; [lra|]. eapply List.Forall_impl; [|exact H2]. simpl. intros; lra.
Qed.

Lemma first_argmax_unique (th : R) (l : list IRTQuestion) (q q' : IRTQuestion) :
  first_argmax th l q -> first_argmax th l q' -> q = q'.
Proof.
  intros (l1 & l2 & E & H1 & H2). revert l E.
  induction H1 as [|y l1 Hy H1 IH]; intros l E (l1' & l2' & E' & H1' & H2').
  - destruct l1' as [|z l1']; simpl in *; subst l.
    + now inversion E'.
    + inversion E'; subst. inversion H1'; subst.
      rewrite List.Forall_forall in H2.
      assert (In q' (l1' ++ q' :: l2')) by (apply in_or_app; right; now left).
      specialize (H2 _ H). lra.
  - destruct l1' as [|z l1']; simpl in *; subst l.
    + inversion E'; subst.
      rewrite List.Forall_forall in H2'.
      assert (In q (l1 ++ q :: l2)) by (apply in_or_app; right; now left).
      specialize (H2' _ H). lra.
    + inversion E'; subst. inversion H1'; subst.
      apply (IH (l1 ++ q :: l2) eq_refl). exists l1', l2'. auto.
Qed.

(** What the selector computes: nothing on an empty eligible list, else the
    first item of largest information among the eligible ones, in bank
    order. *)
Lemma selectNextQuestion_sorted questions criteria :
  List.filter (eligible criteria) questions <> [] ->
  selectNextQuestion questions criteria =
  match sort (fun x y => info y - info x)
             (map (fun q0 : IRTQuestion =>
                     {| question := q0;
                        info := itemInformation (targetTheta criteria) q0 |})
                  (List.filter (eligible criteria) questions)) with
  | s :: _ => Some (question s)
  | [] => None
  end.
Proof.
  intros Hne. unfold selectNextQuestion.
  destruct (List.filter (eligible criteria) questions); [congruence|reflexivity].
Qed.

Lemma selectNextQuestion_first_argmax questions criteria q :
  first_argmax (targetTheta criteria)
               (List.filter (eligible criteria) questions) q ->
  selectNextQuestion questions criteria = Some q.
Proof.
  intros (l1 & l2 & E & H1 & H2).
  rewrite selectNextQuestion_sorted by (rewrite E; destruct l1; discriminate).
  set (mk := fun q0 : IRTQuestion =>
               {| question := q0; info := itemInformation (targetTheta criteria) q0 |}).
  rewrite E, map_app, map_cons.
  destruct (sort_head (fun x y => info y - info x) (map mk l1) (map mk l2) (mk q))
    as [tl' ->]; [| |reflexivity].
  - apply List.Forall_map. eapply List.Forall_impl; [|exact H1]. simpl. intros; lra.
  - apply List.Forall_map. eapply List.Forall_impl; [|exact H2]. simpl. intros; lra.
Qed.

Lemma selectNextQuestion_none questions criteria :
  List.filter (eligible criteria) questions = [] ->
  selectNextQuestion questions criteria = None.
Proof. intros E. unfold selectNextQuestion. now rewrite E. Qed.

End Selection.

Section SelectionTheorems.
Import IRT Scenario.

Lemma eligible_no_filter criteria (l : list IRTQuestion) :
  excludeIds criteria = [] -> bloomLevel criteria = None ->
  List.filter (eligible criteria) l = l.
Proof.
  intros He Hb. induction l as [|q l IH]; simpl; [reflexivity|].
  unfold eligible at 1. rewrite He, Hb. simpl. now rewrite IH.
Qed.

(** The information function in closed form, on the parameter domain. *)
Lemma itemInformation_expo th (q : IRTParams) :
  0 <= c q < 1 ->
  itemInformation th q
  = D ^ 2 * a q ^ 2 / ((1 - c q) * expo th q * (1 + c q * expo th q)).
Proof.
  intros Hc. unfold itemInformation. cbv zeta.
  rewrite p3PL_minus_c, one_minus_p3PL, p3PL_expo.
  pose proof (expo_pos th q) as He.
  assert (0 <= c q * expo th q) by (apply Rmult_le_pos; lra).
  field. repeat split; lra.
Qed.

Lemma info_den_pos th (q : IRTParams) :
  0 <= c q < 1 -> 0 < (1 - c q) * expo th q * (1 + c q * expo th q).
Proof.
  intros Hc. pose proof (expo_pos th q) as He.
  assert (0 <= c q * expo th q) by (apply Rmult_le_pos; lra).
  apply Rmult_lt_0_compat; [apply Rmult_lt_0_compat|]; lra.
Qed.

(** Comparing two items through bounds on their exponentials. *)
Lemma info_lt_by_bounds th (q q' : IRTParams) (eu el : R) :
  0 <= c q < 1 -> 0 <= c q' < 1 ->
  expo th q <= eu -> 0 < el <= expo th q' ->
  a q' ^ 2 * ((1 - c q) * eu * (1 + c q * eu))
    < a q ^ 2 * ((1 - c q') * el * (1 + c q' * el)) ->
  itemInformation th q' < itemInformation th q.
Proof.
  intros Hc Hc' Hu [Hl0 Hl] Hcmp.
  rewrite !itemInformation_expo by assumption.
  pose proof (info_den_pos th q Hc) as Hd.
  pose proof (info_den_pos th q' Hc') as Hd'.
  pose proof (expo_pos th q) as He. pose proof (expo_pos th q') as He'.
  set (e := expo th q) in *. set (e' := expo th q') in *.
  assert (Hden : (1 - c q) * e * (1 + c q * e) <= (1 - c q) * eu * (1 + c q * eu)).
  { assert (c q * e <= c q * eu) by (apply Rmult_le_compat_l; lra).
    assert (0 <= c q * e) by (apply Rmult_le_pos; lra).
    apply Rmult_le_compat.
    - apply Rmult_le_pos; lra.
    - lra.
    - apply Rmult_le_compat_l; lra.
    - lra. }
  assert (Hden' : (1 - c q') * el * (1 + c q' * el) <= (1 - c q') * e' * (1 + c q' * e')).
  { assert (c q' * el <= c q' * e') by (apply Rmult_le_compat_l; lra).
    assert (0 <= c q' * el) by (apply Rmult_le_pos; lra).
    apply Rmult_le_compat.
    - apply Rmult_le_pos; lra.
    - lra.
    - apply Rmult_le_compat_l; lra.
    - lra. }
  assert (Ha : 0 <= a q ^ 2) by apply pow2_ge_0.
  assert (Ha' : 0 <= a q' ^ 2) by apply pow2_ge_0.
  assert (HD : 0 < D ^ 2) by (unfold D; lra).
  assert (Hce : 0 <= c q * e) by (apply Rmult_le_pos; lra).
  assert (Hce' : 0 <= c q' * e') by (apply Rmult_le_pos; lra).
  apply Rmult_lt_reg_r with ((1 - c q') * e' * (1 + c q' * e')); [exact Hd'|].
  apply Rmult_lt_reg_r with ((1 - c q) * e * (1 + c q * e)); [exact Hd|].
  replace (D ^ 2 * a q' ^ 2 / ((1 - c q') * e' * (1 + c q' * e'))
           * ((1 - c q') * e' * (1 + c q' * e')) * ((1 - c q) * e * (1 + c q * e)))
    with (D ^ 2 * (a q' ^ 2 * ((1 - c q) * e * (1 + c q * e))))
    by (field; repeat split; lra).
  replace (D ^ 2 * a q ^ 2 / ((1 - c q) * e * (1 + c q * e))
           * ((1 - c q') * e' * (1 + c q' * e')) * ((1 - c q) * e * (1 + c q * e)))
    with (D ^ 2 * (a q ^ 2 * ((1 - c q') * e' * (1 + c q' * e'))))
    by (field; repeat split; lra).
  apply Rmult_lt_compat_l; [exact HD|].
  apply Rle_lt_trans with (a q' ^ 2 * ((1 - c q) * eu * (1 + c q * eu))).
  - apply Rmult_le_compat_l; assumption.
  - apply Rlt_le_trans with (a q ^ 2 * ((1 - c q') * el * (1 + c q' * el))); [exact Hcmp|].
    apply Rmult_le_compat_l; assumption.
Qed.

Lemma exp_neg_lt_1 (x : R) : x < 0 -> exp x < 1.
Proof. intros H. rewrite <- exp_0. now apply exp_increasing. Qed.

Lemma exp_nonneg_ge_1 (x : R) : 0 <= x -> 1 <= exp x.
Proof. intros H. pose proof (exp_ineq1_le x). lra. Qed.

Lemma seed_bank_unfold :
  exists q1 q3 q4 q5 : IRTQuestion,
    seed_bank = [q1; q002; q3; q4; q5]
    /\ id q002 = "q-002"%string
    /\ irt q1 = {| a := 0.85; b := -0.80; c := 0.25 |}
    /\ irt q002 = {| a := 1.20; b := -1.50; c := 0.25 |}
    /\ irt q3 = {| a := 0.90; b := -0.60; c := 0.25 |}
    /\ irt q4 = {| a := 1.10; b := 0.20; c := 0.25 |}
    /\ irt q5 = {| a := 1.30; b := 0.50; c := 0.25 |}.
Proof. do 4 eexists. repeat split; reflexivity. Qed.

(** The first pick on the seeded bank, and the order of the information
    values behind it. *)
Lemma seed_bank_first_pick :
  selectNextQuestion seed_bank first_pick = Some q002
  /\ id q002 = "q-002"%string
  /\ Forall (fun q : IRTQuestion =>
               itemInformation (-0.780) q <= itemInformation (-0.780) q002)
            seed_bank.
Proof.
  destruct seed_bank_unfold as (q1 & q3 & q4 & q5 & Eb & Eid & E1 & E2 & E3 & E4 & E5).
  assert (H2 : expo (-0.780) q002 <= 1).
  { unfold expo. rewrite E2. simpl. left. apply exp_neg_lt_1. unfold D. lra. }
  assert (H1 : 0 < 0.9711 <= expo (-0.780) q1).
  { unfold expo. rewrite E1. simpl. split; [lra|].
    pose proof (exp_ineq1_le (- D * 0.85 * (-0.780 - -0.80))) as H.
    unfold D in *. lra. }
  assert (H3 : 0 < 1 <= expo (-0.780) q3).
  { unfold expo. rewrite E3. simpl. split; [lra|].
    apply exp_nonneg_ge_1. unfold D. lra. }
  assert (H4 : 0 < 1 <= expo (-0.780) q4).
  { unfold expo. rewrite E4. simpl. split; [lra|].
    apply exp_nonneg_ge_1. unfold D. lra. }
  assert (H5 : 0 < 3.8288 <= expo (-0.780) q5).
  { unfold expo. rewrite E5. simpl. split; [lra|].
    pose proof (exp_ineq1_le (- D * 1.30 * (-0.780 - 0.50))) as H.
    unfold D in *. lra. }
  assert (L1 : itemInformation (-0.780) q1 < itemInformation (-0.780) q002).
  { apply info_lt_by_bounds with (eu := 1) (el := 0.9711); auto;
      rewrite ?E1, ?E2; simpl; lra. }
  assert (L3 : itemInformation (-0.780) q3 < itemInformation (-0.780) q002).
  { apply info_lt_by_bounds with (eu := 1) (el := 1); auto;
      rewrite ?E3, ?E2; simpl; lra. }
  assert (L4 : itemInformation (-0.780) q4 < itemInformation (-0.780) q002).
  { apply info_lt_by_bounds with (eu := 1) (el := 1); auto;
      rewrite ?E4, ?E2; simpl; lra. }
  assert (L5 : itemInformation (-0.780) q5 < itemInformation (-0.780) q002).
  { apply info_lt_by_bounds with (eu := 1) (el := 3.8288); auto;
      rewrite ?E5, ?E2; simpl; lra. }
  split; [|split; [exact Eid|]].
  - apply selectNextQuestion_first_argmax.
    rewrite eligible_no_filter by reflexivity.
    exists [q1], [q3; q4; q5]. split; [exact Eb|].
    change (targetTheta first_pick) with (-0.780). split.
    + constructor; [exact L1|constructor].
    + repeat (constructor; [apply Rlt_le; assumption|]). constructor.
  - rewrite Eb. repeat (constructor; [lra|]). constructor.
Qed.




End SelectionTheorems.

(** ** Bayesian Knowledge Tracing *)

Section BKTFacts.
Import JSNum BKT Scenario.

Lemma div_fin (r s : R) : s <> 0 -> div (Fin r) (Fin s) = Fin (r / s).
Proof. intros H. simpl. destruct (Req_dec_T s 0); [contradiction|reflexivity]. Qed.

Lemma div_zero_zero (r s : R) : r = 0 -> s = 0 -> div (Fin r) (Fin s) = NaN.
Proof.
  intros Hr Hs. simpl.
  destruct (Req_dec_T s 0); [|contradiction].
  destruct (Req_dec_T r 0); [reflexivity|contradiction].
Qed.

Lemma clamp_fin (r : R) :
  0 <= r <= 1 -> max (Fin 0) (min (Fin 1) (Fin r)) = Fin r.
Proof.
  intros [H0 H1]. simpl. f_equal.
  rewrite (Rmin_right 1 r) by exact H1. now apply Rmax_right.
Qed.

Lemma geb_fin_lt (r s : R) : r < s -> geb (Fin r) (Fin s) = false.
Proof. intros H. simpl. destruct (Rle_dec s r); [lra|reflexivity]. Qed.

(** Once the Bayesian step is [NaN], so is everything after it. *)
Lemma updateBKT_NaN_step (t : num) :
  max (Fin 0) (min (Fin 1) (add NaN (mul (sub (Fin 1) NaN) t))) = NaN.
Proof. reflexivity. Qed.

Lemma DEFAULT_BKT_PARAMS_UK_capitals :
  DEFAULT_BKT_PARAMS !! "UK_capitals"%string = Some UK_capitals.
Proof.
  unfold DEFAULT_BKT_PARAMS, DEFAULT_BKT_PARAMS_entries. simpl list_to_map.
  rewrite lookup_insert_ne by done. now rewrite lookup_insert_eq.
Qed.

(** C7.  With the [UK_capitals] parameters ([pL0 = 0.60], [pT = 0.25],
    [pS = 0.08], [pG = 0.25]), one correct response from [pLearned = 0.60]
    gives [pLearned_after] within [1e-6] of
    [0.60*0.92/(0.60*0.92+0.40*0.25) + (1 - ...)*0.25], about [0.885], and
    the component is not mastered. *)
Theorem updateBKT_scenario_D :
  DEFAULT_BKT_PARAMS !! "UK_capitals"%string = Some UK_capitals
  /\ exists v : R,
      updateBKT (Fin 0.60) true UK_capitals
      = {| pLearned_before := Fin 0.60;
           pLearned_after := Fin v;
           upd_isMastered := false |}
      /\ Rabs (v - scenario_D_expected) <= 0.000001
      /\ Rabs (v - 0.885) < 0.0001.
Proof.
  split; [exact DEFAULT_BKT_PARAMS_UK_capitals|].
  exists scenario_D_expected.
  assert (Hv : 0.8849 < scenario_D_expected < 0.8850).
  { unfold scenario_D_expected.
    assert (E : 0.60 * 0.92 / (0.60 * 0.92 + 0.40 * 0.25) = 138 / 163) by lra.
    rewrite E. lra. }
  split; [|split].
  - unfold updateBKT, pCorrect, UK_capitals, bkt. cbn [pS pG pT].
    cbn [sub neg add mul].
    rewrite div_fin by lra. cbn [sub neg add mul].
    replace (0.60 * (1 + - (0.08))) with (0.60 * 0.92) by lra.
    replace (1 + - (0.60)) with 0.40 by lra.
    match goal with
    | |- context [min (Fin 1) (Fin ?x)] =>
        replace x with scenario_D_expected by (unfold scenario_D_expected; lra)
    end.
    rewrite clamp_fin by lra.
    unfold MASTERY_THRESHOLD. rewrite geb_fin_lt by lra. reflexivity.
  - rewrite Rminus_diag, Rabs_R0. lra.
  - apply Rabs_def1; lra.
Qed.

(** C3, as stated, fails.  With [pS = 1] and [pG = 0] the probability of a
    correct answer is zero, and [updateBKT] on a correct answer does not
    fail with a numeric error: it returns, with [pLearned_after = NaN]. *)
Lemma updateBKT_zero_denominator_counterexample :
  pCorrect (Fin 0.5) degenerate = Fin 0
  /\ call_updateBKT (Fin 0.5) true degenerate <> Thrown NumericError
  /\ call_updateBKT (Fin 0.5) true degenerate
     = Returned {| pLearned_before := Fin 0.5;
                   pLearned_after := NaN;
                   upd_isMastered := false |}.
Proof.
  assert (E : pCorrect (Fin 0.5) degenerate = Fin 0).
  { unfold pCorrect, degenerate, bkt. simpl. f_equal. lra. }
  split; [exact E|]. split; [discriminate|].
  unfold call_updateBKT, updateBKT. rewrite E.
  unfold degenerate, bkt. cbn [pS pG pT sub neg add mul].
  rewrite div_zero_zero by lra. reflexivity.
Qed.

(** C3, amended.  [updateBKT] has no zero-denominator check and never
    fails.  For every prior [pLearned] and parameters in [[0,1]] for which
    the denominator of the Bayesian update is zero (for a correct answer
    [pLearned*(1-pS) + (1-pLearned)*pG = 0], for an incorrect one
    [pLearned*pS + (1-pLearned)*(1-pG) = 0]), the call returns, the division
    is [0/0], and the result carries [pLearned_after = NaN] and
    [isMastered = false]. *)
Theorem updateBKT_zero_denominator_returns_NaN
    (r l0 s g : R) (t : num) (isCorrect : bool) :
  0 <= r <= 1 -> 0 <= s <= 1 -> 0 <= g <= 1 ->
  (if isCorrect then pCorrect else pIncorrect)
    (Fin r) {| pL0 := Fin l0; pT := t; pS := Fin s; pG := Fin g |} = Fin 0 ->
  call_updateBKT (Fin r) isCorrect
    {| pL0 := Fin l0; pT := t; pS := Fin s; pG := Fin g |}
  = Returned {| pLearned_before := Fin r;
                pLearned_after := NaN;
                upd_isMastered := false |}.
Proof.
  intros Hr Hs Hg Hden. unfold call_updateBKT, updateBKT.
  destruct isCorrect; rewrite Hden; cbn [pS pG pT sub neg add mul] in *.
  - unfold pCorrect in Hden. cbn [pS pG sub neg add mul] in Hden.
    injection Hden as Hden.
    assert (0 <= r * (1 + - s)) by (apply Rmult_le_pos; lra).
    assert (0 <= (1 + - r) * g) by (apply Rmult_le_pos; lra).
    rewrite div_zero_zero by lra. reflexivity.
  - unfold pIncorrect in Hden. cbn [pS pG sub neg add mul] in Hden.
    injection Hden as Hden.
    assert (0 <= r * s) by (apply Rmult_le_pos; lra).
    assert (0 <= (1 + - r) * (1 + - g)) by (apply Rmult_le_pos; lra).
    rewrite div_zero_zero by lra. reflexivity.
Qed.

Lemma updateBKT_zero_denominator_returns_NaN_witness :
  0 <= 0.5 <= 1 /\ 0 <= 1 <= 1 /\ 0 <= 0 <= 1
  /\ pCorrect (Fin 0.5) {| pL0 := Fin 0.5; pT := Fin 0.1; pS := Fin 1; pG := Fin 0 |}
     = Fin 0
  /\ call_updateBKT (Fin 0.5) true
       {| pL0 := Fin 0.5; pT := Fin 0.1; pS := Fin 1; pG := Fin 0 |}
     = Returned {| pLearned_before := Fin 0.5;
                   pLearned_after := NaN;
                   upd_isMastered := false |}.
Proof.
  assert (E : pCorrect (Fin 0.5)
                {| pL0 := Fin 0.5; pT := Fin 0.1; pS := Fin 1; pG := Fin 0 |} = Fin 0).
  { unfold pCorrect. simpl. f_equal. lra. }
  split; [lra|]. split; [lra|]. split; [lra|]. split; [exact E|].
  apply (updateBKT_zero_denominator_returns_NaN 0.5 0.5 1 0 (Fin 0.1) true);
    [lra|lra|lra|exact E].
Defined.

End BKTFacts.

(** ** The session routes *)

Section Routes.
Import Engine.

Lemma existsb_questionId (qid : string) (l : list InteractionRow) :
  existsb (fun i => String.eqb (i_questionId i) qid) l = true
  <-> In qid (map i_questionId l).
Proof.
  rewrite existsb_exists, in_map_iff. split.
  - intros (i & Hi & E). apply String.eqb_eq in E. eauto.
  - intros (i & E & Hi). exists i. split; [exact Hi|]. now apply String.eqb_eq.
Qed.

Lemma sessionInteractions_In db sid i :
  In i (sessionInteractions db sid) <-> In i (interactions db) /\ i_sessionId i = sid.
Proof.
  unfold sessionInteractions. rewrite filter_In.
  split; intros [H E]; split; auto; now apply String.eqb_eq.
Qed.

Lemma truthy_true (s : string) : truthy s = true <-> s <> ""%string.
Proof.
  unfold truthy. rewrite negb_true_iff. split.
  - intros H E. subst. discriminate.
  - intros H. apply String.eqb_neq. exact H.
Qed.

(** What the answer route does to the store: either nothing, with an error
    response, or it appends one interaction to the session and updates the
    session's estimates. *)
Lemma POST_answer_effect db now newId sid req :
  (fst (POST_answer db now newId sid req) = db
   /\ exists msg st, snd (POST_answer db now newId sid req) = json_error msg st
                     /\ st <> 200%nat)
  \/ exists session question i s',
      sessions db !! sid = Some session
      /\ s_completedAt session = None
      /\ findQuestion db (questionId req) = Some question
      /\ q_quizId question = s_quizId session
      /\ ~ In (questionId req) (answeredIds db sid)
      /\ truthy (questionId req) = true
      /\ truthy (selectedAnswer req) = true
      /\ fst (POST_answer db now newId sid req)
         = {| questions := questions db;
              sessions := <[ sid := s' ]> (sessions db);
              interactions := interactions db ++ [i] |}
      /\ status (snd (POST_answer db now newId sid req)) = 200%nat
      /\ i_id i = newId
      /\ i_sessionId i = sid
      /\ i_questionId i = questionId req
      /\ i_selectedAnswer i = toUpperCase (selectedAnswer req)
      /\ i_isCorrect i
         = match correctLabel (q_options question) with
           | Some l => String.eqb (toUpperCase (selectedAnswer req)) l
           | None => false
           end
      /\ s_quizId s' = s_quizId session
      /\ s_completedAt s' = None.
Proof.
  unfold POST_answer.
  destruct (truthy (questionId req)) eqn:Tq; cbn [negb orb];
    [|left; split; [reflexivity|]; do 2 eexists; split; [reflexivity|lia]].
  destruct (truthy (selectedAnswer req)) eqn:Ts; cbn [negb orb];
    [|left; split; [reflexivity|]; do 2 eexists; split; [reflexivity|lia]].
  destruct (sessions db !! sid) as [session|] eqn:Es;
    [|left; split; [reflexivity|]; do 2 eexists; split; [reflexivity|lia]].
  destruct (s_completedAt session) as [t|] eqn:Ec;
    [left; split; [reflexivity|]; do 2 eexists; split; [reflexivity|lia]|].
  destruct (findQuestion db (questionId req)) as [question|] eqn:Eq;
    [|left; split; [reflexivity|]; do 2 eexists; split; [reflexivity|lia]].
  destruct (String.eqb (q_quizId question) (s_quizId session)) eqn:Ez; cbn [negb];
    [|left; split; [reflexivity|]; do 2 eexists; split; [reflexivity|lia]].
  destruct (existsb (fun i => String.eqb (i_questionId i) (questionId req))
                    (sessionInteractions db sid)) eqn:Ea;
    [left; split; [reflexivity|]; do 2 eexists; split; [reflexivity|lia]|].
  destruct (priorResponses db sid) as [prev|] eqn:Ep;
    [|left; split; [reflexivity|]; do 2 eexists; split; [reflexivity|lia]].
  right.
  match goal with
  | |- context [let '(_, _) := ?X in _] => destruct X as [kcs pla]
  end.
  cbn [fst snd]. do 4 eexists.
  split; [reflexivity|]. split; [exact Ec|]. split; [reflexivity|].
  split; [now apply String.eqb_eq|].
  split.
  { intros Hin. apply existsb_questionId in Hin. unfold answeredIds in *. congruence. }
  repeat (split; [reflexivity|]). reflexivity.
Qed.

(** What the next-question route does to the store: nothing, unless the
    session is active and every question of its quiz is answered; then it
    stamps [completedAt] and answers with the completed payload. *)
Lemma GET_next_question_effect db now sid :
  (fst (GET_next_question db now sid) = db
   /\ ~ is_completed_payload (snd (GET_next_question db now sid)))
  \/ exists session,
      sessions db !! sid = Some session
      /\ s_completedAt session = None
      /\ (0 < length (findQuestions db (s_quizId session))
             <= length (answeredIds db sid))%nat
      /\ GET_next_question db now sid
         = ({| questions := questions db;
               sessions :=
                 <[ sid := {| s_id := s_id session; s_userId := s_userId session;
                              s_quizId := s_quizId session;
                              s_condition := s_condition session;
                              s_startedAt := s_startedAt session;
                              s_completedAt := Some now;
                              s_theta := s_theta session;
                              s_thetaSd := s_thetaSd session;
                              s_kcStates := s_kcStates session |} ]> (sessions db);
               interactions := interactions db |},
            json_ok (CompletedBody "All questions answered — session complete"
                       (s_theta session) (length (answeredIds db sid)))).
Proof.
  unfold GET_next_question.
  destruct (sessions db !! sid) as [session|] eqn:Es; [|left; split; [reflexivity|intros []]].
  destruct (s_completedAt session) as [t|] eqn:Ec; [left; split; [reflexivity|intros []]|].
  destruct (Nat.eqb (length (findQuestions db (s_quizId session))) 0) eqn:E0;
    [left; split; [reflexivity|intros []]|].
  apply Nat.eqb_neq in E0.
  fold (answeredIds db sid).
  destruct (length (findQuestions db (s_quizId session)) <=? length (answeredIds db sid))%nat
    eqn:El.
  - right. exists session. apply Nat.leb_le in El.
    split; [reflexivity|]. split; [exact Ec|]. split; [lia|]. reflexivity.
  - left.
    match goal with
    | |- context [match ?X with Some _ => _ | None => _ end] => destruct X
    end; split; try reflexivity; intros [].
Qed.

Lemma answeredIds_app db ss i sid :
  answeredIds
    {| questions := questions db; sessions := ss;
       interactions := interactions db ++ [i] |} sid
  = answeredIds db sid
    ++ (if String.eqb (i_sessionId i) sid then [i_questionId i] else []).
Proof.
  unfold answeredIds, sessionInteractions. cbn [interactions].
  rewrite List.filter_app, map_app. cbn [List.filter].
  now destruct (String.eqb (i_sessionId i) sid).
Qed.

(** Both routes keep the table of questions. *)
Lemma run_questions now op db : questions (fst (run now op db)) = questions db.
Proof.
  destruct op as [sid|newId sid req]; cbn [run].
  - destruct (GET_next_question_effect db now sid) as [[-> _]|(s & _ & _ & _ & ->)];
      reflexivity.
  - destruct (POST_answer_effect db now newId sid req)
      as [[-> _]|(s & q & i & s' & _ & _ & _ & _ & _ & _ & _ & -> & _)]; reflexivity.
Qed.

Lemma findQuestion_ext db db' qid :
  questions db' = questions db -> findQuestion db' qid = findQuestion db qid.
Proof. unfold findQuestion. now intros ->. Qed.

(** A step changes the interactions of a session only by appending one
    answer to a question that was not yet answered in it. *)
Lemma run_answeredIds now op db sid :
  answeredIds (fst (run now op db)) sid = answeredIds db sid
  \/ exists qid, ~ In qid (answeredIds db sid)
                 /\ answeredIds (fst (run now op db)) sid = answeredIds db sid ++ [qid].
Proof.
  destruct op as [sid0|newId sid0 req]; cbn [run].
  - left. destruct (GET_next_question_effect db now sid0)
      as [[-> _]|(s & _ & _ & _ & ->)]; reflexivity.
  - destruct (POST_answer_effect db now newId sid0 req)
      as [[-> _]|(s & q & i & s' & _ & _ & _ & _ & Hn & _ & _ & -> & _ & _ & Hs & Hq & _)];
      [now left|].
    rewrite answeredIds_app, Hs, Hq. clear Hs.
    destruct (String.eqb sid0 sid) eqn:E.
    + apply String.eqb_eq in E. subst sid. right. exists (questionId req).
      split; [exact Hn|reflexivity].
    + left. now rewrite app_nil_r.
Qed.

Lemma run_no_duplicate_answers now op db :
  no_duplicate_answers db -> no_duplicate_answers (fst (run now op db)).
Proof.
  intros H sid. destruct (run_answeredIds now op db sid) as [->|(qid & Hn & ->)].
  - apply H.
  - apply NoDup_app. repeat split.
    + apply H.
    + intros x Hx Hin. apply list_elem_of_In in Hin. destruct Hin as [<-|[]].
      apply Hn. now apply list_elem_of_In.
    + apply NoDup_singleton.
Qed.

(** A step keeps every session, keeps its quiz, and leaves a completed
    session exactly as it is. *)
Lemma run_sessions_lookup now op db sid session :
  sessions db !! sid = Some session ->
  exists session',
    sessions (fst (run now op db)) !! sid = Some session'
    /\ s_quizId session' = s_quizId session
    /\ (s_completedAt session <> None -> session' = session).
Proof.
  intros Hs. destruct op as [sid0|newId sid0 req]; cbn [run].
  - destruct (GET_next_question_effect db now sid0)
      as [[-> _]|(s0 & Hs0 & Hc0 & _ & ->)]; [eauto|].
    cbn [fst sessions]. destruct (decide (sid0 = sid)) as [->|Hne].
    + rewrite lookup_insert_eq. eexists. split; [reflexivity|].
      assert (s0 = session) by congruence. subst s0.
      split; [reflexivity|]. intros Hc. congruence.
    + rewrite lookup_insert_ne by exact Hne. eauto.
  - destruct (POST_answer_effect db now newId sid0 req)
      as [[-> _]|(s0 & q & i & s' & Hs0 & Hc0 & _ & _ & _ & _ & _ & -> & _ & _ & _ & _ & _ & _ & Hz & _)];
      [eauto|].
    cbn [sessions]. destruct (decide (sid0 = sid)) as [->|Hne].
    + rewrite lookup_insert_eq. eexists. split; [reflexivity|].
      assert (s0 = session) by congruence. subst s0.
      split; [exact Hz|]. intros Hc. congruence.
    + rewrite lookup_insert_ne by exact Hne. eauto.
Qed.

Lemma run_consistent now op db : consistent db -> consistent (fst (run now op db)).
Proof.
  intros H.
  assert (Hold : forall i, In i (interactions db) ->
            exists session question,
              sessions (fst (run now op db)) !! i_sessionId i = Some session
              /\ findQuestion (fst (run now op db)) (i_questionId i) = Some question
              /\ q_quizId question = s_quizId session).
  { intros i Hi. destruct (H i Hi) as (s & q & Hs & Hq & Hz).
    destruct (run_sessions_lookup now op db _ _ Hs) as (s' & Hs' & Hz' & _).
    exists s', q. split; [exact Hs'|]. split; [|congruence].
    rewrite (findQuestion_ext db) by apply run_questions. exact Hq. }
  destruct op as [sid0|newId sid0 req].
  - intros i Hi. apply Hold. revert Hi. cbn [run].
    destruct (GET_next_question_effect db now sid0)
      as [[-> _]|(s0 & _ & _ & _ & ->)]; auto.
  - destruct (POST_answer_effect db now newId sid0 req)
      as [[E _]|(s0 & q & i0 & s' & Hs0 & Hc0 & Hq0 & Hz0 & _ & _ & _ & E & _ & _ & Hsi & Hqi & _ & _ & Hz & _)].
    + intros i Hi. apply Hold. cbn [run] in Hi. now rewrite E in Hi.
    + intros i Hi. cbn [run] in Hi |- *. rewrite E in Hi. cbn [interactions] in Hi.
      apply in_app_or in Hi. destruct Hi as [Hi|[<-|[]]].
      * apply (Hold i Hi).
      * rewrite E. cbn [sessions]. rewrite Hsi, Hqi, lookup_insert_eq.
        exists s', q. split; [reflexivity|]. split; [|congruence].
        rewrite (findQuestion_ext db) by reflexivity. exact Hq0.
Qed.

Lemma reachable_invariant db :
  reachable db -> no_duplicate_answers db /\ consistent db.
Proof.
  induction 1 as [db Hn Hc|db now op _ [IH1 IH2]].
  - now split.
  - split; [now apply run_no_duplicate_answers|now apply run_consistent].
Qed.

Lemma reachable_no_interactions db : interactions db = [] -> reachable db.
Proof.
  intros Hi. constructor.
  - intros sid. unfold answeredIds, sessionInteractions. rewrite Hi. constructor.
  - intros i Hin. rewrite Hi in Hin. destruct Hin.
Qed.

Lemma priorResponses_Some db sid :
  consistent db -> exists prev, priorResponses db sid = Some prev.
Proof.
  intros H. unfold priorResponses.
  match goal with |- exists _, ?X = _ => assert (Hs : is_Some X) end.
  { apply mapM_is_Some_2. apply List.Forall_forall. intros i Hi.
    apply sessionInteractions_In in Hi. destruct Hi as [Hi _].
    destruct (H i Hi) as (s & q & _ & Hq & _).
    unfold compose. rewrite Hq. cbn. eauto. }
  destruct Hs as [prev E]. eauto.
Qed.

Lemma fresh_db_reachable : reachable Scenario.fresh_db.
Proof. now apply reachable_no_interactions. Qed.



(** C9, as stated, fails.  On a session whose [completedAt] is set, a
    further next-question call does not return the completed payload: it
    is refused with 400 "Session already completed". *)
Lemma completed_next_counterexample :
  completed Scenario.done_db "s1"
  /\ GET_next_question Scenario.done_db 7 "s1"
     = (Scenario.done_db, json_error "Session already completed" 400)
  /\ ~ is_completed_payload (snd (GET_next_question Scenario.done_db 7 "s1")).
Proof.
  assert (E : sessions Scenario.done_db !! "s1"%string
              = Some (Scenario.session_s1 (Some 5%Z)))
    by apply lookup_singleton_eq.
  assert (G : GET_next_question Scenario.done_db 7 "s1"
              = (Scenario.done_db, json_error "Session already completed" 400)).
  { unfold GET_next_question. rewrite E. reflexivity. }
  split; [|split].
  - exists (Scenario.session_s1 (Some 5%Z)), 5%Z. split; [exact E|reflexivity].
  - exact G.
  - rewrite G. intros [].
Qed.

Lemma run_all_completed ops db sid session :
  sessions db !! sid = Some session ->
  s_completedAt session <> None ->
  sessions (run_all ops db) !! sid = Some session
  /\ sessionInteractions (run_all ops db) sid = sessionInteractions db sid.
Proof.
  revert db. induction ops as [|[now op] ops IH]; intros db Hs Hc; [now split|].
  cbn [run_all fold_left fst snd].
  destruct (run_sessions_lookup now op db sid session Hs) as (s' & Hs' & _ & Heq).
  rewrite (Heq Hc) in Hs'.
  destruct (IH _ Hs' Hc) as [IH1 IH2]. unfold run_all in IH1, IH2.
  split; [exact IH1|]. rewrite IH2.
  destruct op as [sid0|newId sid0 req]; cbn [run].
  - destruct (GET_next_question_effect db now sid0)
      as [[-> _]|(s0 & _ & _ & _ & ->)]; reflexivity.
  - destruct (POST_answer_effect db now newId sid0 req)
      as [[-> _]|(s0 & q & i & s1 & Hs0 & Hc0 & _ & _ & _ & _ & _ & -> & _ & _ & Hsi & _)];
      [reflexivity|].
    unfold sessionInteractions. cbn [interactions].
    rewrite List.filter_app. cbn [List.filter]. rewrite Hsi.
    destruct (String.eqb sid0 sid) eqn:E; [|now rewrite app_nil_r].
    apply String.eqb_eq in E. subst sid0. congruence.
Qed.

(** C9, amended.  A next-question call on an active session all of whose
    questions are answered stamps [completedAt] with the time of the call,
    changes nothing else, and returns the completed payload.  Once
    [completedAt] is set, every further next-question call is refused with
    400 "Session already completed" (it does not return the completed
    payload), every answer is refused with a 400 response, both leave the
    store as it was, and no sequence of calls, on this or on other sessions,
    changes the session row or the session's interactions: [completedAt] is
    set exactly once. *)
Theorem completed_session_is_final (db : DB) (sid : string) (session : SessionRow) :
  sessions db !! sid = Some session ->
  (s_completedAt session = None ->
   (0 < length (findQuestions db (s_quizId session))
      <= length (answeredIds db sid))%nat ->
   forall now,
     exists db',
       GET_next_question db now sid
       = (db', json_ok (CompletedBody "All questions answered — session complete"
                          (s_theta session) (length (answeredIds db sid))))
       /\ completed db' sid
       /\ sessions db'
          = <[ sid := {| s_id := s_id session; s_userId := s_userId session;
                         s_quizId := s_quizId session;
                         s_condition := s_condition session;
                         s_startedAt := s_startedAt session;
                         s_completedAt := Some now;
                         s_theta := s_theta session;
                         s_thetaSd := s_thetaSd session;
                         s_kcStates := s_kcStates session |} ]> (sessions db)
       /\ interactions db' = interactions db
       /\ questions db' = questions db)
  /\ (s_completedAt session <> None ->
      (forall now,
          GET_next_question db now sid
          = (db, json_error "Session already completed" 400))
      /\ (forall now newId req,
             exists resp,
               POST_answer db now newId sid req = (db, resp)
               /\ status resp = 400%nat
               /\ (truthy (questionId req) = true ->
                   truthy (selectedAnswer req) = true ->
                   errorKind resp = Some Conflict))
      /\ (forall ops,
             sessions (run_all ops db) !! sid = Some session
             /\ sessionInteractions (run_all ops db) sid
                = sessionInteractions db sid)).
Proof.
  intros Hs. split.
  - intros Hc [H0 Hle] now. unfold GET_next_question. rewrite Hs, Hc.
    destruct (Nat.eqb (length (findQuestions db (s_quizId session))) 0) eqn:E0;
      [apply Nat.eqb_eq in E0; lia|].
    fold (answeredIds db sid).
    apply Nat.leb_le in Hle. rewrite Hle.
    eexists. split; [reflexivity|]. cbn [sessions interactions questions].
    split; [|repeat split].
    unfold completed. do 2 eexists. cbn [sessions].
    split; [apply lookup_insert_eq|reflexivity].
  - intros Hc. destruct (s_completedAt session) as [t|] eqn:Ec; [|congruence].
    split; [|split].
    + intros now. unfold GET_next_question. now rewrite Hs, Ec.
    + intros now newId req. unfold POST_answer.
      destruct (truthy (questionId req)); cbn [negb orb];
        [|eexists; split; [reflexivity|]; split; [reflexivity|discriminate]].
      destruct (truthy (selectedAnswer req)); cbn [negb orb];
        [|eexists; split; [reflexivity|]; split; [reflexivity|discriminate]].
      rewrite Hs, Ec. eexists. split; [reflexivity|]. split; reflexivity.
    + intros ops. apply run_all_completed; [exact Hs|congruence].
Qed.

Lemma completed_session_is_final_witness :
  (exists db',
      GET_next_question Scenario.last_db 9 "s1"
      = (db', json_ok (CompletedBody "All questions answered — session complete"
                         IRT.THETA_INITIAL 1))
      /\ completed db' "s1"
      /\ interactions db' = interactions Scenario.last_db)
  /\ (forall now,
         GET_next_question Scenario.done_db now "s1"
         = (Scenario.done_db, json_error "Session already completed" 400))
  /\ (forall ops,
         sessions (run_all ops Scenario.done_db) !! "s1"%string
         = Some (Scenario.session_s1 (Some 5%Z))).
Proof.
  assert (E : sessions Scenario.done_db !! "s1"%string
              = Some (Scenario.session_s1 (Some 5%Z)))
    by apply lookup_singleton_eq.
  assert (E' : sessions Scenario.last_db !! "s1"%string
               = Some (Scenario.session_s1 None))
    by apply lookup_singleton_eq.
  assert (Hc : s_completedAt (Scenario.session_s1 (Some 5%Z)) <> None)
    by discriminate.
  assert (Hall : (0 < length (findQuestions Scenario.last_db
                                (s_quizId (Scenario.session_s1 None)))
                    <= length (answeredIds Scenario.last_db "s1"))%nat)
    by (change (0 < 1 <= 1)%nat; lia).
  destruct (completed_session_is_final Scenario.last_db "s1" _ E') as [Hactive _].
  destruct (Hactive eq_refl Hall 9%Z) as (db' & Hget & Hdone & _ & Hint & _).
  destruct (completed_session_is_final Scenario.done_db "s1" _ E) as [_ H].
  destruct (H Hc) as (H1 & _ & H3).
  split; [|split].
  - exists db'. split; [exact Hget|]. split; [exact Hdone|exact Hint].
  - exact H1.
  - intros ops. apply H3.
Defined.

(** C1.  On the seeded five-item UK-Geography bank, with
    [theta = -0.780], nothing answered and no Bloom filter, the selector
    returns [q-002], and [q-002] carries the largest information of the
    bank at that ability.  Accordingly the next-question route, on a fresh
    adaptive session over the seeded store, serves [q-002] and leaves the
    store as it was. *)
Theorem seed_first_pick_q002 :
  IRT.selectNextQuestion Scenario.seed_bank Scenario.first_pick
  = Some Scenario.q002
  /\ IRT.id Scenario.q002 = "q-002"%string
  /\ Forall (fun q : IRT.IRTQuestion =>
               IRT.itemInformation (-0.780) (IRT.irt q)
               <= IRT.itemInformation (-0.780) (IRT.irt Scenario.q002))
            Scenario.seed_bank
  /\ forall now,
      exists meta,
        GET_next_question Scenario.fresh_db now "s1"
        = (Scenario.fresh_db,
           json_ok (QuestionBody "q-002" (IRT.text Scenario.q002)
                      (IRT.options Scenario.q002) 1 "UK_capitals" meta))
        /\ questionsAnswered meta = 0%nat
        /\ questionsRemaining meta = 5%nat
        /\ currentTheta meta = -0.780.
Proof.
  destruct seed_bank_first_pick as (Hsel & Hid & Hmax).
  split; [exact Hsel|]. split; [exact Hid|]. split; [exact Hmax|].
  intros now. unfold GET_next_question.
  assert (E : sessions Scenario.fresh_db !! "s1"%string
              = Some (Scenario.session_s1 None))
    by apply lookup_singleton_eq.
  rewrite E.
  change (s_completedAt (Scenario.session_s1 None)) with (@None Z). cbv iota.
  change (findQuestions Scenario.fresh_db (s_quizId (Scenario.session_s1 None)))
    with questionsData.
  change (sessionInteractions Scenario.fresh_db "s1") with (@nil InteractionRow).
  change (length questionsData) with 5%nat.
  cbn [map length Nat.eqb Nat.leb].
  change (String.eqb (s_condition (Scenario.session_s1 None)) "adaptive") with true.
  cbv iota.
  change (IRT.selectNextQuestion (map toIRTQuestion questionsData) _)
    with (IRT.selectNextQuestion Scenario.seed_bank Scenario.first_pick).
  rewrite Hsel. eexists. split; [reflexivity|]. repeat split.
Qed.

Example toUpperCase_c : toUpperCase "c" = "C"%string.
Proof. reflexivity. Qed.

Example toUpperCase_outside : toUpperCase "e" = "E"%string.
Proof. reflexivity. Qed.

Example toUpperCase_words : toUpperCase "b) Newport!" = "B) NEWPORT!"%string.
Proof. reflexivity. Qed.

(** C10.  The answer route does not check [selectedAnswer] against the
    labels A-D.  In every reachable store, for an active session, a
    question of the session's quiz that is not yet answered in it, and any
    non-empty [selectedAnswer], the call succeeds with status 200 and
    appends exactly one interaction, which stores the upper-cased string and
    is marked correct exactly when that upper-cased string is the correct
    label; every other string, inside or outside A-D, is recorded as an
    incorrect answer. *)
Theorem answer_label_not_validated
    (db : DB) (now : Z) (newId sid : string) (req : AnswerRequest)
    (session : SessionRow) (question : QuestionRow) :
  reachable db ->
  sessions db !! sid = Some session ->
  s_completedAt session = None ->
  findQuestion db (questionId req) = Some question ->
  q_quizId question = s_quizId session ->
  ~ In (questionId req) (answeredIds db sid) ->
  questionId req <> ""%string ->
  selectedAnswer req <> ""%string ->
  exists db' resp i,
    POST_answer db now newId sid req = (db', resp)
    /\ status resp = 200%nat
    /\ interactions db' = interactions db ++ [i]
    /\ i_sessionId i = sid
    /\ i_questionId i = questionId req
    /\ i_selectedAnswer i = toUpperCase (selectedAnswer req)
    /\ (i_isCorrect i = true
        <-> correctLabel (q_options question)
            = Some (toUpperCase (selectedAnswer req))).
Proof.
  intros Hr Es Ec Eq Ez Hn Hq Hsel.
  destruct (reachable_invariant db Hr) as [_ Hc].
  destruct (priorResponses_Some db sid Hc) as [prev Ep].
  apply truthy_true in Hq. apply truthy_true in Hsel.
  assert (Hex : existsb (fun i => String.eqb (i_questionId i) (questionId req))
                        (sessionInteractions db sid) = false).
  { apply not_true_is_false. intros H. apply Hn. now apply existsb_questionId. }
  unfold POST_answer. rewrite Hq, Hsel. cbn [negb orb].
  rewrite Es, Ec, Eq, Ez, String.eqb_refl. cbn [negb]. rewrite Hex, Ep.
  match goal with
  | |- context [let '(_, _) := ?X in _] => destruct X as [kcs pla]
  end.
  do 3 eexists. split; [reflexivity|].
  cbn [status json_ok interactions i_sessionId i_questionId i_selectedAnswer i_isCorrect].
  repeat (split; [reflexivity|]).
  destruct (correctLabel (q_options question)) as [l|].
  - split.
    + intros H. apply String.eqb_eq in H. now subst.
    + intros [= ->]. apply String.eqb_refl.
  - split; discriminate.
Qed.

Lemma answer_label_not_validated_witness :
  exists db' resp i,
    POST_answer Scenario.fresh_db 1 "i1" "s1" Scenario.answer_E = (db', resp)
    /\ status resp = 200%nat
    /\ interactions db' = interactions Scenario.fresh_db ++ [i]
    /\ i_sessionId i = "s1"%string
    /\ i_questionId i = "q-002"%string
    /\ i_selectedAnswer i = "E"%string
    /\ (i_isCorrect i = true
        <-> Some "C"%string = Some "E"%string).
Proof.
  refine (answer_label_not_validated Scenario.fresh_db 1 "i1" "s1"
            Scenario.answer_E (Scenario.session_s1 None)
            (nth 1 questionsData (mkQuestionRow "" "" 0 0 0 0 0 "" "" []))
            fresh_db_reachable _ _ _ _ _ _ _).
  - apply lookup_singleton_eq.
  - reflexivity.
  - reflexivity.
  - reflexivity.
  - intros [].
  - discriminate.
  - discriminate.
Defined.

End Routes.

(** ** The grid EAP estimator *)

Section EAPFacts.
Import IRT.

Lemma fold_left_Rsum {A : Type} (f : A -> R) (l : list A) (acc : R) :
  fold_left (fun x y => x + f y) l acc = acc + Rsum (map f l).
Proof.
  revert acc. induction l as [|x l IH]; intros acc; simpl.
  - lra.
  - rewrite IH. lra.
Qed.

Lemma sum_list_Rsum (l : list R) : sum_list l = Rsum l.
Proof.
  unfold sum_list.
  assert (H : forall acc, fold_left Rplus l acc = acc + Rsum l).
  { induction l as [|x l IH]; intros acc; simpl; [lra|]. rewrite IH. lra. }
  rewrite H. lra.
Qed.

Lemma Rsum_cons (x : R) (l : list R) : Rsum (x :: l) = x + Rsum l.
Proof. reflexivity. Qed.

Lemma Rsum_app (l1 l2 : list R) : Rsum (l1 ++ l2) = Rsum l1 + Rsum l2.
Proof. induction l1 as [|x l1 IH]; simpl; [lra|rewrite IH; lra]. Qed.

Lemma Rsum_scale {A : Type} (f : A -> R) (k : R) (l : list A) :
  Rsum (map (fun x => f x * k) l) = Rsum (map f l) * k.
Proof. induction l as [|x l IH]; simpl; [lra|rewrite IH; lra]. Qed.

Lemma Rsum_plus {A : Type} (f g : A -> R) (l : list A) :
  Rsum (map (fun x => f x + g x) l) = Rsum (map f l) + Rsum (map g l).
Proof. induction l as [|x l IH]; simpl; [lra|rewrite IH; lra]. Qed.

Lemma Rsum_ext_in {A : Type} (f g : A -> R) (l : list A) :
  (forall x, In x l -> f x = g x) -> Rsum (map f l) = Rsum (map g l).
Proof. intros H. f_equal. now apply map_ext_in. Qed.

Lemma Rsum_le {A : Type} (f g : A -> R) (l : list A) :
  (forall x, In x l -> f x <= g x) -> Rsum (map f l) <= Rsum (map g l).
Proof.
  induction l as [|x l IH]; intros H; simpl; [lra|].
  pose proof (H x (or_introl eq_refl)).
  assert (Rsum (map f l) <= Rsum (map g l)) by (apply IH; intros; apply H; now right).
  lra.
Qed.

Lemma Rsum_nonneg {A : Type} (f : A -> R) (l : list A) :
  (forall x, In x l -> 0 <= f x) -> 0 <= Rsum (map f l).
Proof.
  intros H. induction l as [|x l IH]; simpl; [lra|].
  pose proof (H x (or_introl eq_refl)).
  assert (0 <= Rsum (map f l)) by (apply IH; intros; apply H; now right). lra.
Qed.

Lemma Rsum_pos {A : Type} (f : A -> R) (l : list A) :
  l <> [] -> (forall x, In x l -> 0 < f x) -> 0 < Rsum (map f l).
Proof.
  intros Hne H. destruct l as [|x l]; [congruence|]. simpl.
  pose proof (H x (or_introl eq_refl)).
  assert (0 <= Rsum (map f l))
    by (apply Rsum_nonneg; intros y Hy; left; apply H; now right).
  lra.
Qed.

Lemma combine_map {A B C : Type} (f : A -> B) (g : A -> C) (l : list A) :
  combine (map f l) (map g l) = map (fun x => (f x, g x)) l.
Proof. induction l as [|x l IH]; simpl; [reflexivity|now rewrite IH]. Qed.

(** *** The grid *)

Lemma INR_THETA_STEPS : INR THETA_STEPS = 161.
Proof. unfold THETA_STEPS. rewrite INR_IZR_INZ. reflexivity. Qed.

Lemma step_eq : step = 0.05.
Proof. unfold step, THETA_MAX, THETA_MIN. rewrite INR_THETA_STEPS. lra. Qed.

Lemma grid_eq : grid = map gridpoint (seq 0 THETA_STEPS).
Proof. reflexivity. Qed.

Lemma gridpoint_eq (i : nat) : gridpoint i = -4 + INR i * 0.05.
Proof. unfold gridpoint, THETA_MIN. now rewrite step_eq. Qed.

Lemma gridpoint_range (i : nat) :
  In i (seq 0 THETA_STEPS) -> -4 <= gridpoint i <= 4.
Proof.
  intros Hi. apply in_seq in Hi. rewrite gridpoint_eq.
  assert (H0 : 0 <= INR i) by apply pos_INR.
  assert (H1 : INR i <= 160).
  { replace 160 with (INR 160) by (rewrite INR_IZR_INZ; reflexivity).
    apply le_INR. unfold THETA_STEPS in Hi. lia. }
  lra.
Qed.

Lemma gridpoint_mono (i j : nat) : (i <= j)%nat -> gridpoint i <= gridpoint j.
Proof.
  intros H. rewrite !gridpoint_eq. apply le_INR in H. lra.
Qed.

(** *** The posterior *)

Lemma likelihood_eq responses priorMean priorSd :
  likelihood responses priorMean priorSd
  = map (weight responses priorMean priorSd) (seq 0 THETA_STEPS).
Proof.
  unfold likelihood, prior. rewrite grid_eq, map_map, combine_map, map_map.
  reflexivity.
Qed.

Lemma zipped_eq responses priorMean priorSd :
  zipped responses priorMean priorSd
  = map (fun i => (gridpoint i,
                   weight responses priorMean priorSd i
                   / sum_list (likelihood responses priorMean priorSd)))
        (seq 0 THETA_STEPS).
Proof.
  unfold zipped.
  set (total := sum_list (likelihood responses priorMean priorSd)).
  rewrite likelihood_eq, map_map, grid_eq. apply combine_map.
Qed.

Lemma likelihood_step_pos t acc r :
  0 <= c (params r) < 1 -> 0 < acc -> 0 < likelihood_step t acc r.
Proof.
  intros Hc Hacc. unfold likelihood_step. cbv zeta.
  pose proof (p3PL_gt_c t (params r) (proj2 Hc)).
  pose proof (p3PL_lt_1 t (params r) (proj2 Hc)).
  apply Rmult_lt_0_compat; [exact Hacc|]. destruct (isCorrect r); lra.
Qed.

Lemma weight_pos responses priorMean priorSd i :
  Forall (fun r => valid_params (params r)) responses ->
  0 < weight responses priorMean priorSd i.
Proof.
  intros Hv. unfold weight.
  generalize (exp_pos (- 0.5 * ((gridpoint i - priorMean) / priorSd) ^ 2)).
  generalize (exp (- 0.5 * ((gridpoint i - priorMean) / priorSd) ^ 2)).
  induction Hv as [|r rs [_ Hr] _ IH]; intros acc Hacc; simpl; [exact Hacc|].
  apply IH. now apply likelihood_step_pos.
Qed.

Lemma sum_likelihood_pos responses priorMean priorSd :
  Forall (fun r => valid_params (params r)) responses ->
  0 < sum_list (likelihood responses priorMean priorSd).
Proof.
  intros Hv. rewrite sum_list_Rsum, likelihood_eq.
  apply Rsum_pos; [discriminate|]. intros i _. now apply weight_pos.
Qed.

(** The fields of the result, over the zipped posterior. *)
Lemma eapEstimate_theta responses priorMean priorSd :
  theta (eapEstimate responses priorMean priorSd)
  = Rsum (map (fun tp => fst tp * snd tp) (zipped responses priorMean priorSd)).
Proof.
  unfold eapEstimate. cbn [theta]. fold (zipped responses priorMean priorSd).
  rewrite (fold_left_Rsum (fun tp => fst tp * snd tp)). lra.
Qed.

Lemma eapEstimate_sd responses priorMean priorSd :
  sd (eapEstimate responses priorMean priorSd)
  = sqrt (Rsum (map (fun tp => (fst tp - theta (eapEstimate responses priorMean priorSd)) ^ 2
                               * snd tp)
                    (zipped responses priorMean priorSd))).
Proof.
  unfold eapEstimate. cbn [sd theta]. fold (zipped responses priorMean priorSd).
  rewrite (fold_left_Rsum
             (fun tp => (fst tp - fold_left (fun acc tp0 => acc + fst tp0 * snd tp0)
                                            (zipped responses priorMean priorSd) 0) ^ 2
                        * snd tp)).
  f_equal. lra.
Qed.

Lemma eapEstimate_ci95Low responses priorMean priorSd :
  ci95Low (eapEstimate responses priorMean priorSd)
  = fst (ci_loop (zipped responses priorMean priorSd) 0 THETA_MIN THETA_MAX).
Proof. reflexivity. Qed.

Lemma eapEstimate_ci95High responses priorMean priorSd :
  ci95High (eapEstimate responses priorMean priorSd)
  = snd (ci_loop (zipped responses priorMean priorSd) 0 THETA_MIN THETA_MAX).
Proof. reflexivity. Qed.

End EAPFacts.

(** ** The credible-interval loop *)

Section CILoop.
Import IRT.

Lemma geb_true (x y : R) : geb x y = true <-> y <= x.
Proof. unfold geb. destruct (Rle_dec y x); split; auto; discriminate. Qed.

Lemma geb_false (x y : R) : geb x y = false <-> x < y.
Proof.
  unfold geb. destruct (Rle_dec y x); split; auto; try discriminate; lra.
Qed.

Lemma eqb_true (x y : R) : eqb x y = true <-> x = y.
Proof. unfold eqb. destruct (Req_dec_T x y); split; auto; discriminate. Qed.

Lemma eqb_refl (x : R) : eqb x x = true.
Proof. now apply eqb_true. Qed.

Lemma eqb_false (x y : R) : eqb x y = false <-> x <> y.
Proof.
  unfold eqb. destruct (Req_dec_T x y); split; auto; try discriminate; contradiction.
Qed.

Lemma ci_loop_cons (t w : R) (rest : list (R * R)) (cum lo hi : R) :
  ci_loop ((t, w) :: rest) cum lo hi
  = if geb (cum + w) 0.975 && eqb hi THETA_MAX
    then (if geb (cum + w) 0.025 && eqb lo THETA_MIN then t else lo, t)
    else ci_loop rest (cum + w)
           (if geb (cum + w) 0.025 && eqb lo THETA_MIN then t else lo) hi.
Proof. reflexivity. Qed.

(** Once [ci95Low] has left [THETA_MIN] it is never assigned again. *)
Lemma ci_lo_fixed (items : list (R * R)) (cum lo hi : R) :
  lo <> THETA_MIN -> fst (ci_loop items cum lo hi) = lo.
Proof.
  intros Hlo. revert cum. induction items as [|[t w] items IH]; intros cum; simpl.
  - reflexivity.
  - apply eqb_false in Hlo. rewrite Hlo, andb_false_r.
    destruct (geb (cum + w) 0.975 && eqb hi THETA_MAX); [reflexivity|apply IH].
Qed.

(** The zipped list as a function of the index: grid values [g], weights
    [p]. *)
Variables g p : nat -> R.

Hypothesis g_mono : forall i j, (i <= j)%nat -> g i <= g j.

Lemma tail_mass_le (a n : nat) (top : R) :
  (forall i, (a <= i < a + n)%nat -> 0 <= p i /\ g i <= top) ->
  Rsum (map (fun i => g i * p i) (seq a n)) <= top * Rsum (map p (seq a n)).
Proof.
  revert a. induction n as [|n IH]; intros a H; simpl; [lra|].
  destruct (H a ltac:(lia)) as [Hp Hg].
  assert (Rsum (map (fun i => g i * p i) (seq (S a) n))
          <= top * Rsum (map p (seq (S a) n)))
    by (apply IH; intros i Hi; apply H; lia).
  assert (g a * p a <= top * p a) by (apply Rmult_le_compat_r; lra).
  lra.
Qed.

Lemma tail_mass_ge (a n : nat) (bot : R) :
  (forall i, (a <= i < a + n)%nat -> 0 <= p i /\ bot <= g i) ->
  bot * Rsum (map p (seq a n)) <= Rsum (map (fun i => g i * p i) (seq a n)).
Proof.
  revert a. induction n as [|n IH]; intros a H; simpl; [lra|].
  destruct (H a ltac:(lia)) as [Hp Hg].
  assert (bot * Rsum (map p (seq (S a) n))
          <= Rsum (map (fun i => g i * p i) (seq (S a) n)))
    by (apply IH; intros i Hi; apply H; lia).
  assert (bot * p a <= g a * p a) by (apply Rmult_le_compat_r; lra).
  lra.
Qed.

(** The upper end: the mean exceeds [ci95High] by at most 2.5% of the grid
    width. *)
Lemma ci_hi_bound (n : nat) : forall (a : nat) (cum lo acc : R),
  (forall i, (a <= i < a + n)%nat -> 0 <= p i /\ -4 <= g i <= 4) ->
  0 <= cum < 0.975 ->
  cum + Rsum (map p (seq a n)) = 1 ->
  (forall i, (a <= i < a + n)%nat -> acc <= g i * cum) ->
  acc + Rsum (map (fun i => g i * p i) (seq a n))
  <= snd (ci_loop (items g p a n) cum lo THETA_MAX) + 0.2.
Proof.
  induction n as [|n IH]; intros a cum lo acc Hr Hc Hs Hacc.
  - simpl in Hs. lra.
  - unfold items in *. cbn [seq map ci_loop] in *. rewrite !Rsum_cons in *.
    destruct (Hr a ltac:(lia)) as [Hp [Hg1 Hg2]].
    rewrite eqb_refl, andb_true_r.
    destruct (geb (cum + p a) 0.975) eqn:E.
    + apply geb_true in E. cbn [snd].
      assert (T : Rsum (map (fun i => g i * p i) (seq (S a) n))
                  <= 4 * Rsum (map p (seq (S a) n))).
      { apply tail_mass_le. intros i Hi. destruct (Hr i ltac:(lia)). split; lra. }
      pose proof (Hacc a ltac:(lia)) as Ha.
      set (rest := Rsum (map p (seq (S a) n))) in *.
      assert (rest <= 0.025) by lra.
      assert (0 <= (4 - g a) * (0.025 - rest)) by (apply Rmult_le_pos; lra).
      nra.
    + apply geb_false in E.
      replace (acc + (g a * p a + Rsum (map (fun i => g i * p i) (seq (S a) n))))
        with ((acc + g a * p a) + Rsum (map (fun i => g i * p i) (seq (S a) n)))
        by ring.
      apply IH.
      * intros i Hi. apply Hr. lia.
      * lra.
      * lra.
      * intros i Hi. pose proof (Hacc a ltac:(lia)) as Ha.
        pose proof (g_mono a i ltac:(lia)) as Hm.
        assert (g a * (cum + p a) <= g i * (cum + p a))
          by (apply Rmult_le_compat_r; lra).
        lra.
Qed.

(** The lower end, while [ci95Low] is still unset and the cumulative mass is
    below 2.5%. *)
Lemma ci_lo_bound (n : nat) : forall (a : nat) (cum acc : R),
  (forall i, (a <= i < a + n)%nat -> 0 <= p i /\ -4 < g i <= 4) ->
  0 <= cum < 0.025 ->
  cum + Rsum (map p (seq a n)) = 1 ->
  -4 * cum <= acc ->
  fst (ci_loop (items g p a n) cum THETA_MIN THETA_MAX) - 0.2
  <= acc + Rsum (map (fun i => g i * p i) (seq a n)).
Proof.
  induction n as [|n IH]; intros a cum acc Hr Hc Hs Hacc.
  - simpl in *. lra.
  - unfold items in *. cbn [seq map ci_loop] in *. rewrite !Rsum_cons in *.
    destruct (Hr a ltac:(lia)) as [Hp [Hg1 Hg2]].
    rewrite !eqb_refl, !andb_true_r.
    destruct (geb (cum + p a) 0.025) eqn:E.
    + assert (Hlo : (if geb (cum + p a) 0.975
                     then (g a, g a)
                     else ci_loop (map (fun i => (g i, p i)) (seq (S a) n))
                                  (cum + p a) (g a) THETA_MAX).1 = g a).
      { destruct (geb (cum + p a) 0.975); [reflexivity|].
        apply ci_lo_fixed. unfold THETA_MIN. lra. }
      rewrite Hlo.
      assert (T : g a * Rsum (map p (seq (S a) n))
                  <= Rsum (map (fun i => g i * p i) (seq (S a) n))).
      { apply tail_mass_ge. intros i Hi. destruct (Hr i ltac:(lia)).
        split; [lra|]. apply g_mono. lia. }
      set (rest := Rsum (map p (seq (S a) n))) in *.
      assert (0 <= (g a + 4) * cum) by (apply Rmult_le_pos; lra).
      assert ((g a + 4) * cum <= 8 * 0.025) by (apply Rmult_le_compat; lra).
      nra.
    + apply geb_false in E.
      assert (E' : geb (cum + p a) 0.975 = false) by (apply geb_false; lra).
      rewrite E'.
      replace (acc + (g a * p a + Rsum (map (fun i => g i * p i) (seq (S a) n))))
        with ((acc + g a * p a) + Rsum (map (fun i => g i * p i) (seq (S a) n)))
        by ring.
      apply IH.
      * intros i Hi. apply Hr. lia.
      * lra.
      * lra.
      * assert (-4 * p a <= g a * p a) by (apply Rmult_le_compat_r; lra). lra.
Qed.

(** The lower end when the first grid point alone already carries 2.5%:
    [ci95Low] is still equal to [THETA_MIN] after it, so the next iteration
    assigns it again. *)
Lemma ci_lo_reassigned (a n : nat) (cum hi : R) :
  g a <> THETA_MIN -> 0 <= p a -> 0.025 <= cum ->
  fst (ci_loop (items g p a (S n)) cum THETA_MIN hi) = g a.
Proof.
  intros Hg Hp Hc. unfold items. cbn [seq map ci_loop].
  assert (E : geb (cum + p a) 0.025 = true) by (apply geb_true; lra).
  rewrite E, eqb_refl. cbn [andb].
  destruct (geb (cum + p a) 0.975 && eqb hi THETA_MAX); [reflexivity|].
  now apply ci_lo_fixed.
Qed.

End CILoop.

(** ** The estimate and its interval *)

Section EAPInterval.
Import IRT.

Variable responses : list Response.
Variables priorMean priorSd : R.
Hypothesis responses_valid : Forall (fun r => valid_params (params r)) responses.

Local Abbreviation post := (posterior_at responses priorMean priorSd).

Lemma zipped_items :
  zipped responses priorMean priorSd = items gridpoint post 0 THETA_STEPS.
Proof. apply zipped_eq. Qed.

Lemma post_pos (i : nat) : 0 < post i.
Proof.
  unfold posterior_at. apply Rdiv_lt_0_compat.
  - now apply weight_pos.
  - now apply sum_likelihood_pos.
Qed.

Lemma post_total : Rsum (map post (seq 0 THETA_STEPS)) = 1.
Proof.
  unfold posterior_at, Rdiv.
  rewrite (Rsum_scale (weight responses priorMean priorSd)).
  rewrite <- likelihood_eq, <- sum_list_Rsum.
  apply Rinv_r. pose proof (sum_likelihood_pos _ priorMean priorSd responses_valid). lra.
Qed.

Lemma theta_as_sum :
  theta (eapEstimate responses priorMean priorSd)
  = Rsum (map (fun i => gridpoint i * post i) (seq 0 THETA_STEPS)).
Proof.
  rewrite eapEstimate_theta, zipped_items. unfold items. now rewrite map_map.
Qed.

Lemma grid_hyp (a n : nat) :
  (a + n <= THETA_STEPS)%nat ->
  forall i, (a <= i < a + n)%nat -> 0 <= post i /\ -4 <= gridpoint i <= 4.
Proof.
  intros Hn i Hi. split; [left; apply post_pos|].
  apply gridpoint_range. apply in_seq. lia.
Qed.

(** The estimate is a mean of grid points. *)
Lemma theta_in_grid : -4 <= theta (eapEstimate responses priorMean priorSd) <= 4.
Proof.
  rewrite theta_as_sum. split.
  - pose proof (tail_mass_ge gridpoint post 0 THETA_STEPS (-4)) as H.
    rewrite post_total in H. rewrite <- (Rmult_1_r (-4)). apply H.
    intros i Hi. destruct (grid_hyp 0 THETA_STEPS (le_n _) i Hi). split; lra.
  - pose proof (tail_mass_le gridpoint post 0 THETA_STEPS 4) as H.
    rewrite post_total in H. rewrite <- (Rmult_1_r 4). apply H.
    intros i Hi. destruct (grid_hyp 0 THETA_STEPS (le_n _) i Hi). split; lra.
Qed.

Lemma theta_le_hi :
  theta (eapEstimate responses priorMean priorSd)
  <= ci95High (eapEstimate responses priorMean priorSd) + 0.2.
Proof.
  pose proof (eapEstimate_ci95High responses priorMean priorSd) as Hci.
  assert (H1 : forall i, (0 <= i < 0 + THETA_STEPS)%nat ->
                         0 <= post i /\ -4 <= gridpoint i <= 4)
    by (apply grid_hyp; lia).
  assert (H2 : 0 <= 0 < 0.975) by lra.
  assert (H3 : 0 + Rsum (map post (seq 0 THETA_STEPS)) = 1)
    by (rewrite post_total; lra).
  assert (H4 : forall i, (0 <= i < 0 + THETA_STEPS)%nat -> 0 <= gridpoint i * 0)
    by (intros i _; lra).
  pose proof (ci_hi_bound gridpoint post gridpoint_mono THETA_STEPS 0%nat 0
                          THETA_MIN 0 H1 H2 H3 H4) as H.
  rewrite <- zipped_items, <- theta_as_sum, <- Hci in H. lra.
Qed.

Lemma lo_le_theta :
  ci95Low (eapEstimate responses priorMean priorSd) - 0.2
  <= theta (eapEstimate responses priorMean priorSd).
Proof.
  rewrite eapEstimate_ci95Low, zipped_items.
  pose proof theta_in_grid as [Hlow _].
  pose proof post_total as Ht.
  assert (Hth := theta_as_sum).
  assert (Hseq : seq 0 THETA_STEPS = 0%nat :: seq 1 160) by reflexivity.
  rewrite Hseq in Ht, Hth. rewrite map_cons, Rsum_cons in Ht, Hth.
  unfold items. rewrite Hseq, map_cons, ci_loop_cons.
  assert (G0 : gridpoint 0 = -4) by (rewrite gridpoint_eq; simpl; lra).
  assert (G1 : gridpoint 1 = -3.95) by (rewrite gridpoint_eq; simpl; lra).
  pose proof (post_pos 0%nat) as P0.
  rewrite !eqb_refl, !andb_true_r, Rplus_0_l.
  destruct (geb (post 0%nat) 0.975) eqn:E975.
  - cbn [fst]. destruct (geb (post 0%nat) 0.025); rewrite ?G0; unfold THETA_MIN; lra.
  - apply geb_false in E975.
    destruct (geb (post 0%nat) 0.025) eqn:E025.
    + apply geb_true in E025. rewrite G0.
      change (-4) with THETA_MIN at 1.
      change (map (fun i => (gridpoint i, post i)) (seq 1 160))
        with (items gridpoint post 1 (S 159)).
      rewrite ci_lo_reassigned.
      * lra.
      * rewrite G1. unfold THETA_MIN. lra.
      * left. apply post_pos.
      * exact E025.
    + apply geb_false in E025.
      rewrite Hth.
      apply (ci_lo_bound gridpoint post gridpoint_mono 160 1 (post 0%nat)
                         (gridpoint 0 * post 0%nat)).
      * intros i Hi. split; [left; apply post_pos|].
        assert (Hin : In i (seq 0 THETA_STEPS)) by (apply in_seq; unfold THETA_STEPS; lia).
        pose proof (gridpoint_range i Hin) as [_ Hup].
        pose proof (gridpoint_mono 1 i ltac:(lia)). lra.
      * lra.
      * lra.
      * rewrite G0. lra.
Qed.

End EAPInterval.

Section EAPIntervalTheorem.
Import IRT.


End EAPIntervalTheorem.

(** ** A posterior whose mean leaves the credible interval *)

Section SkewedPosterior.
Import IRT Scenario.

Lemma p3PL_upper th (q : IRTParams) (low : R) :
  c q < 1 -> 0 <= low <= expo th q ->
  p3PL th q <= c q + (1 - c q) / (1 + low).
Proof.
  intros Hc [H0 Hl]. pose proof (p3PL_minus_c th q) as E.
  assert ((1 - c q) / (1 + expo th q) <= (1 - c q) / (1 + low)).
  { unfold Rdiv. apply Rmult_le_compat_l; [lra|].
    apply Rinv_le_contravar; lra. }
  lra.
Qed.

Lemma p3PL_lower th (q : IRTParams) (up : R) :
  c q < 1 -> expo th q <= up ->
  c q + (1 - c q) / (1 + up) <= p3PL th q.
Proof.
  intros Hc Hu. pose proof (p3PL_minus_c th q) as E.
  pose proof (expo_pos th q) as He.
  assert ((1 - c q) / (1 + up) <= (1 - c q) / (1 + expo th q)).
  { unfold Rdiv. apply Rmult_le_compat_l; [lra|].
    apply Rinv_le_contravar; lra. }
  lra.
Qed.

Lemma exp_neg_le_inv (x : R) : 0 <= x -> exp (- x) <= / (1 + x).
Proof.
  intros H. rewrite exp_Ropp. apply Rinv_le_contravar; [lra|].
  apply exp_ineq1_le.
Qed.

Local Abbreviation w := skew_weight.
Local Abbreviation total := skew_total.
Local Abbreviation post := skew_post.

Lemma skew_weight_eq (i : nat) :
  w i = exp (- 0.5 * ((gridpoint i - 0) / 1000) ^ 2) * p3PL (gridpoint i) skew_item.
Proof. reflexivity. Qed.

Lemma skew_prior_bounds (i : nat) :
  In i (seq 0 THETA_STEPS) ->
  0.999992 <= exp (- 0.5 * ((gridpoint i - 0) / 1000) ^ 2) <= 1.
Proof.
  intros Hi. pose proof (gridpoint_range i Hi) as [Hl Hu].
  set (t := gridpoint i) in *.
  assert (Hsq : 0 <= t ^ 2 <= 16) by nra.
  assert (Hx : - 0.000008 <= - 0.5 * ((t - 0) / 1000) ^ 2 <= 0).
  { replace (- 0.5 * ((t - 0) / 1000) ^ 2) with (- (t ^ 2) / 2000000) by lra.
    lra. }
  split.
  - pose proof (exp_ineq1_le (- 0.5 * ((t - 0) / 1000) ^ 2)). lra.
  - destruct (proj2 Hx) as [Hlt|Heq].
    + left. now apply exp_neg_lt_1.
    + rewrite Heq, exp_0. lra.
Qed.

Lemma skew_expo_below (i : nat) :
  (i < 160)%nat -> 425001 <= expo (gridpoint i) skew_item.
Proof.
  intros Hi. unfold expo, skew_item. cbn [a b c].
  assert (Hg : gridpoint i <= 3.95).
  { rewrite gridpoint_eq.
    assert (INR i <= 159).
    { replace 159 with (INR 159) by (rewrite INR_IZR_INZ; reflexivity).
      apply le_INR. lia. }
    lra. }
  pose proof (exp_ineq1_le (- D * 10000000 * (gridpoint i - 3.975))) as H.
  unfold D in *. lra.
Qed.

Lemma skew_expo_top : expo (gridpoint 160) skew_item <= / 425001.
Proof.
  unfold expo, skew_item. cbn [a b c].
  assert (G : gridpoint 160 = 4).
  { rewrite gridpoint_eq.
    replace (INR 160) with 160 by (rewrite INR_IZR_INZ; reflexivity). lra. }
  rewrite G.
  replace (- D * 10000000 * (4 - 3.975)) with (- 425000) by (unfold D; lra).
  replace 425001 with (1 + 425000) by lra.
  apply exp_neg_le_inv. lra.
Qed.

Lemma skew_weight_below (i : nat) :
  (i < 160)%nat -> 0.000099999 <= w i <= 0.0001024.
Proof.
  intros Hi. rewrite skew_weight_eq.
  assert (Hin : In i (seq 0 THETA_STEPS)) by (apply in_seq; unfold THETA_STEPS; lia).
  pose proof (skew_prior_bounds i Hin) as [Pl Pu].
  pose proof (skew_expo_below i Hi) as He.
  assert (Hc : c skew_item < 1) by (simpl; lra).
  pose proof (p3PL_gt_c (gridpoint i) skew_item Hc) as Hlow.
  pose proof (p3PL_upper (gridpoint i) skew_item 425001 Hc ltac:(lra)) as Hup.
  cbn [c skew_item] in Hlow, Hup.
  set (pr := exp (- 0.5 * ((gridpoint i - 0) / 1000) ^ 2)) in *.
  set (p := p3PL (gridpoint i) skew_item) in *.
  assert (Hup' : p <= 0.0001024) by lra.
  split.
  - assert (0.999992 * 0.0001 <= pr * p) by (apply Rmult_le_compat; lra). lra.
  - assert (pr * p <= 1 * 0.0001024) by (apply Rmult_le_compat; lra). lra.
Qed.

Lemma skew_weight_top : 0.99998 <= w 160 <= 1.
Proof.
  rewrite skew_weight_eq.
  assert (Hin : In 160%nat (seq 0 THETA_STEPS)) by (apply in_seq; unfold THETA_STEPS; lia).
  pose proof (skew_prior_bounds 160 Hin) as [Pl Pu].
  assert (Hc : c skew_item < 1) by (simpl; lra).
  pose proof (p3PL_lt_1 (gridpoint 160) skew_item Hc) as Hup.
  pose proof (p3PL_lower (gridpoint 160) skew_item (/ 425001) Hc skew_expo_top) as Hlow.
  cbn [c skew_item] in Hlow.
  set (pr := exp (- 0.5 * ((gridpoint 160 - 0) / 1000) ^ 2)) in *.
  set (p := p3PL (gridpoint 160) skew_item) in *.
  assert (Hlow' : 0.99999 <= p).
  { assert (0.0001 + (1 - 0.0001) / (1 + / 425001) >= 0.99999); [|lra].
    assert (E : / (1 + / 425001) = 425001 / 425002).
    { apply Rmult_eq_reg_l with (1 + / 425001); [|lra].
      rewrite Rinv_r by lra. lra. }
    unfold Rdiv at 1. rewrite E. lra. }
  split.
  - assert (0.999992 * 0.99999 <= pr * p) by (apply Rmult_le_compat; lra). lra.
  - assert (pr * p <= 1 * 1) by (apply Rmult_le_compat; lra). lra.
Qed.

Lemma Rsum_const_le {A : Type} (f : A -> R) (l : list A) (m : R) :
  (forall x, In x l -> f x <= m) -> Rsum (map f l) <= INR (length l) * m.
Proof.
  induction l as [|x l IH]; intros H.
  - simpl. lra.
  - cbn [map length]. rewrite Rsum_cons, S_INR.
    pose proof (H x (or_introl eq_refl)).
    assert (Rsum (map f l) <= INR (length l) * m) by (apply IH; intros; apply H; now right).
    lra.
Qed.

Lemma Rsum_INR_seq (n : nat) :
  Rsum (map INR (seq 0 n)) = INR n * (INR n - 1) / 2.
Proof.
  induction n as [|n IH].
  - simpl. lra.
  - rewrite seq_S, map_app, Rsum_app, IH, S_INR. simpl. lra.
Qed.

(** While the cumulative mass stays below 2.5% the loop assigns nothing. *)
Lemma ci_loop_skip (g p : nat -> R) (rest : list (R * R)) (n : nat) :
  forall (a : nat) (cum : R),
    (forall i, (a <= i < a + n)%nat -> 0 <= p i) ->
    cum + Rsum (map p (seq a n)) < 0.025 ->
    ci_loop (items g p a n ++ rest) cum THETA_MIN THETA_MAX
    = ci_loop rest (cum + Rsum (map p (seq a n))) THETA_MIN THETA_MAX.
Proof.
  induction n as [|n IH]; intros a cum Hp Hc.
  - simpl. now rewrite Rplus_0_r.
  - unfold items in *. cbn [seq map app] in *. rewrite Rsum_cons in *.
    rewrite ci_loop_cons.
    assert (0 <= Rsum (map p (seq (S a) n)))
      by (apply Rsum_nonneg; intros i Hi; apply Hp; apply in_seq in Hi; lia).
    pose proof (Hp a ltac:(lia)).
    assert (E1 : geb (cum + p a) 0.025 = false) by (apply geb_false; lra).
    assert (E2 : geb (cum + p a) 0.975 = false) by (apply geb_false; lra).
    rewrite E1, E2. cbn [andb]. rewrite IH.
    + f_equal. lra.
    + intros i Hi. apply Hp. lia.
    + lra.
Qed.

Lemma skew_valid : Forall (fun r => valid_params (params r)) skew_responses.
Proof. repeat constructor; simpl; lra. Qed.

Lemma skew_total_split : total = Rsum (map w (seq 0 160)) + w 160.
Proof.
  unfold skew_total. rewrite sum_list_Rsum, likelihood_eq.
  change THETA_STEPS with (S 160). rewrite seq_S, map_app, Rsum_app.
  change (0 + 160)%nat with 160%nat. cbn [map]. rewrite Rsum_cons.
  unfold skew_weight. change (Rsum []) with 0. lra.
Qed.

Lemma skew_low_mass : 0 <= Rsum (map w (seq 0 160)) <= 0.016384.
Proof.
  split.
  - apply Rsum_nonneg. intros i Hi. apply in_seq in Hi.
    pose proof (skew_weight_below i ltac:(lia)). lra.
  - pose proof (Rsum_const_le w (seq 0 160) 0.0001024) as H.
    rewrite length_seq in H.
    replace (INR 160) with 160 in H by (rewrite INR_IZR_INZ; reflexivity).
    assert (Rsum (map w (seq 0 160)) <= 160 * 0.0001024); [|lra].
    apply H. intros i Hi. apply in_seq in Hi.
    pose proof (skew_weight_below i ltac:(lia)). lra.
Qed.

Lemma skew_total_bounds : 0.99998 <= total <= 1.016384.
Proof.
  rewrite skew_total_split. pose proof skew_low_mass. pose proof skew_weight_top. lra.
Qed.

Lemma skew_post_sum : Rsum (map post (seq 0 160)) + post 160 = 1.
Proof.
  unfold skew_post, Rdiv. rewrite (Rsum_scale w).
  pose proof skew_total_split as E. pose proof skew_total_bounds as B.
  rewrite <- Rmult_plus_distr_r, <- E. apply Rinv_r. lra.
Qed.

Lemma skew_zipped :
  zipped skew_responses 0 1000
  = items gridpoint post 0 160 ++ [(gridpoint 160, post 160)].
Proof.
  rewrite zipped_eq. change THETA_STEPS with (S 160).
  unfold items. now rewrite seq_S, map_app.
Qed.

Lemma skew_ci95Low : ci95Low (eapEstimate skew_responses 0 1000) = 4.
Proof.
  rewrite eapEstimate_ci95Low, skew_zipped.
  pose proof skew_post_sum as Hs.
  pose proof skew_low_mass as [Hm0 Hm]. pose proof skew_total_bounds as [Ht0 Ht].
  assert (Hlow : Rsum (map post (seq 0 160)) < 0.025).
  { unfold skew_post, Rdiv. rewrite (Rsum_scale w).
    apply Rmult_lt_reg_r with total; [lra|].
    rewrite Rmult_assoc, Rinv_l by lra. lra. }
  rewrite ci_loop_skip.
  - rewrite ci_loop_cons, Rplus_0_l, Hs.
    assert (E1 : geb 1 0.025 = true) by (apply geb_true; lra).
    assert (E2 : geb 1 0.975 = true) by (apply geb_true; lra).
    rewrite E1, E2, !eqb_refl. cbn [andb fst].
    rewrite gridpoint_eq.
    replace (INR 160) with 160 by (rewrite INR_IZR_INZ; reflexivity). lra.
  - intros i Hi. unfold skew_post. pose proof (skew_weight_below i ltac:(lia)).
    apply Rmult_le_pos; [lra|]. left. apply Rinv_0_lt_compat. lra.
  - lra.
Qed.

Lemma skew_theta : theta (eapEstimate skew_responses 0 1000) < 3.95.
Proof.
  rewrite eapEstimate_theta, skew_zipped, map_app, Rsum_app.
  unfold items. rewrite map_map. cbn [map fst snd]. rewrite Rsum_cons. cbn [Rsum fold_right].
  pose proof skew_post_sum as Hs.
  pose proof skew_total_bounds as [Ht0 Ht].
  pose proof skew_weight_top as [Hw0 Hw1].
  assert (G : gridpoint 160 = 4).
  { rewrite gridpoint_eq.
    replace (INR 160) with 160 by (rewrite INR_IZR_INZ; reflexivity). lra. }
  rewrite G.
  assert (Hshift :
            Rsum (map (fun i => gridpoint i * post i) (seq 0 160))
            = Rsum (map post (seq 0 160)) * 3.95
              + Rsum (map (fun i => (0.05 * INR i - 7.95) * w i) (seq 0 160)) * / total).
  { rewrite <- (Rsum_scale (fun i => (0.05 * INR i - 7.95) * w i)).
    rewrite <- (Rsum_scale post 3.95 (seq 0 160)).
    rewrite <- Rsum_plus. apply Rsum_ext_in. intros i _.
    rewrite gridpoint_eq. unfold skew_post, Rdiv. lra. }
  assert (Hneg : Rsum (map (fun i => (0.05 * INR i - 7.95) * w i) (seq 0 160))
                 <= - 0.0635).
  { apply Rle_trans
      with (Rsum (map (fun i => (0.05 * INR i - 7.95) * 0.000099999) (seq 0 160))).
    - apply Rsum_le. intros i Hi. apply in_seq in Hi.
      pose proof (skew_weight_below i ltac:(lia)) as [Hl _].
      assert (INR i <= 159).
      { replace 159 with (INR 159) by (rewrite INR_IZR_INZ; reflexivity).
        apply le_INR. lia. }
      assert (0 <= (7.95 - 0.05 * INR i) * (w i - 0.000099999))
        by (apply Rmult_le_pos; lra).
      lra.
    - rewrite (Rsum_scale (fun i => 0.05 * INR i - 7.95)).
      assert (E : Rsum (map (fun i => 0.05 * INR i - 7.95) (seq 0 160)) = - 636).
      { transitivity (Rsum (map (fun i => INR i * 0.05 + - 7.95) (seq 0 160))).
        - apply Rsum_ext_in. intros; lra.
        - rewrite (Rsum_plus (fun i => INR i * 0.05) (fun _ => - 7.95)).
          rewrite (Rsum_scale INR), Rsum_INR_seq.
          assert (Ec : Rsum (map (fun _ : nat => - 7.95) (seq 0 160)) = 160 * - 7.95).
          { transitivity (Rsum (map (fun i : nat => 1 * - 7.95) (seq 0 160))).
            - apply Rsum_ext_in. intros; lra.
            - rewrite (Rsum_scale (fun _ : nat => 1)).
              assert (Rsum (map (fun _ : nat => 1) (seq 0 160)) = 160); [|lra].
              assert (H1 : forall n, Rsum (map (fun _ : nat => 1) (seq 0 n)) = INR n).
              { intros n. induction n as [|n IH]; [reflexivity|].
                rewrite seq_S, map_app, Rsum_app, IH, S_INR. simpl. lra. }
              rewrite H1, INR_IZR_INZ. reflexivity. }
          rewrite Ec.
          replace (INR 160) with 160 by (rewrite INR_IZR_INZ; reflexivity). lra. }
      rewrite E. lra. }
  rewrite Hshift.
  assert (Hinv : 0 < / total) by (apply Rinv_0_lt_compat; lra).
  assert (Hp160 : post 160 <= / total).
  { unfold skew_post, Rdiv. rewrite <- (Rmult_1_l (/ total)) at 2.
    apply Rmult_le_compat_r; lra. }
  assert (Rsum (map (fun i => (0.05 * INR i - 7.95) * w i) (seq 0 160)) * / total
          <= - 0.0635 * / total)
    by (apply Rmult_le_compat_r; lra).
  set (low := Rsum (map post (seq 0 160))) in *.
  nra.
Qed.


End SkewedPosterior.

Section EAPIntervalWitness.
Import IRT Scenario.


End EAPIntervalWitness.

(** ** Certified bounds on the exponential *)

Section ExpBoundFacts.
Import ExpBound.

Lemma scale_pos : (0 < scale)%Z.
Proof. reflexivity. Qed.

Lemma IZR_scale_pos : 0 < IZR scale.
Proof. apply IZR_lt. exact scale_pos. Qed.

Lemma IZR_div_le (x y : Z) : (0 < y)%Z -> IZR (x / y) <= IZR x / IZR y.
Proof.
  intros Hy. assert (0 < IZR y) by now apply IZR_lt.
  apply Rmult_le_reg_r with (IZR y); [assumption|].
  unfold Rdiv. rewrite Rmult_assoc, Rinv_l, Rmult_1_r by lra.
  rewrite <- mult_IZR. apply IZR_le. rewrite Z.mul_comm.
  now apply Z.mul_div_le.
Qed.

Lemma IZR_div_succ_gt (x y : Z) : (0 < y)%Z -> IZR x / IZR y < IZR (x / y + 1).
Proof.
  intros Hy. assert (0 < IZR y) by now apply IZR_lt.
  apply Rmult_lt_reg_r with (IZR y); [assumption|].
  unfold Rdiv. rewrite Rmult_assoc, Rinv_l, Rmult_1_r by lra.
  rewrite <- mult_IZR. apply IZR_lt. rewrite Z.mul_comm.
  now apply Z.mul_succ_div_gt.
Qed.

Lemma exp_double (v : R) : exp (- (2 * v)) = exp (- v) * exp (- v).
Proof. rewrite <- exp_plus. f_equal. lra. Qed.

Lemma square_down_sound (k : nat) (x : Z) (v : R) :
  0 <= IZR x <= IZR scale * exp (- v) ->
  0 <= IZR (square_down k x) <= IZR scale * exp (- (2 ^ k * v)).
Proof.
  intros H. induction k as [|k IH].
  - simpl. now rewrite Rmult_1_l.
  - cbn [square_down]. cbv zeta. destruct IH as [IH0 IH1].
    set (y := square_down k x) in *.
    pose proof IZR_scale_pos as Hs.
    pose proof (exp_pos (- (2 ^ k * v))) as He.
    split.
    + apply IZR_le. apply Z.div_pos; [|exact scale_pos]. apply le_IZR in IH0. nia.
    + eapply Rle_trans; [apply IZR_div_le; exact scale_pos|].
      rewrite mult_IZR.
      replace (2 ^ S k * v) with (2 * (2 ^ k * v)) by (simpl; ring).
      rewrite exp_double.
      set (E := exp (- (2 ^ k * v))) in *.
      apply Rmult_le_reg_r with (IZR scale); [exact Hs|].
      replace (IZR y * IZR y / IZR scale * IZR scale) with (IZR y * IZR y)
        by (field; lra).
      replace (IZR scale * (E * E) * IZR scale) with ((IZR scale * E) * (IZR scale * E)) by ring.
      apply Rmult_le_compat; assumption.
Qed.

Lemma square_up_sound (k : nat) (x : Z) (v : R) :
  IZR scale * exp (- v) <= IZR x ->
  IZR scale * exp (- (2 ^ k * v)) <= IZR (square_up k x).
Proof.
  intros H. induction k as [|k IH].
  - simpl. now rewrite Rmult_1_l.
  - cbn [square_up]. cbv zeta.
    set (y := square_up k x) in *.
    pose proof IZR_scale_pos as Hs.
    pose proof (exp_pos (- (2 ^ k * v))) as He.
    left. eapply Rle_lt_trans; [|apply IZR_div_succ_gt; exact scale_pos].
    rewrite mult_IZR.
    replace (2 ^ S k * v) with (2 * (2 ^ k * v)) by (simpl; ring).
    rewrite exp_double.
    set (E := exp (- (2 ^ k * v))) in *.
    apply Rmult_le_reg_r with (IZR scale); [exact Hs|].
    replace (IZR y * IZR y / IZR scale * IZR scale) with (IZR y * IZR y)
      by (field; lra).
    replace (IZR scale * (E * E) * IZR scale) with ((IZR scale * E) * (IZR scale * E)) by ring.
    assert (0 <= IZR scale * E) by (apply Rmult_le_pos; [left; exact Hs|left; exact He]).
    apply Rmult_le_compat; assumption.
Qed.

Lemma pow2_halvings : 2 ^ halvings = IZR (2 ^ Z.of_nat halvings).
Proof. exact (pow_IZR 2 halvings). Qed.

(** The enclosure of [exp (- p / q)]. *)
Lemma exp_neg_bounds (p q : Z) :
  (0 <= p)%Z -> (0 < q)%Z ->
  IZR (exp_neg_lo p q) <= IZR scale * exp (- (IZR p / IZR q))
  /\ IZR scale * exp (- (IZR p / IZR q)) <= IZR (exp_neg_hi p q).
Proof.
  intros Hp Hq. unfold exp_neg_lo, exp_neg_hi. cbv zeta.
  set (n := (q * 2 ^ Z.of_nat halvings)%Z).
  assert (Hn : (0 < n)%Z) by (unfold n, halvings; simpl; lia).
  assert (HnR : 0 < IZR n) by now apply IZR_lt.
  assert (HpR : 0 <= IZR p) by now apply IZR_le.
  assert (HqR : 0 < IZR q) by now apply IZR_lt.
  pose proof IZR_scale_pos as Hs.
  set (u := IZR p / IZR n).
  assert (Hu : 0 <= u) by (unfold u; apply Rmult_le_pos; [lra|left; now apply Rinv_0_lt_compat]).
  assert (Hv : 2 ^ halvings * u = IZR p / IZR q).
  { unfold u, n. rewrite mult_IZR, <- pow2_halvings.
    assert (0 < 2 ^ halvings) by (apply pow_lt; lra). field. split; lra. }
  rewrite <- Hv. split.
  - apply square_down_sound.
    pose proof (exp_pos (- u)) as He. split.
    + apply IZR_le. lia.
    + destruct (Z.max_spec 0 (scale * (n - p) / n)) as [[_ ->]|[_ ->]].
      * eapply Rle_trans; [apply IZR_div_le; exact Hn|].
        rewrite mult_IZR, minus_IZR.
        replace (IZR scale * (IZR n - IZR p) / IZR n) with (IZR scale * (1 + - u))
          by (unfold u; field; lra).
        apply Rmult_le_compat_l; [lra|]. apply exp_ineq1_le.
      * apply Rmult_le_pos; lra.
  - apply square_up_sound.
    left. eapply Rle_lt_trans; [|apply IZR_div_succ_gt; lia].
    rewrite mult_IZR, plus_IZR.
    replace (IZR scale * IZR n / (IZR n + IZR p)) with (IZR scale * / (1 + u))
      by (unfold u; field; split; lra).
    apply Rmult_le_compat_l; [lra|]. now apply exp_neg_le_inv.
Qed.

End ExpBoundFacts.

(** ** The default prior *)

Section DefaultPriorFacts.
Import IRT ExpBound DefaultPrior.

Lemma Rsum_le_Zsum (f : nat -> R) (F : nat -> Z) (l : list nat) :
  (forall i, In i l -> f i <= IZR (F i)) ->
  Rsum (map f l) <= IZR (Zsum (map F l)).
Proof.
  induction l as [|i l IH]; intros H.
  - simpl. lra.
  - cbn [map]. rewrite Rsum_cons. cbn [Zsum fold_right]. rewrite plus_IZR.
    pose proof (H i (or_introl eq_refl)).
    assert (Rsum (map f l) <= IZR (Zsum (map F l)))
      by (apply IH; intros; apply H; now right).
    unfold Zsum in *. lra.
Qed.

Lemma Zsum_le_Rsum (f : nat -> R) (F : nat -> Z) (l : list nat) :
  (forall i, In i l -> IZR (F i) <= f i) ->
  IZR (Zsum (map F l)) <= Rsum (map f l).
Proof.
  induction l as [|i l IH]; intros H.
  - simpl. lra.
  - cbn [map]. rewrite Rsum_cons. cbn [Zsum fold_right]. rewrite plus_IZR.
    pose proof (H i (or_introl eq_refl)).
    assert (IZR (Zsum (map F l)) <= Rsum (map f l))
      by (apply IH; intros; apply H; now right).
    unfold Zsum in *. lra.
Qed.

Lemma offset_gridpoint (i : nat) :
  gridpoint i - THETA_INITIAL = IZR (offset i) / 100.
Proof.
  rewrite gridpoint_eq, INR_IZR_INZ. unfold offset, THETA_INITIAL.
  rewrite minus_IZR, mult_IZR. lra.
Qed.

Lemma default_weight_eq (i : nat) :
  W i = exp (- (IZR (exponent_num i) / IZR exponent_den)).
Proof.
  unfold W, weight. cbn [fold_left]. f_equal.
  rewrite offset_gridpoint. unfold exponent_num, exponent_den, THETA_INITIAL_SD.
  rewrite !mult_IZR. set (z := IZR (offset i)). lra.
Qed.

Lemma exponent_num_nonneg (i : nat) : (0 <= exponent_num i)%Z.
Proof. unfold exponent_num. nia. Qed.

Lemma default_weight_bounds (i : nat) :
  IZR (w_lo i) <= IZR scale * W i <= IZR (w_hi i).
Proof.
  rewrite default_weight_eq. unfold w_lo, w_hi.
  apply exp_neg_bounds; [apply exponent_num_nonneg|reflexivity].
Qed.

Lemma default_weight_pos (i : nat) : 0 < W i.
Proof. rewrite default_weight_eq. apply exp_pos. Qed.

Lemma M0_bounds : IZR mass_lo <= IZR scale * M0 <= IZR mass_hi.
Proof.
  unfold M0. rewrite Rmult_comm, <- (Rsum_scale W). split.
  - apply Zsum_le_Rsum. intros i _. rewrite Rmult_comm. apply default_weight_bounds.
  - apply Rsum_le_Zsum. intros i _. rewrite Rmult_comm. apply default_weight_bounds.
Qed.

Lemma M1_bounds : IZR moment1_lo <= IZR scale * M1 <= IZR moment1_hi.
Proof.
  unfold M1. rewrite Rmult_comm, <- (Rsum_scale (fun i => IZR (offset i) * W i)).
  pose proof IZR_scale_pos as Hs. split.
  - apply Zsum_le_Rsum. intros i _. unfold moment1_term_lo.
    pose proof (default_weight_bounds i) as [Hl Hh].
    destruct (Z.leb_spec 0 (offset i)) as [Ho|Ho]; rewrite mult_IZR.
    + apply IZR_le in Ho.
      assert (IZR (offset i) * IZR (w_lo i) <= IZR (offset i) * (IZR scale * W i))
        by (apply Rmult_le_compat_l; lra).
      lra.
    + apply IZR_lt in Ho.
      assert (- IZR (offset i) * (IZR scale * W i) <= - IZR (offset i) * IZR (w_hi i))
        by (apply Rmult_le_compat_l; lra).
      lra.
  - apply Rsum_le_Zsum. intros i _. unfold moment1_term_hi.
    pose proof (default_weight_bounds i) as [Hl Hh].
    destruct (Z.leb_spec 0 (offset i)) as [Ho|Ho]; rewrite mult_IZR.
    + apply IZR_le in Ho.
      assert (IZR (offset i) * (IZR scale * W i) <= IZR (offset i) * IZR (w_hi i))
        by (apply Rmult_le_compat_l; lra).
      lra.
    + apply IZR_lt in Ho.
      assert (- IZR (offset i) * IZR (w_lo i) <= - IZR (offset i) * (IZR scale * W i))
        by (apply Rmult_le_compat_l; lra).
      lra.
Qed.

Lemma M2_bounds : IZR moment2_lo <= IZR scale * M2 <= IZR moment2_hi.
Proof.
  unfold M2.
  rewrite Rmult_comm, <- (Rsum_scale (fun i => IZR (offset i) * IZR (offset i) * W i)).
  split.
  - apply Zsum_le_Rsum. intros i _. rewrite !mult_IZR.
    pose proof (default_weight_bounds i) as [Hl Hh].
    assert (0 <= IZR (offset i) * IZR (offset i)) by nra.
    assert (IZR (offset i) * IZR (offset i) * IZR (w_lo i)
            <= IZR (offset i) * IZR (offset i) * (IZR scale * W i))
      by (apply Rmult_le_compat_l; lra).
    lra.
  - apply Rsum_le_Zsum. intros i _. rewrite !mult_IZR.
    pose proof (default_weight_bounds i) as [Hl Hh].
    assert (0 <= IZR (offset i) * IZR (offset i)) by nra.
    assert (IZR (offset i) * IZR (offset i) * (IZR scale * W i)
            <= IZR (offset i) * IZR (offset i) * IZR (w_hi i))
      by (apply Rmult_le_compat_l; lra).
    lra.
Qed.

(** The comparisons of the integer sums: evaluated. *)
Lemma default_prior_numbers :
  (0 < mass_lo)%Z
  /\ (moment1_hi < 5 * mass_lo)%Z
  /\ (- (5 * mass_lo) < moment1_lo)%Z
  /\ (100 * moment2_hi < 351649 * mass_lo)%Z
  /\ (245549 * mass_hi < 100 * moment2_lo)%Z.
Proof. vm_compute. repeat split. Qed.

Lemma T_eq_M0 : T = M0.
Proof. unfold T, M0. now rewrite sum_list_Rsum, likelihood_eq. Qed.

Lemma T_pos : 0 < T.
Proof. unfold T. apply sum_likelihood_pos. constructor. Qed.

Lemma M1_small : - (5 * T) < M1 < 5 * T.
Proof.
  rewrite T_eq_M0.
  pose proof default_prior_numbers as (_ & H1 & H2 & _).
  pose proof M0_bounds as [B0 _]. pose proof M1_bounds as [B1 B1'].
  pose proof IZR_scale_pos as Hs.
  apply IZR_lt in H1. apply IZR_lt in H2.
  rewrite (mult_IZR 5 mass_lo) in H1.
  rewrite (opp_IZR (5 * mass_lo)), (mult_IZR 5 mass_lo) in H2.
  revert H1 H2 B0 B1 B1' Hs.
  generalize (IZR scale) (IZR mass_lo) (IZR moment1_lo) (IZR moment1_hi).
  intros s m0 m1 m1' H1 H2 B0 B1 B1' Hs.
  split; apply Rmult_lt_reg_l with s; try exact Hs; lra.
Qed.

Lemma M2_bracket : 245549 * T < 100 * M2 < 351649 * T.
Proof.
  rewrite T_eq_M0.
  pose proof default_prior_numbers as (_ & _ & _ & H3 & H4).
  pose proof M0_bounds as [B0 B0']. pose proof M2_bounds as [B2 B2'].
  pose proof IZR_scale_pos as Hs.
  apply IZR_lt in H3. apply IZR_lt in H4.
  rewrite (mult_IZR 100 moment2_hi), (mult_IZR 351649 mass_lo) in H3.
  rewrite (mult_IZR 245549 mass_hi), (mult_IZR 100 moment2_lo) in H4.
  revert H3 H4 B0 B0' B2 B2' Hs.
  generalize (IZR scale) (IZR mass_lo) (IZR mass_hi) (IZR moment2_lo) (IZR moment2_hi).
  intros s m0 m0' m2 m2' H3 H4 B0 B0' B2 B2' Hs.
  split; apply Rmult_lt_reg_l with s; try exact Hs; lra.
Qed.

(** The estimate under the default prior, as the prior mean plus the first
    moment of the offsets. *)
Lemma default_theta :
  theta (eapEstimate [] THETA_INITIAL THETA_INITIAL_SD)
  = THETA_INITIAL + M1 / (100 * T).
Proof.
  rewrite (theta_as_sum [] THETA_INITIAL THETA_INITIAL_SD).
  pose proof (post_total [] THETA_INITIAL THETA_INITIAL_SD (List.Forall_nil _)) as Ht.
  unfold posterior_at in Ht |- *. fold T in Ht |- *. fold W in Ht |- *. pose proof T_pos as HT.
  transitivity
    (Rsum (map (fun i => W i / T * THETA_INITIAL
                         + IZR (offset i) * W i * / (100 * T))
               (seq 0 THETA_STEPS))).
  - apply Rsum_ext_in. intros i _.
    pose proof (offset_gridpoint i) as Ho.
    replace (gridpoint i) with (THETA_INITIAL + IZR (offset i) / 100) by lra.
    unfold Rdiv. rewrite Rinv_mult. lra.
  - rewrite (Rsum_plus (fun i => W i / T * THETA_INITIAL)
                       (fun i => IZR (offset i) * W i * / (100 * T))).
    rewrite (Rsum_scale (fun i => W i / T)), Ht.
    rewrite (Rsum_scale (fun i => IZR (offset i) * W i)).
    unfold M1, indices, Rdiv. lra.
Qed.

Lemma default_variance :
  Rsum (map (fun tp => (fst tp - theta (eapEstimate [] THETA_INITIAL THETA_INITIAL_SD)) ^ 2
                       * snd tp)
            (zipped [] THETA_INITIAL THETA_INITIAL_SD))
  = M2 / (10000 * T) - (M1 / (100 * T)) ^ 2.
Proof.
  rewrite (zipped_items [] THETA_INITIAL THETA_INITIAL_SD). unfold items.
  rewrite map_map. cbn [fst snd]. rewrite default_theta.
  pose proof (post_total [] THETA_INITIAL THETA_INITIAL_SD (List.Forall_nil _)) as Ht.
  unfold posterior_at in Ht |- *. fold T in Ht |- *. fold W in Ht |- *. pose proof T_pos as HT.
  set (e := M1 / (100 * T)).
  transitivity
    (Rsum (map (fun i => IZR (offset i) * IZR (offset i) * W i * / (10000 * T)
                         + (IZR (offset i) * W i * (- 2 * e / (100 * T))
                            + W i / T * e ^ 2))
               (seq 0 THETA_STEPS))).
  - apply Rsum_ext_in. intros i _.
    pose proof (offset_gridpoint i) as Ho.
    replace (gridpoint i) with (THETA_INITIAL + IZR (offset i) / 100) by lra.
    unfold Rdiv. rewrite !Rinv_mult. lra.
  - rewrite (Rsum_plus (fun i => IZR (offset i) * IZR (offset i) * W i * / (10000 * T))).
    rewrite (Rsum_plus (fun i => IZR (offset i) * W i * (- 2 * e / (100 * T)))).
    rewrite (Rsum_scale (fun i => IZR (offset i) * IZR (offset i) * W i)).
    rewrite (Rsum_scale (fun i => IZR (offset i) * W i)).
    rewrite (Rsum_scale (fun i => W i / T)), Ht.
    fold indices. fold M1. fold M2. unfold e, Rdiv. rewrite !Rinv_mult. lra.
Qed.



End DefaultPriorFacts.

(** ** More on the 3PL curve and the information function *)

Section CurveShape.
Import IRT.

Lemma expo_decreasing (q : IRTParams) (th th' : R) :
  0 < a q -> th < th' -> expo th' q < expo th q.
Proof.
  intros Ha Hlt. unfold expo. apply exp_increasing. unfold D.
  assert (0 < a q * (th' - th)) by (apply Rmult_lt_0_compat; lra). nra.
Qed.

Lemma p3PL_lt (q : IRTParams) (th th' : R) :
  0 < a q -> c q < 1 -> th < th' -> p3PL th q < p3PL th' q.
Proof.
  intros Ha Hc Hlt. pose proof (expo_decreasing q th th' Ha Hlt) as He.
  pose proof (expo_pos th q). pose proof (expo_pos th' q).
  unfold p3PL. fold (expo th q). fold (expo th' q).
  apply Rplus_lt_compat_l. unfold Rdiv. apply Rmult_lt_compat_l; [lra|].
  apply Rinv_lt_contravar; [apply Rmult_lt_0_compat; lra|lra].
Qed.

Lemma p3PL_nondecreasing (q : IRTParams) (th th' : R) :
  0 < a q -> c q < 1 -> th <= th' -> p3PL th q <= p3PL th' q.
Proof.
  intros Ha Hc [Hlt | ->]; [|lra]. left. now apply p3PL_lt.
Qed.



(** The information through the exponential: smaller exponential, more
    information. *)
Lemma info_by_expo (q q' : IRTParams) (th th' : R) :
  valid_params q -> a q' = a q -> c q' = c q ->
  expo th' q' < expo th q ->
  itemInformation th q < itemInformation th' q'.
Proof.
  intros [Ha Hc] Ea Ec He.
  assert (Hc' : 0 <= c q' < 1) by (rewrite Ec; exact Hc).
  rewrite (itemInformation_expo th q Hc), (itemInformation_expo th' q' Hc').
  pose proof (info_den_pos th q Hc) as Hd.
  pose proof (info_den_pos th' q' Hc') as Hd'.
  rewrite Ea, Ec in *.
  pose proof (expo_pos th q) as H1. pose proof (expo_pos th' q') as H2.
  assert (HK : 0 < D ^ 2 * a q ^ 2).
  { unfold D. assert (0 < a q ^ 2) by (apply pow_lt; exact Ha). lra. }
  assert (Hden : (1 - c q) * expo th' q' * (1 + c q * expo th' q')
                 < (1 - c q) * expo th q * (1 + c q * expo th q)).
  { assert (0 <= c q * expo th' q') by (apply Rmult_le_pos; lra).
    assert (c q * expo th' q' <= c q * expo th q) by (apply Rmult_le_compat_l; lra).
    assert ((1 - c q) * expo th' q' < (1 - c q) * expo th q)
      by (apply Rmult_lt_compat_l; lra).
    assert (0 < (1 - c q) * expo th' q') by (apply Rmult_lt_0_compat; lra).
    apply Rle_lt_trans with ((1 - c q) * expo th' q' * (1 + c q * expo th q)).
    - apply Rmult_le_compat_l; lra.
    - apply Rmult_lt_compat_r; lra. }
  unfold Rdiv. apply Rmult_lt_compat_l; [exact HK|].
  apply Rinv_lt_contravar; [apply Rmult_lt_0_compat; assumption|exact Hden].
Qed.



End CurveShape.

(** ** More on the selection *)

Section SelectionShape.
Import IRT.

Lemma eligible_spec criteria (q : IRTQuestion) :
  eligible criteria q = true
  <-> ~ In (id q) (excludeIds criteria)
      /\ forall l, bloomLevel criteria = Some l -> bloom q = l.
Proof.
  unfold eligible. rewrite andb_true_iff, negb_true_iff. split.
  - intros [He Hb]. split.
    + intros Hin. assert (existsb (String.eqb (id q)) (excludeIds criteria) = true).
      { apply existsb_exists. exists (id q). split; [exact Hin|apply String.eqb_refl]. }
      congruence.
    + intros l El. rewrite El in Hb. now apply Nat.eqb_eq.
  - intros [He Hb]. split.
    + destruct (existsb (String.eqb (id q)) (excludeIds criteria)) eqn:E; [|reflexivity].
      apply existsb_exists in E. destruct E as (x & Hx & E).
      apply String.eqb_eq in E. subst x. contradiction.
    + destruct (bloomLevel criteria) as [l|]; [|reflexivity].
      apply Nat.eqb_eq. now apply Hb.
Qed.

Lemma selectNextQuestion_Some_first_argmax questions criteria q :
  selectNextQuestion questions criteria = Some q ->
  first_argmax (targetTheta criteria) (List.filter (eligible criteria) questions) q.
Proof.
  intros Hs.
  destruct (List.filter (eligible criteria) questions) as [|x l] eqn:E.
  - rewrite selectNextQuestion_none in Hs by exact E. discriminate.
  - assert (Hne : x :: l <> []) by discriminate.
    destruct (first_argmax_exists (targetTheta criteria) (x :: l) Hne) as [q' Hq'].
    rewrite <- E in Hq'.
    rewrite (selectNextQuestion_first_argmax _ _ _ Hq') in Hs.
    injection Hs as <-. now rewrite <- E.
Qed.

Lemma selectNextQuestion_None_filter questions criteria :
  selectNextQuestion questions criteria = None ->
  List.filter (eligible criteria) questions = [].
Proof.
  intros Hn.
  destruct (List.filter (eligible criteria) questions) as [|x l] eqn:E; [reflexivity|].
  assert (Hne : List.filter (eligible criteria) questions <> [])
    by (rewrite E; discriminate).
  destruct (first_argmax_exists (targetTheta criteria) _ Hne) as [q' Hq'].
  rewrite (selectNextQuestion_first_argmax _ _ _ Hq') in Hn. discriminate.
Qed.

(** X3.  The selector returns no question exactly when every question of
    the bank is excluded or is of another Bloom level (in particular on an
    empty bank); a question it returns is in the bank, is not excluded and
    matches the requested Bloom level. *)
Theorem selectNextQuestion_null_iff (questions : list IRTQuestion)
    (criteria : NextQuestionCriteria) :
  (selectNextQuestion questions criteria = None
   <-> forall q, In q questions ->
         In (id q) (excludeIds criteria)
         \/ exists l, bloomLevel criteria = Some l /\ bloom q <> l)
  /\ forall q, selectNextQuestion questions criteria = Some q ->
       In q questions
       /\ ~ In (id q) (excludeIds criteria)
       /\ forall l, bloomLevel criteria = Some l -> bloom q = l.
Proof.
  split; [split|].
  - intros Hn q Hq.
    destruct (eligible criteria q) eqn:E.
    + exfalso.
      assert (Hf : In q (List.filter (eligible criteria) questions))
        by (apply filter_In; auto).
      assert (Hne : List.filter (eligible criteria) questions <> [])
        by (intros E0; rewrite E0 in Hf; destruct Hf).
      destruct (first_argmax_exists (targetTheta criteria) _ Hne) as [q' Hq'].
      rewrite (selectNextQuestion_first_argmax _ _ _ Hq') in Hn. discriminate.
    + unfold eligible in E. apply andb_false_iff in E. destruct E as [E|E].
      * left. apply negb_false_iff, existsb_exists in E.
        destruct E as (x & Hx & E). apply String.eqb_eq in E. now subst x.
      * right. destruct (bloomLevel criteria) as [l|]; [|discriminate].
        exists l. split; [reflexivity|]. now apply Nat.eqb_neq.
  - intros H. apply selectNextQuestion_none.
    destruct (List.filter (eligible criteria) questions) as [|x l] eqn:E; [reflexivity|].
    exfalso.
    assert (Hx : In x (List.filter (eligible criteria) questions))
      by (rewrite E; now left).
    apply filter_In in Hx. destruct Hx as [Hx Hel].
    apply eligible_spec in Hel. destruct Hel as [Hex Hbl].
    destruct (H x Hx) as [Hin|(l0 & El & Hne)]; [contradiction|].
    apply Hne. now apply Hbl.
  - intros q Hs. apply selectNextQuestion_Some_first_argmax in Hs.
    destruct Hs as (l1 & l2 & E & _).
    assert (Hin : In q (List.filter (eligible criteria) questions)).
    { rewrite E. apply in_or_app. right. now left. }
    apply filter_In in Hin. destruct Hin as [Hin Hel].
    apply eligible_spec in Hel. tauto.
Qed.


Lemma graded_bank_pick :
  selectNextQuestion Scenario.graded_bank Scenario.tie_criteria
  = Some (Scenario.graded_item "q-easy" (-1.5)).
Proof.
  assert (Hlt : forall name d,
            -1.5 < d ->
            itemInformation 0 (Scenario.graded_item name d)
            < itemInformation 0 (Scenario.graded_item "q-easy" (-1.5))).
  { intros name d Hd. apply info_by_expo; [| reflexivity | reflexivity |].
    - unfold valid_params. cbn. lra.
    - unfold expo. cbn [Scenario.graded_item irt a b]. apply exp_increasing.
      unfold D. lra. }
  apply selectNextQuestion_first_argmax.
  rewrite eligible_no_filter by reflexivity.
  exists [Scenario.graded_item "q-hard" 0.5], [Scenario.graded_item "q-mid" 0.2].
  split; [reflexivity|]. cbn [Scenario.tie_criteria targetTheta].
  split; (constructor; [|constructor]).
  - apply Hlt. lra.
  - left. apply Hlt. lra.
Qed.


End SelectionShape.

(** ** More on the estimator *)

Section EstimatorShape.
Import IRT.

(** The credible-interval loop keeps its two bounds in order and inside
    the range it starts from. *)
Lemma ci_loop_ordered (g p : nat -> R) (n : nat) :
  (forall i j, (i <= j)%nat -> g i <= g j) ->
  forall (a : nat) (cum lo hi : R),
    (forall i, (a <= i < a + n)%nat -> lo <= g i <= hi) ->
    lo <= hi ->
    lo <= fst (ci_loop (items g p a n) cum lo hi)
    /\ fst (ci_loop (items g p a n) cum lo hi)
       <= snd (ci_loop (items g p a n) cum lo hi)
    /\ snd (ci_loop (items g p a n) cum lo hi) <= hi.
Proof.
  intros Hmono. induction n as [|n IH]; intros a cum lo hi Hg Hlh.
  - cbn. lra.
  - unfold items. cbn [seq map]. fold (items g p (S a) n). rewrite ci_loop_cons.
    assert (Ha : lo <= g a <= hi) by (apply Hg; lia).
    set (lo' := if geb (cum + p a) 0.025 && eqb lo THETA_MIN then g a else lo).
    assert (Hlo' : lo <= lo' <= g a)
      by (unfold lo'; destruct (geb (cum + p a) 0.025 && eqb lo THETA_MIN); lra).
    destruct (geb (cum + p a) 0.975 && eqb hi THETA_MAX).
    + cbn [fst snd]. lra.
    + destruct (IH (S a) (cum + p a) lo' hi) as (H1 & H2 & H3).
      * intros i Hi. assert (g a <= g i) by (apply Hmono; lia).
        assert (lo <= g i <= hi) by (apply Hg; lia). lra.
      * lra.
      * lra.
Qed.

(** X5.  On valid item parameters and a positive prior width, the two ends
    of the credible interval are in order and inside the grid range:
    [-4 <= ci95Low <= ci95High <= 4]. *)
Theorem eapEstimate_ci_ordered
    (responses : list Response) (priorMean priorSd : R) :
  Forall (fun r => valid_params (params r)) responses ->
  0 < priorSd ->
  -4 <= ci95Low (eapEstimate responses priorMean priorSd)
  /\ ci95Low (eapEstimate responses priorMean priorSd)
     <= ci95High (eapEstimate responses priorMean priorSd)
  /\ ci95High (eapEstimate responses priorMean priorSd) <= 4.
Proof.
  intros _ _. rewrite eapEstimate_ci95Low, eapEstimate_ci95High.
  rewrite zipped_eq.
  change (map (fun i => (gridpoint i,
                         weight responses priorMean priorSd i
                         / sum_list (likelihood responses priorMean priorSd)))
              (seq 0 THETA_STEPS))
    with (items gridpoint (posterior_at responses priorMean priorSd) 0 THETA_STEPS).
  replace (-4) with THETA_MIN by (unfold THETA_MIN; lra).
  replace 4 with THETA_MAX by (unfold THETA_MAX; lra).
  apply ci_loop_ordered.
  - apply gridpoint_mono.
  - intros i Hi. unfold THETA_MIN, THETA_MAX.
    apply gridpoint_range. apply in_seq. lia.
  - unfold THETA_MIN, THETA_MAX. lra.
Qed.

Lemma eapEstimate_ci_ordered_witness :
  -4 <= ci95Low (eapEstimate Scenario.skew_responses 0 1000)
  /\ ci95Low (eapEstimate Scenario.skew_responses 0 1000)
     <= ci95High (eapEstimate Scenario.skew_responses 0 1000)
  /\ ci95High (eapEstimate Scenario.skew_responses 0 1000) <= 4.
Proof.
  apply (eapEstimate_ci_ordered Scenario.skew_responses 0 1000).
  - exact skew_valid.
  - lra.
Defined.

(** The weight of a grid point after one more response. *)
Lemma weight_snoc responses priorMean priorSd (r : Response) (i : nat) :
  weight (responses ++ [r]) priorMean priorSd i
  = weight responses priorMean priorSd i
    * (if isCorrect r then p3PL (gridpoint i) (params r)
       else 1 - p3PL (gridpoint i) (params r)).
Proof. unfold weight. rewrite fold_left_app. reflexivity. Qed.

(** The estimate as a ratio of two sums over the grid. *)
Lemma theta_ratio responses priorMean priorSd :
  theta (eapEstimate responses priorMean priorSd)
  = Rsum (map (fun i => gridpoint i * weight responses priorMean priorSd i)
              (seq 0 THETA_STEPS))
    / Rsum (map (weight responses priorMean priorSd) (seq 0 THETA_STEPS)).
Proof.
  rewrite theta_as_sum. unfold posterior_at.
  rewrite sum_list_Rsum, likelihood_eq.
  set (T := Rsum (map (weight responses priorMean priorSd) (seq 0 THETA_STEPS))).
  unfold Rdiv.
  rewrite <- (Rsum_scale (fun i => gridpoint i * weight responses priorMean priorSd i)).
  apply Rsum_ext_in. intros i _. lra.
Qed.

Lemma Rsum_minus_scale {A : Type} (f h : A -> R) (k : R) (l : list A) :
  Rsum (map (fun x => f x - k * h x) l) = Rsum (map f l) - k * Rsum (map h l).
Proof. induction l as [|x l IH]; simpl; [lra|rewrite IH; lra]. Qed.

Lemma Rsum_pos_one {A : Type} (f : A -> R) (l : list A) (x : A) :
  (forall y, In y l -> 0 <= f y) -> In x l -> 0 < f x -> 0 < Rsum (map f l).
Proof.
  induction l as [|y l IH]; intros Hnn Hin Hx; [destruct Hin|].
  simpl. pose proof (Hnn y (or_introl eq_refl)) as Hy.
  destruct Hin as [->|Hin].
  - assert (0 <= Rsum (map f l))
      by (apply Rsum_nonneg; intros z Hz; apply Hnn; now right).
    lra.
  - assert (0 < Rsum (map f l))
      by (apply IH; auto; intros z Hz; apply Hnn; now right).
    lra.
Qed.

(** A grid point other than a given value: the grid has two points. *)
Lemma grid_off (v : R) :
  exists i, In i (seq 0 THETA_STEPS) /\ gridpoint i <> v.
Proof.
  destruct (Req_dec_T (gridpoint 0) v) as [E|N].
  - exists 1%nat. split; [apply in_seq; unfold THETA_STEPS; lia|].
    rewrite gridpoint_eq in *. simpl INR in *. lra.
  - exists 0%nat. split; [apply in_seq; unfold THETA_STEPS; lia|exact N].
Qed.

(** A weighted mean moves up when the weights are tilted by an increasing
    function of the points, and down when they are tilted by a decreasing
    one. *)
Lemma tilted_mean (g W : nat -> R) (P : R -> R) (l : list nat) (m : R) (i0 : nat) :
  (forall i, 0 < W i) ->
  (forall x y, x < y -> P x < P y) ->
  (forall t, 0 < P t < 1) ->
  In i0 l -> g i0 <> m ->
  Rsum (map (fun i => g i * W i) l) = m * Rsum (map W l) ->
  Rsum (map (fun i => g i * (W i * (1 - P (g i)))) l)
  / Rsum (map (fun i => W i * (1 - P (g i))) l) < m
  /\ m < Rsum (map (fun i => g i * (W i * P (g i))) l)
         / Rsum (map (fun i => W i * P (g i)) l).
Proof.
  intros HW HP HPr Hin Hne Hm.
  assert (Hterm : forall i, 0 <= (g i - m) * W i * (P (g i) - P m)
                            /\ (g i <> m -> 0 < (g i - m) * W i * (P (g i) - P m))).
  { intros i. pose proof (HW i) as Hw.
    destruct (Rtotal_order (g i) m) as [Hlt|[E|Hgt]].
    - pose proof (HP _ _ Hlt).
      replace ((g i - m) * W i * (P (g i) - P m))
        with ((m - g i) * W i * (P m - P (g i))) by ring.
      assert (0 < (m - g i) * W i * (P m - P (g i)))
        by (apply Rmult_lt_0_compat; [apply Rmult_lt_0_compat|]; lra).
      split; [lra|intros _; lra].
    - rewrite E. split; [right; ring|intros N; now destruct N].
    - pose proof (HP _ _ Hgt).
      assert (0 < (g i - m) * W i * (P (g i) - P m))
        by (apply Rmult_lt_0_compat; [apply Rmult_lt_0_compat|]; lra).
      split; [lra|intros _; lra]. }
  assert (Hcov : 0 < Rsum (map (fun i => (g i - m) * W i * (P (g i) - P m)) l)).
  { apply (Rsum_pos_one _ l i0); [intros i _; apply Hterm|exact Hin|now apply Hterm]. }
  pose (fG := fun i => g i * W i).
  pose (fU := fun i => g i * (W i * P (g i))).
  pose (fV := fun i => W i * P (g i)).
  pose (fD := fun i => g i * (W i * (1 - P (g i)))).
  pose (fE := fun i => W i * (1 - P (g i))).
  assert (HU : Rsum (map (fun i => (g i - m) * W i * (P (g i) - P m)) l)
               = Rsum (map fU l) - m * Rsum (map fV l)
                 - P m * (Rsum (map fG l) - m * Rsum (map W l))).
  { rewrite <- (Rsum_minus_scale fU fV m), <- (Rsum_minus_scale fG W m).
    rewrite <- (Rsum_minus_scale (fun i => fU i - m * fV i)
                                 (fun i => fG i - m * W i) (P m)).
    apply Rsum_ext_in. intros i _. unfold fU, fV, fG. ring. }
  assert (HD : Rsum (map fD l) - m * Rsum (map fE l)
               = (Rsum (map fG l) - m * Rsum (map W l))
                 - 1 * (Rsum (map fU l) - m * Rsum (map fV l))).
  { rewrite <- (Rsum_minus_scale fU fV m), <- (Rsum_minus_scale fG W m),
            <- (Rsum_minus_scale fD fE m).
    rewrite <- (Rsum_minus_scale (fun i => fG i - m * W i)
                                 (fun i => fU i - m * fV i) 1).
    apply Rsum_ext_in. intros i _. unfold fD, fE, fU, fV, fG. ring. }
  assert (HV : 0 < Rsum (map fV l)).
  { apply (Rsum_pos_one _ l i0); [|exact Hin|].
    - intros i _. unfold fV. left. apply Rmult_lt_0_compat; [apply HW|apply HPr].
    - unfold fV. apply Rmult_lt_0_compat; [apply HW|apply HPr]. }
  assert (HE : 0 < Rsum (map fE l)).
  { assert (forall i, 0 < fE i).
    { intros i. unfold fE. pose proof (HPr (g i)).
      apply Rmult_lt_0_compat; [apply HW|lra]. }
    apply (Rsum_pos_one _ l i0); [intros i _; left; auto|exact Hin|auto]. }
  fold fG in Hm. rewrite Hm in HU, HD.
  fold fD fE fU fV.
  generalize dependent (Rsum (map fU l)). generalize dependent (Rsum (map fV l)).
  generalize dependent (Rsum (map fD l)). generalize dependent (Rsum (map fE l)).
  generalize dependent (Rsum (map (fun i => (g i - m) * W i * (P (g i) - P m)) l)).
  intros C HC E HE0 Dd V HV0 U HU0 HD0.
  split.
  - apply Rmult_lt_reg_r with E; [exact HE0|].
    unfold Rdiv. rewrite Rmult_assoc, Rinv_l by lra. lra.
  - apply Rmult_lt_reg_r with V; [exact HV0|].
    unfold Rdiv. rewrite Rmult_assoc, Rinv_l by lra. lra.
Qed.



(** X7.  [checkMastery] is false on an empty list of items, and on items
    with positive discrimination and guessing below 1 it is monotone in
    the ability: once reached, mastery holds at every higher ability. *)
Theorem checkMastery_monotone (kcItems : list IRTParams) (th th' : R) :
  Forall (fun q => 0 < a q /\ c q < 1) kcItems ->
  th <= th' ->
  checkMastery th [] = false
  /\ (checkMastery th kcItems = true -> checkMastery th' kcItems = true).
Proof.
  intros Hv Hle. split; [reflexivity|].
  unfold checkMastery. destruct (Nat.eqb (length kcItems) 0) eqn:E0; [discriminate|].
  cbv zeta. rewrite !geb_true.
  rewrite !(fold_left_Rsum (fun item => p3PL _ item)).
  apply Nat.eqb_neq in E0.
  assert (Hn : 0 < INR (length kcItems)) by (apply lt_0_INR; lia).
  assert (Hs : Rsum (map (fun item => p3PL th item) kcItems)
               <= Rsum (map (fun item => p3PL th' item) kcItems)).
  { apply Rsum_le. intros q Hq. rewrite List.Forall_forall in Hv.
    destruct (Hv q Hq) as [Ha Hc]. now apply p3PL_nondecreasing. }
  intros H. apply Rle_trans with (1 := H).
  unfold Rdiv. apply Rmult_le_compat_r; [left; now apply Rinv_0_lt_compat|lra].
Qed.

Lemma checkMastery_monotone_witness :
  checkMastery 3 [] = false
  /\ (checkMastery 3 [mkParams 1.20 (-1.50) 0.25] = true ->
      checkMastery 4 [mkParams 1.20 (-1.50) 0.25] = true).
Proof.
  apply (checkMastery_monotone [mkParams 1.20 (-1.50) 0.25] 3 4).
  - constructor; [simpl; lra|constructor].
  - lra.
Defined.

Lemma trail_snoc (start : R) (history : list ResponseRecord) (stop : R)
    (r : ResponseRecord) :
  trail start history stop -> theta_before r = stop ->
  trail start (history ++ [r]) (theta_after r).
Proof.
  revert start. induction history as [|x history IH]; intros start; simpl.
  - intros -> ->. now split.
  - intros [E H] Hr. split; [exact E|]. now apply IH.
Qed.

Lemma updateLearnerState_history now state question ok rs :
  exists r,
    responseHistory (updateLearnerState now state question ok rs)
    = responseHistory state ++ [r]
    /\ ls_theta (updateLearnerState now state question ok rs) = theta_after r
    /\ theta_before r = ls_theta state.
Proof.
  exists {| rr_questionId := id question; rr_isCorrect := ok; timestamp := now;
            theta_before := ls_theta state;
            theta_after := theta (eapEstimate rs THETA_INITIAL THETA_INITIAL_SD) |}.
  unfold updateLearnerState. cbn [responseHistory ls_theta theta_after theta_before].
  split; [reflexivity|]. split; reflexivity.
Qed.

(** X8.  In every learner state built from [initialiseLearner] by
    [updateLearnerState], the history is a trail of the ability: the first
    record starts at the initial ability -0.780, each record starts at the
    ability the one before it ended with, and the last one ends at the
    current ability; the posterior width is never negative.  An update
    keeps the earlier records and adds one. *)
Theorem learner_history_is_trail (state : LearnerState) :
  learner_reachable state ->
  trail THETA_INITIAL (responseHistory state) (ls_theta state)
  /\ 0 <= thetaSd state
  /\ forall now question isCorrect allResponses,
       exists r,
         responseHistory (updateLearnerState now state question isCorrect allResponses)
         = responseHistory state ++ [r]
         /\ theta_before r = ls_theta state.
Proof.
  intros Hr. split; [|split].
  - induction Hr as [|now state question ok rs Hr IH]; [reflexivity|].
    destruct (updateLearnerState_history now state question ok rs)
      as (r & E1 & E2 & E3).
    rewrite E1, E2. now apply (trail_snoc _ _ (ls_theta state)).
  - destruct Hr as [|now state question ok rs Hr].
    + cbn. unfold THETA_INITIAL_SD. lra.
    + change (0 <= sd (eapEstimate rs THETA_INITIAL THETA_INITIAL_SD)).
      rewrite eapEstimate_sd. apply sqrt_pos.
  - intros now question ok rs.
    destruct (updateLearnerState_history now state question ok rs)
      as (r & E1 & _ & E3).
    exists r. now split.
Qed.

Lemma learner_history_is_trail_witness :
  learner_reachable (updateLearnerState 1 initialiseLearner Scenario.q002 true [])
  /\ trail THETA_INITIAL
       (responseHistory (updateLearnerState 1 initialiseLearner Scenario.q002 true []))
       (ls_theta (updateLearnerState 1 initialiseLearner Scenario.q002 true [])).
Proof.
  assert (H : learner_reachable
                (updateLearnerState 1 initialiseLearner Scenario.q002 true []))
    by (constructor; constructor).
  split; [exact H|].
  exact (proj1 (learner_history_is_trail _ H)).
Defined.

End EstimatorShape.

(** ** More on Bayesian Knowledge Tracing *)

Section BKTShape.
Import JSNum BKT.

Lemma clamp_range (x : num) :
  max (Fin 0) (min (Fin 1) x) = NaN
  \/ exists r, max (Fin 0) (min (Fin 1) x) = Fin r /\ 0 <= r <= 1.
Proof.
  destruct x as [r| | |]; cbn.
  - right. eexists. split; [reflexivity|]. split.
    + apply Rmax_l.
    + apply Rmax_lub; [lra|apply Rmin_l].
  - right. exists (Rmax 0 1). split; [reflexivity|].
    rewrite Rmax_right by lra. lra.
  - right. exists 0. split; [reflexivity|lra].
  - now left.
Qed.

Lemma geb_fin_true (x : num) (s : R) :
  geb x (Fin s) = true <-> x = PInf \/ exists r, x = Fin r /\ s <= r.
Proof.
  destruct x as [r| | |]; cbn.
  - destruct (Rle_dec s r); split.
    + intros _. right. eauto.
    + reflexivity.
    + discriminate.
    + intros [H|(r' & E & H)]; [discriminate|]. injection E as <-. contradiction.
  - split; [now left|reflexivity].
  - split; [discriminate|]. intros [H|(r & E & _)]; discriminate.
  - split; [discriminate|]. intros [H|(r & E & _)]; discriminate.
Qed.

(** X9.  Whatever its arguments (finite or not, inside the probability
    range or not), [updateBKT] reports the old value unchanged and a new
    value that is either [NaN] or a number of [[0, 1]], never an infinity;
    and it reports mastery exactly when the new value is a number that
    reaches 0.95. *)
Theorem updateBKT_clamped (pl : num) (isCorrect : bool) (ps : BKTParams) :
  pLearned_before (updateBKT pl isCorrect ps) = pl
  /\ (pLearned_after (updateBKT pl isCorrect ps) = NaN
      \/ exists r, pLearned_after (updateBKT pl isCorrect ps) = Fin r /\ 0 <= r <= 1)
  /\ (upd_isMastered (updateBKT pl isCorrect ps) = true
      <-> exists r, pLearned_after (updateBKT pl isCorrect ps) = Fin r /\ 0.95 <= r).
Proof.
  split; [reflexivity|]. unfold updateBKT. cbv zeta. cbn [pLearned_after upd_isMastered].
  match goal with
  | |- context [max (Fin 0) (min (Fin 1) ?X)] =>
      generalize X; intros x
  end.
  split; [apply clamp_range|].
  unfold MASTERY_THRESHOLD. rewrite geb_fin_true.
  split.
  - intros [E|H]; [|exact H].
    destruct (clamp_range x) as [N|(r & Er & _)]; congruence.
  - intros H. now right.
Qed.

Lemma mix_pos (l x y : R) : 0 <= l <= 1 -> 0 < x -> 0 < y -> 0 < l * x + (1 - l) * y.
Proof.
  intros Hl Hx Hy. destruct (Rle_dec l (1 / 2)).
  - assert (0 <= l * x) by (apply Rmult_le_pos; lra).
    assert (0 < (1 - l) * y) by (apply Rmult_lt_0_compat; lra). lra.
  - assert (0 < l * x) by (apply Rmult_lt_0_compat; lra).
    assert (0 <= (1 - l) * y) by (apply Rmult_le_pos; lra). lra.
Qed.

Lemma posterior_real_range (l s g : R) (isCorrect : bool) :
  0 <= l <= 1 -> 0 < s < 1 -> 0 < g < 1 ->
  0 <= posterior_real l s g isCorrect <= 1.
Proof.
  intros Hl Hs Hg. unfold posterior_real.
  destruct isCorrect.
  - assert (Hd : 0 < l * (1 - s) + (1 - l) * g) by (apply mix_pos; lra).
    assert (0 <= l * (1 - s)) by (apply Rmult_le_pos; lra).
    assert (0 <= (1 - l) * g) by (apply Rmult_le_pos; lra).
    split.
    + apply Rmult_le_pos; [assumption|left; now apply Rinv_0_lt_compat].
    + apply Rmult_le_reg_r with (l * (1 - s) + (1 - l) * g); [exact Hd|].
      unfold Rdiv. rewrite Rmult_assoc, Rinv_l by lra. lra.
  - assert (Hd : 0 < l * s + (1 - l) * (1 - g)) by (apply mix_pos; lra).
    assert (0 <= l * s) by (apply Rmult_le_pos; lra).
    assert (0 <= (1 - l) * (1 - g)) by (apply Rmult_le_pos; lra).
    split.
    + apply Rmult_le_pos; [assumption|left; now apply Rinv_0_lt_compat].
    + apply Rmult_le_reg_r with (l * s + (1 - l) * (1 - g)); [exact Hd|].
      unfold Rdiv. rewrite Rmult_assoc, Rinv_l by lra. lra.
Qed.

Lemma updateBKT_real (l : R) (isCorrect : bool) (ps : BKTParams) (t s g : R) :
  valid_bkt ps t s g -> 0 <= l <= 1 ->
  updateBKT (Fin l) isCorrect ps
  = {| pLearned_before := Fin l;
       pLearned_after :=
         Fin (posterior_real l s g isCorrect
              + (1 - posterior_real l s g isCorrect) * t);
       upd_isMastered :=
         IRT.geb (posterior_real l s g isCorrect
                  + (1 - posterior_real l s g isCorrect) * t) 0.95 |}
  /\ t <= posterior_real l s g isCorrect
          + (1 - posterior_real l s g isCorrect) * t <= 1.
Proof.
  intros (ET & ES & EG & Ht & Hs & Hg) Hl.
  pose proof (posterior_real_range l s g isCorrect Hl Hs Hg) as Hp.
  set (post := posterior_real l s g isCorrect) in *.
  assert (Hr : t <= post + (1 - post) * t <= 1).
  { assert (0 <= post * (1 - t)) by (apply Rmult_le_pos; lra).
    assert (0 <= (1 - post) * (1 - t)) by (apply Rmult_le_pos; lra).
    split; lra. }
  split; [|exact Hr].
  assert (Epost : (if isCorrect
                   then div (mul (Fin l) (sub (Fin 1) (pS ps))) (pCorrect (Fin l) ps)
                   else div (mul (Fin l) (pS ps)) (pIncorrect (Fin l) ps))
                  = Fin post).
  { unfold post, posterior_real, pCorrect, pIncorrect. rewrite ES, EG.
    destruct isCorrect; cbn [mul sub add neg].
    - replace (l * (1 + - s)) with (l * (1 - s)) by ring.
      replace (l * (1 - s) + (1 + - l) * g) with (l * (1 - s) + (1 - l) * g) by ring.
      apply div_fin.
      assert (0 < l * (1 - s) + (1 - l) * g) by (apply mix_pos; lra). lra.
    - replace (l * s + (1 + - l) * (1 + - g)) with (l * s + (1 - l) * (1 - g)) by ring.
      apply div_fin.
      assert (0 < l * s + (1 - l) * (1 - g)) by (apply mix_pos; lra). lra. }
  unfold updateBKT. cbv zeta. rewrite Epost, ET. cbn [mul sub add neg].
  replace (post + (1 + - post) * t) with (post + (1 - post) * t) by ring.
  rewrite clamp_fin by lra. reflexivity.
Qed.


Lemma valid_bkt_bkt (l0 t s g : R) :
  0 <= t <= 1 -> 0 < s < 1 -> 0 < g < 1 -> valid_bkt (bkt l0 t s g) t s g.
Proof. intros. unfold valid_bkt, bkt. cbn. repeat split; try reflexivity; lra. Qed.




Lemma practise_snoc (state : KCState) (ps : BKTParams) (answers : list bool)
    (ok : bool) :
  practise state ps (answers ++ [ok]) = updateKCState (practise state ps answers) ok ps.
Proof. unfold practise. now rewrite fold_left_app. Qed.

(** X12.  Driving a KC state through any sequence of responses keeps its
    [kcId], adds the number of responses to [attempts] and the number of
    correct ones to [correct], so [correct <= attempts] is kept; after at
    least one response the mastery flag is exactly
    [pLearned >= 0.95]. *)
Theorem practise_counters
    (state : KCState) (ps : BKTParams) (answers : list bool) :
  kcId (practise state ps answers) = kcId state
  /\ attempts (practise state ps answers) = (attempts state + length answers)%nat
  /\ correct (practise state ps answers)
     = (correct state + length (List.filter (fun ok : bool => ok) answers))%nat
  /\ ((correct state <= attempts state)%nat ->
      (correct (practise state ps answers) <= attempts (practise state ps answers))%nat)
  /\ (answers <> [] ->
      isMastered (practise state ps answers)
      = geb (pLearned (practise state ps answers)) MASTERY_THRESHOLD).
Proof.
  assert (H : kcId (practise state ps answers) = kcId state
              /\ attempts (practise state ps answers)
                 = (attempts state + length answers)%nat
              /\ correct (practise state ps answers)
                 = (correct state
                    + length (List.filter (fun ok : bool => ok) answers))%nat).
  { induction answers as [|ok answers IH] using rev_ind.
    - cbn. repeat split; lia.
    - destruct IH as (I1 & I2 & I3). rewrite practise_snoc.
      cbn [updateKCState kcId attempts correct].
      rewrite List.filter_app, !length_app. cbn [List.filter].
      split; [exact I1|]. split; [cbn [length]; lia|].
      destruct ok; cbn [length]; lia. }
  destruct H as (H1 & H2 & H3). split; [exact H1|]. split; [exact H2|].
  split; [exact H3|]. split.
  - intros Hle. rewrite H2, H3.
    assert (length (List.filter (fun ok : bool => ok) answers) <= length answers)%nat
      by apply List.filter_length_le.
    lia.
  - intros Hne. destruct answers as [|ok answers] using rev_ind; [congruence|].
    rewrite practise_snoc. reflexivity.
Qed.

Lemma list_to_map_keyed {V W : Type} (f : string -> V -> W) (l : list (string * V))
    (k : string) :
  (list_to_map (map (fun e => (fst e, f (fst e) (snd e))) l) : gmap string W) !! k
  = f k <$> ((list_to_map l : gmap string V) !! k).
Proof.
  induction l as [|[k0 v] l IH]; cbn [map list_to_map foldr fst snd].
  - now rewrite !lookup_empty.
  - destruct (decide (k0 = k)) as [->|Hne].
    + now rewrite !lookup_insert_eq.
    + now rewrite !lookup_insert_ne by exact Hne.
Qed.

Lemma DEFAULT_BKT_PARAMS_unmastered :
  Forall (fun e : string * BKTParams => geb (pL0 (snd e)) MASTERY_THRESHOLD = false)
         DEFAULT_BKT_PARAMS_entries.
Proof.
  unfold DEFAULT_BKT_PARAMS_entries, MASTERY_THRESHOLD, bkt.
  repeat constructor; cbn [snd pL0]; apply geb_fin_lt; lra.
Qed.

Lemma list_to_map_lookup_In {V : Type} (l : list (string * V)) (k : string) (v : V) :
  (list_to_map l : gmap string V) !! k = Some v -> In (k, v) l.
Proof.
  induction l as [|[k0 v0] l IH]; cbn [list_to_map foldr].
  - rewrite lookup_empty. discriminate.
  - destruct (decide (k0 = k)) as [->|Hne].
    + rewrite lookup_insert_eq. intros [= ->]. now left.
    + rewrite lookup_insert_ne by exact Hne. intros H. right. now apply IH.
Qed.

(** X13.  [initialiseAllKCs] holds a state for exactly the knowledge
    components of [DEFAULT_BKT_PARAMS], each one the initial state of its
    own key: belief at the component's [pL0], no attempt, nothing correct,
    and not mastered (no default prior reaches 0.95). *)
Theorem initialiseAllKCs_lookup (k : string) :
  initialiseAllKCs !! k = initialiseKC k <$> (DEFAULT_BKT_PARAMS !! k)
  /\ forall st, initialiseAllKCs !! k = Some st ->
       exists ps, DEFAULT_BKT_PARAMS !! k = Some ps
                  /\ kcId st = k /\ pLearned st = pL0 ps
                  /\ attempts st = 0%nat /\ correct st = 0%nat
                  /\ isMastered st = false.
Proof.
  assert (E : initialiseAllKCs !! k = initialiseKC k <$> (DEFAULT_BKT_PARAMS !! k))
    by apply (list_to_map_keyed initialiseKC).
  split; [exact E|]. intros st Hst. rewrite E in Hst.
  destruct (DEFAULT_BKT_PARAMS !! k) as [ps|] eqn:Eps; [|discriminate].
  cbn in Hst. injection Hst as <-. exists ps. split; [reflexivity|].
  cbn [initialiseKC kcId pLearned attempts correct isMastered].
  repeat (split; [reflexivity|]).
  apply list_to_map_lookup_In in Eps.
  pose proof DEFAULT_BKT_PARAMS_unmastered as Hall.
  rewrite List.Forall_forall in Hall. exact (Hall _ Eps).
Qed.

Section SortByFacts.
Context {A : Type} (cmp : A -> A -> num).

Lemma insert_by_In (x y : A) (l : list A) :
  In y (insert_by cmp x l) <-> y = x \/ In y l.
Proof.
  induction l as [|z l IH]; cbn [insert_by].
  - cbn. intuition.
  - destruct (ltb0 (cmp z x)); cbn [In]; [rewrite IH|]; intuition.
Qed.

Lemma sort_by_In (y : A) (l : list A) : In y (sort_by cmp l) <-> In y l.
Proof.
  induction l as [|x l IH]; cbn [sort_by fold_right]; [reflexivity|].
  fold (sort_by cmp l). rewrite insert_by_In, IH. cbn [In]. intuition.
Qed.

Lemma insert_by_length (x : A) (l : list A) :
  length (insert_by cmp x l) = S (length l).
Proof.
  induction l as [|z l IH]; cbn [insert_by]; [reflexivity|].
  destruct (ltb0 (cmp z x)); cbn [length]; [now rewrite IH|reflexivity].
Qed.

Lemma sort_by_length (l : list A) : length (sort_by cmp l) = length l.
Proof.
  induction l as [|x l IH]; cbn [sort_by fold_right]; [reflexivity|].
  fold (sort_by cmp l). now rewrite insert_by_length, IH.
Qed.

(** With a comparator that is the difference of a real key, the head of
    the sorted list carries the least key. *)
Variable key : A -> R.

Lemma insert_by_head_least (x : A) (l : list A) :
  (forall y, In y l -> cmp y x = Fin (key y - key x)) ->
  head_least key l -> head_least key (insert_by cmp x l).
Proof.
  intros Hc Hl. destruct l as [|z l]; cbn [insert_by].
  - intros y [<-|[]]. lra.
  - rewrite (Hc z) by now left. cbn [ltb0].
    destruct (Rlt_dec (key z - key x) 0) as [Hlt|Hge].
    + intros y [<-|Hy]; [lra|].
      apply insert_by_In in Hy. destruct Hy as [->|Hy]; [lra|].
      apply Hl. now right.
    + intros y [<-|Hy]; [lra|].
      assert (key z <= key y) by (apply Hl; exact Hy). lra.
Qed.

Lemma sort_by_head_least (l : list A) :
  (forall x y, In x l -> In y l -> cmp y x = Fin (key y - key x)) ->
  head_least key (sort_by cmp l).
Proof.
  induction l as [|x l IH]; intros Hc; cbn [sort_by fold_right]; [exact I|].
  fold (sort_by cmp l). apply insert_by_head_least.
  - intros y Hy. apply (proj1 (sort_by_In y l)) in Hy.
    apply Hc; [now left|now right].
  - apply IH. intros u v Hu Hv. apply Hc; now right.
Qed.

End SortByFacts.

Lemma getWeakestKC_sorted (kcStates : KCStates) :
  getWeakestKC kcStates
  = hd_error (sort_by (fun a b => sub (pLearned a) (pLearned b))
                      (List.filter (fun s => negb (isMastered s)) (values kcStates))).
Proof.
  unfold getWeakestKC. cbv zeta.
  destruct (List.filter (fun s => negb (isMastered s)) (values kcStates)); reflexivity.
Qed.

(** X14.  [getWeakestKC] returns no state exactly when [isSessionComplete]
    holds, that is when every state is mastered; on an empty record both
    hold.  A state it returns is one of the record and is not mastered. *)
Theorem getWeakestKC_null_iff_complete (kcStates : KCStates) :
  (getWeakestKC kcStates = None <-> isSessionComplete kcStates = true)
  /\ isSessionComplete [] = true
  /\ forall st, getWeakestKC kcStates = Some st ->
       In st (values kcStates) /\ isMastered st = false.
Proof.
  rewrite getWeakestKC_sorted.
  set (un := List.filter (fun s => negb (isMastered s)) (values kcStates)).
  set (srt := sort_by (fun a b => sub (pLearned a) (pLearned b)) un).
  assert (Hlen : length srt = length un) by apply sort_by_length.
  assert (Hin : forall y, In y srt <-> In y un) by (intros y; apply sort_by_In).
  split; [|split; [reflexivity|]].
  - unfold isSessionComplete. rewrite forallb_forall. split.
    + intros Hn s Hs. destruct (isMastered s) eqn:E; [reflexivity|exfalso].
      assert (Hu : In s un) by (apply filter_In; split; [exact Hs|now rewrite E]).
      apply Hin in Hu. destruct srt; [destruct Hu|discriminate].
    + intros Hall. destruct srt as [|h tl] eqn:E; [reflexivity|exfalso].
      assert (Hh : In h un) by (apply Hin; now left).
      apply filter_In in Hh. destruct Hh as [Hh Hm].
      rewrite (Hall h Hh) in Hm. discriminate.
  - intros st Hst. destruct srt as [|h tl] eqn:E; [discriminate|].
    injection Hst as ->.
    assert (Hh : In st un) by (apply Hin; now left).
    apply filter_In in Hh. destruct Hh as [Hh Hm].
    split; [exact Hh|]. now apply negb_true_iff in Hm.
Qed.

(** X15.  When every belief of the record is a finite number,
    [getWeakestKC] returns an unmastered state whose belief is the least
    among the unmastered states. *)
Theorem getWeakestKC_least (kcStates : KCStates) (st : KCState) :
  Forall (fun s => exists r, pLearned s = Fin r) (values kcStates) ->
  getWeakestKC kcStates = Some st ->
  forall s, In s (values kcStates) -> isMastered s = false ->
    exists r r', pLearned st = Fin r /\ pLearned s = Fin r' /\ r <= r'.
Proof.
  intros Hfin Hst s Hs Hm. rewrite getWeakestKC_sorted in Hst.
  set (un := List.filter (fun s => negb (isMastered s)) (values kcStates)) in *.
  rewrite List.Forall_forall in Hfin.
  assert (Hun : forall y, In y un -> pLearned y = Fin (belief y)).
  { intros y Hy. apply filter_In in Hy. destruct Hy as [Hy _].
    destruct (Hfin y Hy) as [r E]. unfold belief. now rewrite E. }
  pose proof (sort_by_head_least (fun a b => sub (pLearned a) (pLearned b)) belief un)
    as Hleast.
  destruct (sort_by (fun a b => sub (pLearned a) (pLearned b)) un) as [|h tl] eqn:E;
    [discriminate|].
  injection Hst as ->.
  assert (Hsu : In s un) by (apply filter_In; split; [exact Hs|now rewrite Hm]).
  assert (Hhu : In st un).
  { apply (sort_by_In (fun a b => sub (pLearned a) (pLearned b))). rewrite E. now left. }
  exists (belief st), (belief s).
  split; [now apply Hun|]. split; [now apply Hun|].
  cbn [head_least] in Hleast. apply Hleast.
  - intros x y Hx Hy. rewrite (Hun x Hx), (Hun y Hy). cbn [sub add neg].
    f_equal.
  - apply (sort_by_In (fun a b => sub (pLearned a) (pLearned b))) in Hsu.
    now rewrite E in Hsu.
Qed.

Lemma three_kcs_weakest :
  getWeakestKC Scenario.three_kcs = Some (Scenario.kc_state "UK_rivers" 0.30 0 false).
Proof.
  unfold getWeakestKC, Scenario.three_kcs, values, Scenario.kc_state.
  cbn [map snd List.filter isMastered negb length Nat.eqb sort_by fold_right
       insert_by pLearned sub add neg ltb0].
  match goal with
  | |- context [Rlt_dec ?x 0] => destruct (Rlt_dec x 0) as [_|N]
  end; [reflexivity|exfalso; lra].
Qed.

Lemma getWeakestKC_least_witness :
  getWeakestKC Scenario.three_kcs = Some (Scenario.kc_state "UK_rivers" 0.30 0 false)
  /\ forall s, In s (values Scenario.three_kcs) -> isMastered s = false ->
       exists r r', pLearned (Scenario.kc_state "UK_rivers" 0.30 0 false) = Fin r
                    /\ pLearned s = Fin r' /\ r <= r'.
Proof.
  assert (Hfin : Forall (fun s => exists r, pLearned s = Fin r)
                        (values Scenario.three_kcs))
    by (repeat constructor; eexists; reflexivity).
  split; [exact three_kcs_weakest|].
  exact (getWeakestKC_least Scenario.three_kcs _ Hfin three_kcs_weakest).
Defined.

Lemma summary_counts (all : list KCState) :
  (length (List.filter isMastered all)
   + length (List.filter (fun s => negb (isMastered s) && (0 <? attempts s)%nat) all)
   <= length all)%nat
  /\ (length all
      <= length (List.filter isMastered all)
         + length (List.filter (fun s => negb (isMastered s) && (0 <? attempts s)%nat) all)
         + length (List.filter (fun s => (attempts s =? 0)%nat) all))%nat
  /\ (length (List.filter isMastered all) = length all <-> forallb isMastered all = true).
Proof.
  induction all as [|s all (IH1 & IH2 & IH3)]; cbn [List.filter length forallb].
  - split; [lia|]. split; [lia|]. split; reflexivity.
  - pose proof (List.filter_length_le isMastered all) as Hle.
    destruct (isMastered s) eqn:Em; cbn [negb andb length].
    + destruct (attempts s =? 0)%nat; cbn [length];
        (split; [lia|]; split; [lia|]);
        (split; [intros H; apply IH3; lia|intros H; apply IH3 in H; lia]).
    + destruct (0 <? attempts s)%nat eqn:E1; destruct (attempts s =? 0)%nat eqn:E2;
        cbn [length];
        try (exfalso; apply Nat.ltb_ge in E1; apply Nat.eqb_neq in E2; lia);
        (split; [lia|]; split; [lia|]);
        (split; [intros H; lia|intros H; discriminate]).
Qed.

Lemma round_percent (m n : nat) :
  (m <= n)%nat -> (0 < n)%nat ->
  exists k : Z,
    round (mul (div (Fin (INR m)) (Fin (INR n))) (Fin 100)) = Fin (IZR k)
    /\ (0 <= k <= 100)%Z.
Proof.
  intros Hmn Hn.
  assert (Hn' : 0 < INR n) by now apply lt_0_INR.
  assert (Hm' : 0 <= INR m <= INR n) by (split; [apply pos_INR|now apply le_INR]).
  rewrite div_fin by lra. cbn [mul round].
  set (y := INR m / INR n * 100).
  assert (Hy : 0 <= y <= 100).
  { unfold y. assert (0 <= INR m / INR n <= 1); [|lra]. split.
    - apply Rmult_le_pos; [lra|left; now apply Rinv_0_lt_compat].
    - apply Rmult_le_reg_r with (INR n); [exact Hn'|].
      unfold Rdiv. rewrite Rmult_assoc, Rinv_l by lra. lra. }
  exists (Int_part (y + 0.5)). split; [reflexivity|].
  destruct (base_Int_part (y + 0.5)) as [Hlo Hhi].
  split.
  - assert (IZR (-1) < IZR (Int_part (y + 0.5))) by lra.
    apply lt_IZR in H. lia.
  - assert (IZR (Int_part (y + 0.5)) < IZR 101) by lra.
    apply lt_IZR in H. lia.
Qed.

(** X16.  In the summary of a record of KC states, [total] is the number
    of states; a state is never counted both as mastered and as in
    progress, and every state is counted at least once
    ([total <= mastered + inProgress + notStarted], a mastered state without
    attempts being counted twice); [mastered = total] exactly when
    [isSessionComplete] holds.  [overallProgress] is [NaN] on an empty record
    and otherwise a whole number between 0 and 100. *)
Theorem getSessionSummary_counts (kcStates : KCStates) :
  total (getSessionSummary kcStates) = length kcStates
  /\ (mastered (getSessionSummary kcStates) + inProgress (getSessionSummary kcStates)
      <= total (getSessionSummary kcStates))%nat
  /\ (total (getSessionSummary kcStates)
      <= mastered (getSessionSummary kcStates) + inProgress (getSessionSummary kcStates)
         + notStarted (getSessionSummary kcStates))%nat
  /\ (mastered (getSessionSummary kcStates) = total (getSessionSummary kcStates)
      <-> isSessionComplete kcStates = true)
  /\ overallProgress (getSessionSummary []) = NaN
  /\ (kcStates = []
      \/ exists k : Z, overallProgress (getSessionSummary kcStates) = Fin (IZR k)
                       /\ (0 <= k <= 100)%Z).
Proof.
  unfold getSessionSummary, isSessionComplete. cbv zeta.
  cbn [total mastered inProgress notStarted overallProgress].
  destruct (summary_counts (values kcStates)) as (H1 & H2 & H3).
  split; [unfold values; now rewrite length_map|].
  split; [exact H1|]. split; [exact H2|]. split; [exact H3|]. split.
  - cbn. destruct (Req_dec_T 0 0) as [_|N]; [reflexivity|now destruct N].
  - destruct kcStates as [|e kcStates]; [now left|right].
    apply round_percent.
    + apply List.filter_length_le.
    + cbn. lia.
Qed.

End BKTShape.

(** ** Elo rating *)

Section EloFacts.
Import Elo.

Lemma pow10_pos (x : R) : 0 < Rpower 10 x.
Proof. unfold Rpower. apply exp_pos. Qed.

Lemma pow10_opp (x : R) : Rpower 10 (- x) = / Rpower 10 x.
Proof. apply Rpower_Ropp. Qed.

Lemma expected_range (p o : R) : 0 < calculateExpectedScore p o < 1.
Proof.
  unfold calculateExpectedScore. pose proof (pow10_pos ((o - p) / 400)) as Hu.
  split.
  - apply Rdiv_lt_0_compat; lra.
  - apply Rmult_lt_reg_r with (1 + Rpower 10 ((o - p) / 400)); [lra|].
    unfold Rdiv. rewrite Rmult_assoc, Rinv_l by lra. lra.
Qed.



End EloFacts.

(** ** Mastery threshold for content sequencing *)

Section MasteryFacts.
Import Mastery.

Lemma accuracy_scaled (c t : R) :
  0 < t -> calculateTopicAccuracy c t * t = 100 * c.
Proof.
  intros Ht. unfold calculateTopicAccuracy.
  destruct (Req_dec_T t 0) as [E|N]; [lra|]. field. exact N.
Qed.

(** X19.  The topic accuracy of [c] correct answers out of [t] questions,
    with [0 <= c <= t], is a percentage in [[0, 100]]; with no question at
    all it is 0 (there is no division by zero). *)
Theorem calculateTopicAccuracy_range (c t : R) :
  0 <= c <= t ->
  0 <= calculateTopicAccuracy c t <= 100
  /\ calculateTopicAccuracy c 0 = 0.
Proof.
  intros Hc. split.
  - destruct (Req_dec_T t 0) as [E|N].
    + unfold calculateTopicAccuracy. destruct (Req_dec_T t 0); [lra|contradiction].
    + assert (Ht : 0 < t) by lra.
      pose proof (accuracy_scaled c t Ht) as E.
      split.
      * apply Rmult_le_reg_r with t; [exact Ht|]. lra.
      * apply Rmult_le_reg_r with t; [exact Ht|]. lra.
  - unfold calculateTopicAccuracy. destruct (Req_dec_T 0 0) as [_|N]; [reflexivity|].
    now destruct N.
Qed.

Lemma calculateTopicAccuracy_range_witness :
  0 <= 8 <= 10
  /\ 0 <= calculateTopicAccuracy 8 10 <= 100
  /\ calculateTopicAccuracy 8 0 = 0.
Proof.
  assert (H : 0 <= 8 <= 10) by lra.
  split; [exact H|]. exact (calculateTopicAccuracy_range 8 10 H).
Defined.

Lemma accuracy_ge (c t k : R) :
  0 < t -> (k <= calculateTopicAccuracy c t <-> k * t <= 100 * c).
Proof.
  intros Ht. rewrite <- (accuracy_scaled c t Ht). split; intros H.
  - apply Rmult_le_compat_r; lra.
  - apply Rmult_le_reg_r with t; assumption.
Qed.

Lemma accuracy_lt (c t k : R) :
  0 < t -> (calculateTopicAccuracy c t < k <-> 100 * c < k * t).
Proof.
  intros Ht. rewrite <- (accuracy_scaled c t Ht). split; intros H.
  - apply Rmult_lt_compat_r; lra.
  - apply Rmult_lt_reg_r with t; assumption.
Qed.

(** The three branches of the decision. *)
Lemma determineNextTopic_cases (acc n : R) :
  (80 <= acc /\ determineNextTopic acc n = "ready_for_next"%string)
  \/ (60 <= acc < 80 /\ 3 <= n /\ determineNextTopic acc n = "skip_to_next"%string)
  \/ ((acc < 60 \/ (acc < 80 /\ n < 3))
      /\ determineNextTopic acc n = "review_current"%string).
Proof.
  unfold determineNextTopic, checkMastery, MASTERY_THRESHOLD.
  destruct (IRT.geb acc (0.8 * 100)) eqn:E80.
  - left. apply geb_true in E80. split; [lra|reflexivity].
  - apply geb_false in E80. right.
    destruct (IRT.geb n 3) eqn:E3; destruct (IRT.geb acc 60) eqn:E60; cbn [andb];
      rewrite ?geb_true, ?geb_false in *.
    + left. split; [lra|]. split; [lra|reflexivity].
    + right. split; [left; lra|reflexivity].
    + right. split; [right; lra|reflexivity].
    + right. split; [left; lra|reflexivity].
Qed.

(** X20.  The sequencing decision in terms of the counts: with [c] correct
    answers out of [t] questions ([0 <= c <= t]) after [n] attempts, the
    learner is ready for the next topic exactly when there is a question
    and at least four fifths are correct; skips to the next topic exactly
    when at least three fifths but fewer than four fifths are correct and
    [n >= 3]; and reviews the current topic in every other case, in
    particular when there is no question. *)
Theorem determineNextTopic_by_counts (c t n : R) :
  0 <= c <= t ->
  (determineNextTopic (calculateTopicAccuracy c t) n = "ready_for_next"%string
   <-> 0 < t /\ 4 * t <= 5 * c)
  /\ (determineNextTopic (calculateTopicAccuracy c t) n = "skip_to_next"%string
      <-> 0 < t /\ 3 * t <= 5 * c < 4 * t /\ 3 <= n)
  /\ (determineNextTopic (calculateTopicAccuracy c t) n = "review_current"%string
      <-> t = 0 \/ 5 * c < 3 * t \/ (5 * c < 4 * t /\ n < 3)).
Proof.
  intros Hc. destruct (Req_dec_T t 0) as [E0|N0].
  - (* no question: the accuracy is 0 *)
    assert (Ea : calculateTopicAccuracy c t = 0)
      by (unfold calculateTopicAccuracy; destruct (Req_dec_T t 0); [reflexivity|contradiction]).
    rewrite Ea.
    destruct (determineNextTopic_cases 0 n) as [[H _]|[[H _]|[_ ->]]]; [lra|lra|].
    split; [|split]; (split; [intros H; try discriminate H|]).
    all: try (left; exact E0).
    all: try reflexivity.
    all: intros; exfalso; lra.
  - assert (Ht : 0 < t) by lra.
    pose proof (accuracy_ge c t 80 Ht) as G80. pose proof (accuracy_lt c t 80 Ht) as L80.
    pose proof (accuracy_ge c t 60 Ht) as G60. pose proof (accuracy_lt c t 60 Ht) as L60.
    destruct (determineNextTopic_cases (calculateTopicAccuracy c t) n)
      as [[H ->]|[[[H1 H2] [Hn ->]]|[H ->]]].
    + apply G80 in H.
      split; [|split]; (split; [intros H'; try discriminate H'|]).
      all: try (split; [exact Ht|lra]).
      all: try reflexivity.
      all: intros; exfalso; lra.
    + apply G60 in H1. apply L80 in H2.
      split; [|split]; (split; [intros H'; try discriminate H'|]).
      all: try (split; [exact Ht|split; [lra|exact Hn]]).
      all: try reflexivity.
      all: intros; exfalso; lra.
    + assert (Hrev : 5 * c < 3 * t \/ (5 * c < 4 * t /\ n < 3)).
      { destruct H as [H|[H Hn]]; [left; apply L60 in H; lra|].
        right. apply L80 in H. split; lra. }
      split; [|split]; (split; [intros H'; try discriminate H'|]).
      all: try (right; exact Hrev).
      all: try reflexivity.
      all: intros; exfalso; lra.
Qed.

Lemma determineNextTopic_by_counts_witness :
  0 <= 7 <= 10
  /\ (determineNextTopic (calculateTopicAccuracy 7 10) 3 = "ready_for_next"%string
      <-> 0 < 10 /\ 4 * 10 <= 5 * 7)
  /\ (determineNextTopic (calculateTopicAccuracy 7 10) 3 = "skip_to_next"%string
      <-> 0 < 10 /\ 3 * 10 <= 5 * 7 < 4 * 10 /\ 3 <= 3)
  /\ (determineNextTopic (calculateTopicAccuracy 7 10) 3 = "review_current"%string
      <-> 10 = 0 \/ 5 * 7 < 3 * 10 \/ (5 * 7 < 4 * 10 /\ 3 < 3)).
Proof.
  assert (H : 0 <= 7 <= 10) by lra.
  split; [exact H|]. exact (determineNextTopic_by_counts 7 10 3 H).
Defined.

End MasteryFacts.

(** ** Session creation *)

Section Creation.
Import Engine.

Lemma default_condition_ok (c : option string) :
  negb (String.eqb (default "adaptive"%string c) "adaptive")
  && negb (String.eqb (default "adaptive"%string c) "static") = false
  <-> c = None \/ c = Some "adaptive"%string \/ c = Some "static"%string.
Proof.
  destruct c as [x|]; simpl.
  - destruct (String.eqb x "adaptive") eqn:Ea; simpl.
    + apply String.eqb_eq in Ea. subst x. split; auto.
    + destruct (String.eqb x "static") eqn:Es; simpl.
      * apply String.eqb_eq in Es. subst x. split; auto.
      * apply String.eqb_neq in Ea, Es. split; [intros H; discriminate H|].
        intros [H|[H|H]]; congruence.
  - split; auto.
Qed.

(** The two outcomes of the creation route. *)
Lemma POST_sessions_effect st now newId req :
  (creatable st newId req
   /\ POST_sessions st now newId req
      = ({| users := users st;
            quizzes := quizzes st;
            db := {| questions := questions (db st);
                     sessions :=
                       <[ newId :=
                            {| s_id := newId;
                               s_userId := userId req;
                               s_quizId := quizId req;
                               s_condition := default "adaptive"%string (condition req);
                               s_startedAt := now;
                               s_completedAt := None;
                               s_theta := IRT.THETA_INITIAL;
                               s_thetaSd := IRT.THETA_INITIAL_SD;
                               s_kcStates := Serialised BKT.initialiseAllKCs |} ]>
                         (sessions (db st));
                     interactions := interactions (db st) |} |},
         {| sr_status := 201;
            sr_body := SessionCreated newId
                         (default "adaptive"%string (condition req))
                         IRT.THETA_INITIAL IRT.THETA_INITIAL_SD
                         "Session created successfully" |}))
  \/ (~ creatable st newId req
      /\ exists msg code,
           POST_sessions st now newId req = (st, sessions_error msg code)
           /\ (code = 400 \/ code = 404 \/ code = 500)%nat).
Proof.
  unfold POST_sessions, creatable. cbv zeta.
  destruct (truthy (userId req)) eqn:Tu; cbn [negb orb].
  2:{ right. split.
      - intros (H & _). apply truthy_true in H. congruence.
      - do 2 eexists. split; [reflexivity|auto]. }
  destruct (truthy (quizId req)) eqn:Tq; cbn [negb orb].
  2:{ right. split.
      - intros (_ & H & _). apply truthy_true in H. congruence.
      - do 2 eexists. split; [reflexivity|auto]. }
  apply truthy_true in Tu, Tq.
  destruct (negb (String.eqb (default "adaptive"%string (condition req)) "adaptive")
            && negb (String.eqb (default "adaptive"%string (condition req)) "static"))
    eqn:Ec.
  { right. split.
    - intros (_ & _ & H & _). apply default_condition_ok in H. congruence.
    - do 2 eexists. split; [reflexivity|auto]. }
  apply default_condition_ok in Ec.
  destruct (bool_decide (userId req ∈ users st)) eqn:Eu; cbn [negb].
  2:{ right. split.
      - intros (_ & _ & _ & H & _). apply bool_decide_eq_false in Eu. contradiction.
      - do 2 eexists. split; [reflexivity|auto]. }
  destruct (bool_decide (quizId req ∈ quizzes st)) eqn:Eqz; cbn [negb].
  2:{ right. split.
      - intros (_ & _ & _ & _ & H & _). apply bool_decide_eq_false in Eqz. contradiction.
      - do 2 eexists. split; [reflexivity|auto]. }
  apply bool_decide_eq_true in Eu, Eqz.
  destruct (sessions (db st) !! newId) as [old|] eqn:Es.
  - right. split.
    + intros (_ & _ & _ & _ & _ & H). discriminate.
    + do 2 eexists. split; [reflexivity|auto].
  - left. split; [repeat split; assumption|reflexivity].
Qed.

(** X21.  The creation route answers 201 exactly when the request names a
    user and a quiz that exist, gives no condition or one of [adaptive] and
    [static], and the generated key is free; in every other case it answers
    400, 404 or 500 with an error body and leaves the whole store as it
    was. *)
Theorem POST_sessions_validation
    (st : Store) (now : Z) (newId : string) (req : SessionRequest) :
  (sr_status (snd (POST_sessions st now newId req)) = 201%nat
   <-> creatable st newId req)
  /\ (sr_status (snd (POST_sessions st now newId req)) = 201%nat
      \/ (fst (POST_sessions st now newId req) = st
          /\ exists msg code,
               snd (POST_sessions st now newId req) = sessions_error msg code
               /\ (code = 400 \/ code = 404 \/ code = 500)%nat)).
Proof.
  destruct (POST_sessions_effect st now newId req)
    as [[Hc ->]|[Hn (msg & code & -> & Hcode)]]; cbn [fst snd sr_status sessions_error].
  - split; [|now left]. split; auto.
  - split.
    + split; [|contradiction]. intros ->. destruct Hcode as [H|[H|H]]; discriminate.
    + right. split; [reflexivity|]. eauto.
Qed.

(** X22.  A created session starts at the self-pilot prior (ability
    -0.780, width 0.543), is not completed, carries the requested condition
    ([adaptive] when none is given), and holds the initial state of every
    default knowledge component; the route adds this one session and changes
    nothing else: users, quizzes, questions, interactions and the other
    sessions stay as they were. *)
Theorem POST_sessions_creates
    (st : Store) (now : Z) (newId : string) (req : SessionRequest) :
  creatable st newId req ->
  exists session,
    sessions (db (fst (POST_sessions st now newId req))) !! newId = Some session
    /\ s_theta session = -0.780
    /\ s_thetaSd session = 0.543
    /\ s_completedAt session = None
    /\ s_userId session = userId req
    /\ s_quizId session = quizId req
    /\ s_condition session = default "adaptive"%string (condition req)
    /\ (forall k, parseKCStates (s_kcStates session) !! k
                  = BKT.initialiseKC k <$> (BKT.DEFAULT_BKT_PARAMS !! k))
    /\ (forall sid, sid <> newId ->
          sessions (db (fst (POST_sessions st now newId req))) !! sid
          = sessions (db st) !! sid)
    /\ users (fst (POST_sessions st now newId req)) = users st
    /\ quizzes (fst (POST_sessions st now newId req)) = quizzes st
    /\ questions (db (fst (POST_sessions st now newId req))) = questions (db st)
    /\ interactions (db (fst (POST_sessions st now newId req))) = interactions (db st)
    /\ snd (POST_sessions st now newId req)
       = {| sr_status := 201;
            sr_body := SessionCreated newId (s_condition session) (-0.780) 0.543
                         "Session created successfully" |}.
Proof.
  intros Hc.
  destruct (POST_sessions_effect st now newId req) as [[_ ->]|[Hn _]];
    [|contradiction].
  cbn [fst snd db sessions users quizzes questions interactions].
  eexists. split; [apply lookup_insert_eq|].
  cbn [s_theta s_thetaSd s_completedAt s_userId s_quizId s_condition s_kcStates
       parseKCStates].
  split; [reflexivity|]. split; [reflexivity|]. split; [reflexivity|].
  split; [reflexivity|]. split; [reflexivity|]. split; [reflexivity|].
  split; [intros k; apply (list_to_map_keyed BKT.initialiseKC)|].
  split; [intros sid Hne; now apply lookup_insert_ne|].
  repeat (split; [reflexivity|]). reflexivity.
Qed.

Lemma seeded_store_creatable : creatable Scenario.seeded_store "s1" Scenario.create_s1.
Proof.
  unfold creatable, Scenario.seeded_store, Scenario.create_s1.
  cbn [userId quizId condition users quizzes db sessions].
  split; [discriminate|]. split; [discriminate|]. split; [now left|].
  split; [now apply elem_of_singleton|]. split; [now apply elem_of_singleton|].
  apply lookup_empty.
Qed.

Lemma POST_sessions_creates_witness :
  creatable Scenario.seeded_store "s1" Scenario.create_s1
  /\ exists session,
       sessions (db (fst (POST_sessions Scenario.seeded_store 1 "s1" Scenario.create_s1)))
         !! "s1"%string = Some session
       /\ s_theta session = -0.780
       /\ s_condition session = "adaptive"%string.
Proof.
  split; [exact seeded_store_creatable|].
  destruct (POST_sessions_creates Scenario.seeded_store 1 "s1" Scenario.create_s1
              seeded_store_creatable)
    as (session & H1 & H2 & _ & _ & _ & _ & H7 & _).
  exists session. split; [exact H1|]. split; [exact H2|exact H7].
Defined.

End Creation.

(** ** More on the two session routes *)

Section RouteShape.
Import Engine.

(** What the next-question route answers, case by case: a refusal and
    its reason, the completion of the session, or a question. *)
Lemma GET_next_question_cases db now sid :
  (exists msg code,
      GET_next_question db now sid = (db, json_error msg code)
      /\ (code = 400 \/ code = 404)%nat
      /\ (sessions db !! sid = None
          \/ (exists session t,
                 sessions db !! sid = Some session /\ s_completedAt session = Some t)
          \/ (exists session,
                 sessions db !! sid = Some session
                 /\ findQuestions db (s_quizId session) = [])
          \/ (exists session,
                 sessions db !! sid = Some session
                 /\ (length (answeredIds db sid)
                     < length (findQuestions db (s_quizId session)))%nat
                 /\ forall q, In q (findQuestions db (s_quizId session)) ->
                              In (q_id q) (answeredIds db sid))))
  \/ (exists session,
         sessions db !! sid = Some session
         /\ s_completedAt session = None
         /\ findQuestions db (s_quizId session) <> []
         /\ (length (findQuestions db (s_quizId session))
             <= length (answeredIds db sid))%nat
         /\ status (snd (GET_next_question db now sid)) = 200%nat
         /\ is_completed_payload (snd (GET_next_question db now sid)))
  \/ (exists session q,
         sessions db !! sid = Some session
         /\ s_completedAt session = None
         /\ (length (answeredIds db sid)
             < length (findQuestions db (s_quizId session)))%nat
         /\ In q (map toIRTQuestion (findQuestions db (s_quizId session)))
         /\ ~ In (IRT.id q) (answeredIds db sid)
         /\ GET_next_question db now sid
            = (db,
               json_ok
                 (QuestionBody (IRT.id q) (IRT.text q) (IRT.options q)
                    (IRT.bloom q) (IRT.kc q)
                    {| currentTheta := s_theta session;
                       itemDifficulty := IRT.b (IRT.irt q);
                       meta_itemInformation :=
                         round3 (IRT.itemInformation (s_theta session) (IRT.irt q));
                       questionsAnswered := length (answeredIds db sid);
                       questionsRemaining :=
                         length (findQuestions db (s_quizId session))
                         - length (answeredIds db sid);
                       meta_condition := s_condition session |}))).
Proof.
  unfold GET_next_question.
  destruct (sessions db !! sid) as [session|] eqn:Es;
    [|left; do 2 eexists; split; [reflexivity|]; split; [auto|now left]].
  destruct (s_completedAt session) as [t|] eqn:Ec;
    [left; do 2 eexists; split; [reflexivity|]; split; [auto|right; left; eauto]|].
  destruct (Nat.eqb (length (findQuestions db (s_quizId session))) 0) eqn:E0.
  { left. do 2 eexists. split; [reflexivity|]. split; [auto|].
    right. right. left. exists session. split; [reflexivity|].
    apply Nat.eqb_eq in E0. now apply length_zero_iff_nil. }
  apply Nat.eqb_neq in E0.
  fold (answeredIds db sid).
  destruct (length (findQuestions db (s_quizId session)) <=? length (answeredIds db sid))%nat
    eqn:El.
  - right. left. exists session. apply Nat.leb_le in El.
    split; [reflexivity|]. split; [exact Ec|].
    split; [intros E; rewrite E in E0; now apply E0|].
    split; [exact El|]. split; [reflexivity|exact I].
  - apply Nat.leb_gt in El.
    set (qs := map toIRTQuestion (findQuestions db (s_quizId session))).
    set (sel := if String.eqb (s_condition session) "adaptive"
                then IRT.selectNextQuestion qs
                       {| IRT.targetTheta := s_theta session;
                          IRT.excludeIds := answeredIds db sid;
                          IRT.bloomLevel := None |}
                else hd_error
                       (List.filter
                          (fun q => negb (existsb (String.eqb (IRT.id q))
                                                  (answeredIds db sid))) qs)).
    assert (Hfilter : List.filter
                        (IRT.eligible
                           {| IRT.targetTheta := s_theta session;
                              IRT.excludeIds := answeredIds db sid;
                              IRT.bloomLevel := None |}) qs
                      = List.filter
                          (fun q => negb (existsb (String.eqb (IRT.id q))
                                                  (answeredIds db sid))) qs).
    { apply filter_ext. intros q. unfold IRT.eligible.
      cbn [IRT.excludeIds IRT.bloomLevel]. apply andb_true_r. }
    assert (Hsome : forall q, sel = Some q ->
              In q qs /\ ~ In (IRT.id q) (answeredIds db sid)).
    { intros q Hs.
      assert (Hin : In q (List.filter
                            (fun q => negb (existsb (String.eqb (IRT.id q))
                                                    (answeredIds db sid))) qs)).
      { unfold sel in Hs. destruct (String.eqb (s_condition session) "adaptive").
        - apply selectNextQuestion_Some_first_argmax in Hs.
          destruct Hs as (l1 & l2 & E & _). rewrite <- Hfilter, E.
          apply in_or_app. right. now left.
        - destruct (List.filter _ qs) as [|h tl]; [discriminate|].
          injection Hs as ->. now left. }
      apply filter_In in Hin. destruct Hin as [Hin Hex].
      split; [exact Hin|]. intros Ha. apply negb_true_iff in Hex.
      assert (existsb (String.eqb (IRT.id q)) (answeredIds db sid) = true).
      { apply existsb_exists. exists (IRT.id q). split; [exact Ha|apply String.eqb_refl]. }
      congruence. }
    assert (Hnone : sel = None ->
              forall q, In q (findQuestions db (s_quizId session)) ->
                        In (q_id q) (answeredIds db sid)).
    { intros Hs q Hq.
      assert (Hnil : List.filter
                       (fun q => negb (existsb (String.eqb (IRT.id q))
                                               (answeredIds db sid))) qs = []).
      { unfold sel in Hs. destruct (String.eqb (s_condition session) "adaptive").
        - rewrite <- Hfilter. now apply selectNextQuestion_None_filter.
        - destruct (List.filter _ qs); [reflexivity|discriminate]. }
      destruct (existsb (String.eqb (q_id q)) (answeredIds db sid)) eqn:Ex.
      - apply existsb_exists in Ex. destruct Ex as (x & Hx & E).
        apply String.eqb_eq in E. now subst x.
      - exfalso.
        assert (Hin : In (toIRTQuestion q)
                         (List.filter
                            (fun q => negb (existsb (String.eqb (IRT.id q))
                                                    (answeredIds db sid))) qs)).
        { apply filter_In. split; [now apply in_map|].
          cbn [toIRTQuestion IRT.id]. now rewrite Ex. }
        rewrite Hnil in Hin. destruct Hin. }
    fold qs. fold sel. destruct sel as [q|] eqn:Eq.
    + right. right. exists session, q. destruct (Hsome q eq_refl) as [Hin Hn].
      split; [reflexivity|]. split; [exact Ec|]. split; [exact El|].
      split; [exact Hin|]. split; [exact Hn|reflexivity].
    + left. do 2 eexists. split; [reflexivity|]. split; [auto|].
      right. right. right. exists session. split; [reflexivity|].
      split; [exact El|]. now apply Hnone.
Qed.

(** What the answer route answers when it refuses. *)
Lemma POST_answer_refusal db now newId sid req :
  status (snd (POST_answer db now newId sid req)) <> 200%nat ->
  exists msg code, POST_answer db now newId sid req = (db, json_error msg code).
Proof.
  intros Hs.
  destruct (POST_answer_effect db now newId sid req)
    as [[E (msg & st & E' & _)]|(s & q & i & s' & H)].
  - exists msg, st. rewrite <- E at 2. rewrite <- E'. apply surjective_pairing.
  - exfalso. apply Hs. tauto.
Qed.

(** X23.  A call of either session route that does not answer 200 answers
    with an error body and leaves the store exactly as it was. *)
Theorem routes_refusals_leave_store (now : Z) (op : Op) (db : DB) :
  status (snd (run now op db)) <> 200%nat ->
  fst (run now op db) = db
  /\ exists msg, body (snd (run now op db)) = ErrorBody msg.
Proof.
  destruct op as [sid|newId sid req]; cbn [run]; intros Hs.
  - destruct (GET_next_question_cases db now sid)
      as [(msg & code & E & _)|[(s & _ & _ & _ & _ & H & _)|(s & q & _ & _ & _ & _ & _ & E)]].
    + rewrite E. cbn. eauto.
    + contradiction.
    + rewrite E in Hs. cbn in Hs. now destruct Hs.
  - destruct (POST_answer_refusal db now newId sid req Hs) as (msg & code & E).
    rewrite E. cbn. eauto.
Qed.

Lemma routes_refusals_leave_store_witness :
  status (snd (run 1 (OpNext "none") Scenario.fresh_db)) <> 200%nat
  /\ fst (run 1 (OpNext "none") Scenario.fresh_db) = Scenario.fresh_db
  /\ exists msg, body (snd (run 1 (OpNext "none") Scenario.fresh_db)) = ErrorBody msg.
Proof.
  assert (E : run 1 (OpNext "none") Scenario.fresh_db
              = (Scenario.fresh_db, json_error "Session not found" 404)).
  { cbn [run]. unfold GET_next_question.
    assert (El : sessions Scenario.fresh_db !! "none"%string = None)
      by (apply lookup_singleton_ne; discriminate).
    now rewrite El. }
  assert (H : status (snd (run 1 (OpNext "none") Scenario.fresh_db)) <> 200%nat)
    by (rewrite E; cbn; discriminate).
  split; [exact H|].
  exact (routes_refusals_leave_store 1 (OpNext "none") Scenario.fresh_db H).
Defined.

Lemma sessionInteractions_app db ss i sid :
  sessionInteractions
    {| questions := questions db; sessions := ss;
       interactions := interactions db ++ [i] |} sid
  = sessionInteractions db sid
    ++ (if String.eqb (i_sessionId i) sid then [i] else []).
Proof.
  unfold sessionInteractions. cbn [interactions].
  rewrite List.filter_app. cbn [List.filter].
  now destruct (String.eqb (i_sessionId i) sid).
Qed.

(** X24.  A call of either session route touches one session only: the
    row and the interactions of every other session, and the table of
    questions, are left as they were. *)
Theorem routes_touch_one_session (now : Z) (op : Op) (db : DB) (sid : string) :
  sid <> op_session op ->
  sessions (fst (run now op db)) !! sid = sessions db !! sid
  /\ sessionInteractions (fst (run now op db)) sid = sessionInteractions db sid
  /\ questions (fst (run now op db)) = questions db.
Proof.
  intros Hne. split; [|split; [|apply run_questions]].
  - destruct op as [sid0|newId sid0 req]; cbn [run op_session] in *.
    + destruct (GET_next_question_effect db now sid0)
        as [[-> _]|(s0 & _ & _ & _ & ->)]; [reflexivity|].
      cbn [fst sessions]. now apply lookup_insert_ne.
    + destruct (POST_answer_effect db now newId sid0 req)
        as [[-> _]|(s0 & q & i & s' & _ & _ & _ & _ & _ & _ & _ & -> & _)];
        [reflexivity|].
      cbn [sessions]. now apply lookup_insert_ne.
  - destruct op as [sid0|newId sid0 req]; cbn [run op_session] in *.
    + destruct (GET_next_question_effect db now sid0)
        as [[-> _]|(s0 & _ & _ & _ & ->)]; reflexivity.
    + destruct (POST_answer_effect db now newId sid0 req)
        as [[-> _]|(s0 & q & i & s' & _ & _ & _ & _ & _ & _ & _ & -> & _ & _ & Hs & _)];
        [reflexivity|].
      rewrite sessionInteractions_app, Hs.
      destruct (String.eqb sid0 sid) eqn:E; [|apply app_nil_r].
      apply String.eqb_eq in E. congruence.
Qed.

Lemma routes_touch_one_session_witness :
  "s2"%string <> op_session (OpAnswer "i1" "s1" Scenario.answer_C)
  /\ sessions (fst (run 3 (OpAnswer "i1" "s1" Scenario.answer_C) Scenario.fresh_db))
       !! "s2"%string
     = sessions Scenario.fresh_db !! "s2"%string
  /\ sessionInteractions
       (fst (run 3 (OpAnswer "i1" "s1" Scenario.answer_C) Scenario.fresh_db)) "s2"
     = sessionInteractions Scenario.fresh_db "s2"
  /\ questions (fst (run 3 (OpAnswer "i1" "s1" Scenario.answer_C) Scenario.fresh_db))
     = questions Scenario.fresh_db.
Proof.
  assert (H : "s2"%string <> op_session (OpAnswer "i1" "s1" Scenario.answer_C))
    by discriminate.
  split; [exact H|].
  exact (routes_touch_one_session 3 (OpAnswer "i1" "s1" Scenario.answer_C)
           Scenario.fresh_db "s2" H).
Defined.

Lemma upper_ascii_idempotent (ch : ascii) :
  upper_ascii (upper_ascii ch) = upper_ascii ch.
Proof. destruct ch as [[] [] [] [] [] [] [] []]; reflexivity. Qed.

Lemma toUpperCase_idempotent (s : string) :
  toUpperCase (toUpperCase s) = toUpperCase s.
Proof.
  induction s as [|ch s IH]; cbn [toUpperCase]; [reflexivity|].
  now rewrite upper_ascii_idempotent, IH.
Qed.

Lemma truthy_toUpperCase (s : string) : truthy (toUpperCase s) = truthy s.
Proof. destruct s; reflexivity. Qed.

(** X25.  The answer route is insensitive to the case of the label: a
    request and the same request with its label upper-cased have the same
    effect on the store and the same response, whatever the store.  The
    label it stores and echoes is already upper-case. *)
Theorem POST_answer_case_insensitive
    (db : DB) (now : Z) (newId sid : string) (req : AnswerRequest) :
  POST_answer db now newId sid (upper_request req) = POST_answer db now newId sid req
  /\ toUpperCase (toUpperCase (selectedAnswer req)) = toUpperCase (selectedAnswer req).
Proof.
  split; [|apply toUpperCase_idempotent].
  unfold POST_answer, upper_request. cbn [questionId selectedAnswer responseTimeMs].
  rewrite truthy_toUpperCase, toUpperCase_idempotent. reflexivity.
Qed.

End RouteShape.

(** ** Questions served and sessions completed *)

Section Serving.
Import Engine.

Section OrderByFacts.
Context {A : Type} (key : A -> Z).

Lemma order_insert_Permutation (x : A) (l : list A) :
  Permutation (order_insert key x l) (x :: l).
Proof.
  induction l as [|y l IH]; cbn [order_insert]; [reflexivity|].
  destruct (key y <=? key x)%Z; [|reflexivity].
  rewrite IH. apply perm_swap.
Qed.

Lemma orderBy_Permutation (l : list A) : Permutation (orderBy key l) l.
Proof.
  induction l as [|x l IH]; cbn [orderBy fold_right]; [reflexivity|].
  fold (orderBy key l). rewrite order_insert_Permutation. now constructor.
Qed.

Lemma orderBy_In (x : A) (l : list A) : In x (orderBy key l) <-> In x l.
Proof.
  split; apply Permutation_in;
    [apply orderBy_Permutation|symmetry; apply orderBy_Permutation].
Qed.

End OrderByFacts.

(** The row as the queries return it: the same columns, the options in
    order. *)
Lemma findQuestions_In db quizId r :
  In r (findQuestions db quizId)
  <-> exists q0, In q0 (questions db) /\ q_quizId q0 = quizId
                 /\ r = {| q_id := q_id q0; q_text := q_text q0; q_order := q_order q0;
                           irt_a := irt_a q0; irt_b := irt_b q0; irt_c := irt_c q0;
                           q_bloom := q_bloom q0; q_kc := q_kc q0;
                           q_quizId := q_quizId q0;
                           q_options := orderBy o_order (q_options q0) |}.
Proof.
  unfold findQuestions. rewrite orderBy_In, in_map_iff. split.
  - intros (q0 & E & Hq). apply filter_In in Hq. destruct Hq as [Hq Hz].
    apply String.eqb_eq in Hz. exists q0. auto.
  - intros (q0 & Hq & Hz & E). exists q0. split; [now symmetry|].
    apply filter_In. split; [exact Hq|]. now apply String.eqb_eq.
Qed.

Lemma findQuestion_In db qid r :
  findQuestion db qid = Some r ->
  q_id r = qid /\ In r (findQuestions db (q_quizId r))
  /\ exists q0, In q0 (questions db)
                /\ irt_a r = irt_a q0 /\ irt_b r = irt_b q0 /\ irt_c r = irt_c q0.
Proof.
  unfold findQuestion. intros H.
  destruct (List.find (fun q => String.eqb (q_id q) qid) (questions db)) as [q0|] eqn:E;
    [|discriminate].
  cbn in H. injection H as <-. apply find_some in E. destruct E as [Hq Hid].
  apply String.eqb_eq in Hid. cbn [q_id q_quizId irt_a irt_b irt_c].
  split; [exact Hid|]. split.
  - apply findQuestions_In. exists q0. auto.
  - exists q0. auto.
Qed.

(** X26.  A question the next-question route serves has not been answered
    in the session and is a question of the session's quiz, with its own
    text; the session is active and the store is left as it was; the
    counters of the response add up to the number of questions of the quiz,
    with at least one question remaining. *)
Theorem GET_next_question_serves
    (db : DB) (now : Z) (sid qid text : string) (opts : list (string * string))
    (bl : nat) (kc : string) (meta : Meta) :
  body (snd (GET_next_question db now sid)) = QuestionBody qid text opts bl kc meta ->
  fst (GET_next_question db now sid) = db
  /\ status (snd (GET_next_question db now sid)) = 200%nat
  /\ ~ In qid (answeredIds db sid)
  /\ exists session q,
       sessions db !! sid = Some session
       /\ s_completedAt session = None
       /\ In q (questions db)
       /\ q_id q = qid /\ q_text q = text /\ q_quizId q = s_quizId session
       /\ questionsAnswered meta = length (answeredIds db sid)
       /\ (questionsAnswered meta + questionsRemaining meta
           = length (findQuestions db (s_quizId session)))%nat
       /\ (0 < questionsRemaining meta)%nat.
Proof.
  intros Hb.
  destruct (GET_next_question_cases db now sid)
    as [(msg & code & E & _)
       |[(s & _ & _ & _ & _ & _ & Hp)
        |(session & q & Es & Ec & Hlt & Hin & Hn & E)]].
  - rewrite E in Hb. discriminate.
  - unfold is_completed_payload in Hp. rewrite Hb in Hp. destruct Hp.
  - rewrite E in Hb |- *. cbn [fst snd body status json_ok] in *.
    injection Hb as <- <- <- <- <- <-.
    split; [reflexivity|]. split; [reflexivity|]. split; [exact Hn|].
    apply in_map_iff in Hin. destruct Hin as (r & <- & Hr).
    apply findQuestions_In in Hr. destruct Hr as (q0 & Hq0 & Hz & ->).
    exists session, q0. cbn [toIRTQuestion IRT.id IRT.text q_id q_text
                             questionsAnswered questionsRemaining].
    repeat (split; [first [reflexivity|assumption]|]). lia.
Qed.

Lemma static_db_first :
  GET_next_question Scenario.static_db 1 "s1"
  = (Scenario.static_db,
     json_ok
       (QuestionBody "q-001"
          "Which county is home to the Peak District National Park?"
          [("A", "Derbyshire"); ("B", "Yorkshire"); ("C", "Lancashire");
           ("D", "Staffordshire")]%string
          1 "UK_national_parks"
          {| currentTheta := IRT.THETA_INITIAL;
             itemDifficulty := -0.80;
             meta_itemInformation :=
               round3 (IRT.itemInformation IRT.THETA_INITIAL
                         (IRT.mkParams 0.85 (-0.80) 0.25));
             questionsAnswered := 0;
             questionsRemaining := 5;
             meta_condition := "static" |})).
Proof.
  unfold GET_next_question.
  assert (E : sessions Scenario.static_db !! "s1"%string
              = Some {| s_id := "s1"; s_userId := "u1"; s_quizId := seedQuizId;
                        s_condition := "static"; s_startedAt := 0;
                        s_completedAt := None;
                        s_theta := IRT.THETA_INITIAL;
                        s_thetaSd := IRT.THETA_INITIAL_SD;
                        s_kcStates := Serialised BKT.initialiseAllKCs |})
    by apply lookup_singleton_eq.
  rewrite E. cbn [s_completedAt s_quizId s_condition s_theta].
  change (findQuestions Scenario.static_db seedQuizId) with questionsData.
  change (sessionInteractions Scenario.static_db "s1") with (@nil InteractionRow).
  reflexivity.
Qed.

Lemma GET_next_question_serves_witness :
  fst (GET_next_question Scenario.static_db 1 "s1") = Scenario.static_db
  /\ status (snd (GET_next_question Scenario.static_db 1 "s1")) = 200%nat
  /\ ~ In "q-001"%string (answeredIds Scenario.static_db "s1").
Proof.
  assert (Hb : body (snd (GET_next_question Scenario.static_db 1 "s1"))
               = QuestionBody "q-001"
                   "Which county is home to the Peak District National Park?"
                   [("A", "Derbyshire"); ("B", "Yorkshire"); ("C", "Lancashire");
                    ("D", "Staffordshire")]%string
                   1 "UK_national_parks"
                   {| currentTheta := IRT.THETA_INITIAL;
                      itemDifficulty := -0.80;
                      meta_itemInformation :=
                        round3 (IRT.itemInformation IRT.THETA_INITIAL
                                  (IRT.mkParams 0.85 (-0.80) 0.25));
                      questionsAnswered := 0;
                      questionsRemaining := 5;
                      meta_condition := "static" |})
    by (rewrite static_db_first; reflexivity).
  destruct (GET_next_question_serves _ _ _ _ _ _ _ _ _ Hb) as (H1 & H2 & H3 & _).
  split; [exact H1|]. split; [exact H2|exact H3].
Defined.

Lemma NoDup_map_filter {A B : Type} (f : A -> B) (p : A -> bool) (l : list A) :
  List.NoDup (map f l) -> List.NoDup (map f (List.filter p l)).
Proof.
  induction l as [|x l IH]; cbn [map List.filter]; intros H; [constructor|].
  apply List.NoDup_cons_iff in H. destruct H as [Hx Hl].
  destruct (p x); cbn [map]; [|now apply IH].
  apply List.NoDup_cons_iff. split; [|now apply IH].
  intros Hin. apply Hx. apply in_map_iff in Hin. destruct Hin as (y & E & Hy).
  apply filter_In in Hy. apply in_map_iff. exists y. tauto.
Qed.

Lemma findQuestions_NoDup db quizId :
  unique_question_ids db -> List.NoDup (map q_id (findQuestions db quizId)).
Proof.
  unfold unique_question_ids, findQuestions. intros H. apply NoDup_ListNoDup in H.
  eapply Permutation_NoDup.
  - apply Permutation_map. symmetry. apply orderBy_Permutation.
  - rewrite map_map. cbn [q_id]. now apply NoDup_map_filter.
Qed.

(** X27.  When question ids are unique (the primary key of the table), an
    active session on a quiz that has questions always gets an answer with
    status 200 from the next-question route: the completion of the session
    when it has at least as many interactions as the quiz has questions, a
    question otherwise.  The refusal "No eligible questions remaining" does
    not occur. *)
Theorem GET_next_question_progress
    (db : DB) (now : Z) (sid : string) (session : SessionRow) :
  unique_question_ids db ->
  sessions db !! sid = Some session ->
  s_completedAt session = None ->
  findQuestions db (s_quizId session) <> [] ->
  status (snd (GET_next_question db now sid)) = 200%nat
  /\ (is_completed_payload (snd (GET_next_question db now sid))
      <-> (length (findQuestions db (s_quizId session))
           <= length (answeredIds db sid))%nat).
Proof.
  intros Hu Es Ec Hne.
  destruct (GET_next_question_cases db now sid)
    as [(msg & code & E & _ & Hwhy)
       |[(s & Es' & _ & _ & Hle & Hst & Hp)
        |(s & q & Es' & _ & Hlt & _ & _ & E)]].
  - exfalso. destruct Hwhy as [H|[(s & t & Es' & H)|[(s & Es' & H)|(s & Es' & Hlt & Hall)]]].
    + congruence.
    + congruence.
    + assert (s = session) by congruence. subst s. contradiction.
    + assert (s = session) by congruence. subst s.
      assert (Hincl : incl (map q_id (findQuestions db (s_quizId session)))
                           (answeredIds db sid)).
      { intros x Hx. apply in_map_iff in Hx. destruct Hx as (r & <- & Hr).
        now apply Hall. }
      pose proof (NoDup_incl_length (findQuestions_NoDup db _ Hu) Hincl) as Hlen.
      rewrite length_map in Hlen. lia.
  - assert (s = session) by congruence. subst s.
    split; [exact Hst|]. split; auto.
  - assert (s = session) by congruence. subst s.
    rewrite E. cbn [snd status json_ok]. split; [reflexivity|].
    unfold is_completed_payload. cbn [body]. split; [intros []|lia].
Qed.

Lemma GET_next_question_progress_witness :
  unique_question_ids Scenario.fresh_db
  /\ status (snd (GET_next_question Scenario.fresh_db 1 "s1")) = 200%nat.
Proof.
  assert (Hu : unique_question_ids Scenario.fresh_db).
  { unfold unique_question_ids. apply NoDup_ListNoDup. cbn.
    repeat (apply List.NoDup_cons; [cbn; intuition discriminate|]).
    apply List.NoDup_nil. }
  assert (Es : sessions Scenario.fresh_db !! "s1"%string
               = Some (Scenario.session_s1 None))
    by apply lookup_singleton_eq.
  assert (Hne : findQuestions Scenario.fresh_db (s_quizId (Scenario.session_s1 None)) <> []).
  { change (findQuestions Scenario.fresh_db (s_quizId (Scenario.session_s1 None)))
      with questionsData. discriminate. }
  split; [exact Hu|].
  exact (proj1 (GET_next_question_progress Scenario.fresh_db 1 "s1" _ Hu Es eq_refl Hne)).
Defined.

Lemma answeredIds_incl db sid session :
  consistent db -> sessions db !! sid = Some session ->
  incl (answeredIds db sid) (map q_id (findQuestions db (s_quizId session))).
Proof.
  intros Hc Es x Hx. unfold answeredIds in Hx. apply in_map_iff in Hx.
  destruct Hx as (i & <- & Hi). apply sessionInteractions_In in Hi.
  destruct Hi as [Hi Hsid]. destruct (Hc i Hi) as (s & q & Es' & Eq & Ez).
  rewrite Hsid in Es'. assert (s = session) by congruence. subst s.
  apply findQuestion_In in Eq. destruct Eq as (Eid & Hin & _).
  rewrite Ez in Hin. apply in_map_iff. exists q. auto.
Qed.

(** X28.  In every store the two session routes can reach, a session never
    has more interactions than its quiz has questions; and when the
    next-question route completes a session, every question of the quiz has
    been answered in it. *)
Theorem completion_means_all_answered
    (db : DB) (sid : string) (session : SessionRow) :
  reachable db ->
  sessions db !! sid = Some session ->
  (length (answeredIds db sid) <= length (findQuestions db (s_quizId session)))%nat
  /\ forall now,
       is_completed_payload (snd (GET_next_question db now sid)) ->
       forall q, In q (findQuestions db (s_quizId session)) ->
                 In (q_id q) (answeredIds db sid).
Proof.
  intros Hr Es. destruct (reachable_invariant db Hr) as [Hnd Hc].
  pose proof (answeredIds_incl db sid session Hc Es) as Hincl.
  assert (Hlen : (length (answeredIds db sid)
                  <= length (findQuestions db (s_quizId session)))%nat).
  { rewrite <- (length_map q_id).
    apply NoDup_incl_length; [apply NoDup_ListNoDup, Hnd|exact Hincl]. }
  split; [exact Hlen|].
  intros now Hp q Hq.
  destruct (GET_next_question_effect db now sid) as [[_ Hn]|(s & Es' & _ & Hle & _)];
    [contradiction|].
  assert (s = session) by congruence. subst s.
  assert (Hback : incl (map q_id (findQuestions db (s_quizId session)))
                       (answeredIds db sid)).
  { apply NoDup_length_incl; [apply NoDup_ListNoDup, Hnd| |exact Hincl].
    rewrite length_map. lia. }
  apply Hback. now apply in_map.
Qed.

Lemma completion_means_all_answered_witness :
  reachable Scenario.last_db
  /\ (length (answeredIds Scenario.last_db "s1")
      <= length (findQuestions Scenario.last_db (s_quizId (Scenario.session_s1 None))))%nat.
Proof.
  assert (Hr : reachable Scenario.last_db).
  { constructor.
    - intros sid. unfold answeredIds, sessionInteractions, Scenario.last_db.
      cbn [interactions List.filter i_sessionId].
      destruct (String.eqb "s1" sid); cbn [map];
        [apply NoDup_singleton|apply NoDup_nil_2].
    - intros i [<-|[]]. exists (Scenario.session_s1 None). eexists.
      split; [apply lookup_singleton_eq|]. split; reflexivity. }
  assert (Es : sessions Scenario.last_db !! "s1"%string
               = Some (Scenario.session_s1 None))
    by apply lookup_singleton_eq.
  split; [exact Hr|].
  exact (proj1 (completion_means_all_answered Scenario.last_db "s1" _ Hr Es)).
Defined.

End Serving.

(** ** The life of a store under the three routes *)

Section StoreLife.
Import Engine.

(** What a successful answer writes: the new ability is the estimate over
    the session's earlier responses and the new one, and the interaction
    records the step from the old ability to the new one. *)
Lemma POST_answer_estimates db now newId sid req :
  status (snd (POST_answer db now newId sid req)) = 200%nat ->
  exists session question prev (ok : bool) i s',
    sessions db !! sid = Some session
    /\ findQuestion db (questionId req) = Some question
    /\ priorResponses db sid = Some prev
    /\ fst (POST_answer db now newId sid req)
       = {| questions := questions db;
            sessions := <[ sid := s' ]> (sessions db);
            interactions := interactions db ++ [i] |}
    /\ i_sessionId i = sid
    /\ i_theta_before i = s_theta session
    /\ i_theta_after i = s_theta s'
    /\ s_theta s'
       = IRT.theta
           (IRT.eapEstimate
              (prev ++ [ {| IRT.params := {| IRT.a := irt_a question;
                                             IRT.b := irt_b question;
                                             IRT.c := irt_c question |};
                            IRT.isCorrect := ok |} ])
              IRT.THETA_INITIAL IRT.THETA_INITIAL_SD)
    /\ s_thetaSd s'
       = IRT.sd
           (IRT.eapEstimate
              (prev ++ [ {| IRT.params := {| IRT.a := irt_a question;
                                             IRT.b := irt_b question;
                                             IRT.c := irt_c question |};
                            IRT.isCorrect := ok |} ])
              IRT.THETA_INITIAL IRT.THETA_INITIAL_SD).
Proof.
  unfold POST_answer.
  destruct (truthy (questionId req)); cbn [negb orb]; [|intros H; discriminate H].
  destruct (truthy (selectedAnswer req)); cbn [negb orb]; [|intros H; discriminate H].
  destruct (sessions db !! sid) as [session|]; [|intros H; discriminate H].
  destruct (s_completedAt session); [intros H; discriminate H|].
  destruct (findQuestion db (questionId req)) as [question|]; [|intros H; discriminate H].
  destruct (String.eqb (q_quizId question) (s_quizId session)); cbn [negb];
    [|intros H; discriminate H].
  destruct (existsb (fun i => String.eqb (i_questionId i) (questionId req))
                    (sessionInteractions db sid)); [intros H; discriminate H|].
  destruct (priorResponses db sid) as [prev|]; [|intros H; discriminate H].
  intros _.
  match goal with
  | |- context [let '(_, _) := ?X in _] => destruct X as [kcs pla]
  end.
  cbn [fst snd].
  exists session, question, prev.
  eexists. eexists. eexists.
  split; [reflexivity|]. split; [reflexivity|]. split; [reflexivity|].
  split; [reflexivity|].
  cbn [i_sessionId i_theta_before i_theta_after s_theta s_thetaSd].
  split; [reflexivity|]. split; [reflexivity|]. split; [reflexivity|].
  split; reflexivity.
Qed.

Lemma findQuestion_valid db qid question :
  valid_bank db -> findQuestion db qid = Some question ->
  IRT.valid_params {| IRT.a := irt_a question; IRT.b := irt_b question;
                      IRT.c := irt_c question |}.
Proof.
  intros Hv Hq. apply findQuestion_In in Hq.
  destruct Hq as (_ & _ & q0 & Hin & Ea & _ & Ec).
  unfold valid_bank in Hv. rewrite List.Forall_forall in Hv.
  destruct (Hv q0 Hin) as [Ha Hc]. unfold IRT.valid_params. cbn [IRT.a IRT.c].
  rewrite Ea, Ec. auto.
Qed.

Lemma priorResponses_valid db sid prev :
  valid_bank db -> priorResponses db sid = Some prev ->
  Forall (fun r => IRT.valid_params (IRT.params r)) prev.
Proof.
  intros Hv. unfold priorResponses. revert prev.
  induction (sessionInteractions db sid) as [|i l IH]; intros prev Hp.
  - cbn in Hp. injection Hp as <-. constructor.
  - cbn [mapM] in Hp.
    destruct (findQuestion db (i_questionId i)) as [q|] eqn:Eq; cbn in Hp;
      [|discriminate].
    destruct (mapM _ l) as [rest|] eqn:Er; cbn in Hp; [|discriminate].
    injection Hp as <-. constructor.
    + cbn [IRT.params]. now apply (findQuestion_valid db (i_questionId i)).
    + now apply IH.
Qed.

Lemma serve_questions now r st :
  questions (db (serve now r st)) = questions (db st).
Proof.
  destruct r as [newId req|op]; cbn [serve].
  - destruct (POST_sessions_effect st now newId req)
      as [[_ ->]|[_ (msg & code & -> & _)]]; reflexivity.
  - cbn [db]. apply run_questions.
Qed.

Lemma serve_estimates_in_range now r st :
  valid_bank (db st) ->
  (forall sid session, sessions (db st) !! sid = Some session ->
                       estimates_in_range session) ->
  forall sid session, sessions (db (serve now r st)) !! sid = Some session ->
                      estimates_in_range session.
Proof.
  intros Hv Hall sid session.
  destruct r as [newId req|[sid0|newId sid0 req]]; cbn [serve].
  - destruct (POST_sessions_effect st now newId req)
      as [[_ ->]|[_ (msg & code & -> & _)]]; cbn [fst db sessions]; [|apply Hall].
    destruct (decide (newId = sid)) as [->|Hne].
    + rewrite lookup_insert_eq. intros [= <-].
      unfold estimates_in_range, IRT.THETA_INITIAL, IRT.THETA_INITIAL_SD.
      cbn [s_theta s_thetaSd]. lra.
    + rewrite lookup_insert_ne by exact Hne. apply Hall.
  - cbn [db run].
    destruct (GET_next_question_effect (db st) now sid0)
      as [[-> _]|(s0 & Es0 & _ & _ & ->)]; [apply Hall|].
    cbn [fst sessions]. destruct (decide (sid0 = sid)) as [->|Hne].
    + rewrite lookup_insert_eq. intros [= <-]. apply (Hall sid s0 Es0).
    + rewrite lookup_insert_ne by exact Hne. apply Hall.
  - cbn [db run].
    destruct (Nat.eq_dec (status (snd (POST_answer (db st) now newId sid0 req))) 200%nat)
      as [Hok|Hno].
    + destruct (POST_answer_estimates (db st) now newId sid0 req Hok)
        as (s0 & q & prev & ok & i & s' & Es0 & Eq & Ep & -> & _ & _ & _ & Et & Esd).
      cbn [sessions]. destruct (decide (sid0 = sid)) as [->|Hne].
      * rewrite lookup_insert_eq. intros [= <-].
        assert (Hvalid : Forall (fun r => IRT.valid_params (IRT.params r))
                           (prev ++ [ {| IRT.params :=
                                           {| IRT.a := irt_a q; IRT.b := irt_b q;
                                              IRT.c := irt_c q |};
                                         IRT.isCorrect := ok |} ])).
        { apply List.Forall_app. split; [now apply (priorResponses_valid (db st) sid)|].
          constructor; [|constructor]. now apply (findQuestion_valid (db st) (questionId req)). }
        unfold estimates_in_range. rewrite Et, Esd. split.
        -- now apply theta_in_grid.
        -- rewrite eapEstimate_sd. apply sqrt_pos.
      * rewrite lookup_insert_ne by exact Hne. apply Hall.
    + destruct (POST_answer_refusal (db st) now newId sid0 req Hno) as (msg & code & ->).
      apply Hall.
Qed.


Lemma seeded_store_no_sessions : no_sessions Scenario.seeded_store.
Proof. split; reflexivity. Qed.

Lemma seeded_bank_valid : valid_bank (db Scenario.seeded_store).
Proof.
  unfold valid_bank, Scenario.seeded_store, questionsData. cbn [db questions].
  repeat constructor; cbn [irt_a irt_c]; lra.
Qed.


Lemma theta_trail_snoc (start : R) (rows : list InteractionRow) (stop : R)
    (i : InteractionRow) :
  theta_trail start rows stop -> i_theta_before i = stop ->
  theta_trail start (rows ++ [i]) (i_theta_after i).
Proof.
  revert start. induction rows as [|x rows IH]; intros start; cbn [theta_trail app].
  - intros -> ->. now split.
  - intros [E H] Hi. split; [exact E|]. now apply IH.
Qed.

(** The interactions of a session that does not exist, in a consistent
    store. *)
Lemma sessionInteractions_absent d sid :
  consistent d -> sessions d !! sid = None -> sessionInteractions d sid = [].
Proof.
  intros Hc Hs. destruct (sessionInteractions d sid) as [|i l] eqn:E; [reflexivity|].
  exfalso. assert (Hi : In i (sessionInteractions d sid)) by (rewrite E; now left).
  apply sessionInteractions_In in Hi. destruct Hi as [Hi Hsid].
  destruct (Hc i Hi) as (s & _ & Es & _). congruence.
Qed.

Lemma serve_trails now r st :
  consistent (db st) /\ no_duplicate_answers (db st) /\ trails_kept (db st) ->
  consistent (db (serve now r st)) /\ no_duplicate_answers (db (serve now r st))
  /\ trails_kept (db (serve now r st)).
Proof.
  intros (Hc & Hn & Ht).
  destruct r as [newId req|op]; cbn [serve].
  - destruct (POST_sessions_effect st now newId req)
      as [[Hok ->]|[_ (msg & code & -> & _)]]; cbn [fst db]; [|auto].
    destruct Hok as (_ & _ & _ & _ & _ & Hfree).
    split; [|split].
    + intros i Hi. cbn [interactions] in Hi. destruct (Hc i Hi) as (s & q & Es & Eq & Ez).
      exists s, q. split; [|split; [exact Eq|exact Ez]].
      cbn [sessions]. rewrite lookup_insert_ne; [exact Es|]. congruence.
    + exact Hn.
    + intros sid session. cbn [sessions].
      change (sessionInteractions
                {| questions := questions (db st);
                   sessions := <[ newId := _ ]> (sessions (db st));
                   interactions := interactions (db st) |} sid)
        with (sessionInteractions (db st) sid).
      destruct (decide (newId = sid)) as [->|Hne].
      * rewrite lookup_insert_eq. intros [= <-].
        rewrite (sessionInteractions_absent (db st) sid Hc Hfree). reflexivity.
      * rewrite lookup_insert_ne by exact Hne. apply Ht.
  - cbn [db]. split; [now apply run_consistent|].
    split; [now apply run_no_duplicate_answers|].
    destruct op as [sid0|newId sid0 req]; cbn [run].
    + destruct (GET_next_question_effect (db st) now sid0)
        as [[-> _]|(s0 & Es0 & _ & _ & ->)]; [exact Ht|].
      cbn [fst]. intros sid session. cbn [sessions].
      change (sessionInteractions
                {| questions := questions (db st);
                   sessions := <[ sid0 := _ ]> (sessions (db st));
                   interactions := interactions (db st) |} sid)
        with (sessionInteractions (db st) sid).
      destruct (decide (sid0 = sid)) as [->|Hne].
      * rewrite lookup_insert_eq. intros [= <-]. apply (Ht sid s0 Es0).
      * rewrite lookup_insert_ne by exact Hne. apply Ht.
    + destruct (Nat.eq_dec (status (snd (POST_answer (db st) now newId sid0 req))) 200%nat)
        as [Hok|Hno].
      * destruct (POST_answer_estimates (db st) now newId sid0 req Hok)
          as (s0 & q & prev & ok & i & s' & Es0 & _ & _ & -> & Hsid & Hb & Ha & _).
        intros sid session. cbn [sessions]. rewrite sessionInteractions_app, Hsid.
        destruct (decide (sid0 = sid)) as [->|Hne].
        -- rewrite lookup_insert_eq, String.eqb_refl. intros [= <-]. rewrite <- Ha.
           apply (theta_trail_snoc _ _ (s_theta s0)); [now apply Ht|exact Hb].
        -- rewrite lookup_insert_ne by exact Hne.
           assert (E : String.eqb sid0 sid = false) by now apply String.eqb_neq.
           rewrite E, app_nil_r. apply Ht.
      * destruct (POST_answer_refusal (db st) now newId sid0 req Hno) as (msg & code & ->).
        exact Ht.
Qed.

(** X30.  Starting from any store without sessions and serving any
    sequence of calls of the three routes, the interactions of every
    session are an audit trail of its ability: the first starts at the
    initial ability -0.780, each starts at the ability the one before it
    ended with, and the last ends at the ability stored in the session.
    Along the way no session gets two interactions on one question, and
    every interaction belongs to a stored session and a question of its
    quiz. *)
Theorem interactions_are_audit_trail (rs : list (Z * Request)) (st : Store) :
  no_sessions st ->
  trails_kept (db (serve_all rs st))
  /\ no_duplicate_answers (db (serve_all rs st))
  /\ consistent (db (serve_all rs st)).
Proof.
  intros [Hs Hi].
  assert (H0 : consistent (db st) /\ no_duplicate_answers (db st) /\ trails_kept (db st)).
  { split; [|split].
    - intros i Hin. rewrite Hi in Hin. destruct Hin.
    - intros sid. unfold answeredIds, sessionInteractions. rewrite Hi. apply NoDup_nil_2.
    - intros sid session. rewrite Hs, lookup_empty. discriminate. }
  clear Hs Hi.
  assert (H : consistent (db (serve_all rs st))
              /\ no_duplicate_answers (db (serve_all rs st))
              /\ trails_kept (db (serve_all rs st))).
  { revert st H0. unfold serve_all.
    induction rs as [|[now r] rs IH]; intros st H0; cbn [fold_left fst snd].
    - exact H0.
    - apply IH. now apply serve_trails. }
  tauto.
Qed.

Lemma interactions_are_audit_trail_witness :
  no_sessions Scenario.seeded_store
  /\ trails_kept (db (serve_all Scenario.short_life Scenario.seeded_store))
  /\ no_duplicate_answers (db (serve_all Scenario.short_life Scenario.seeded_store))
  /\ consistent (db (serve_all Scenario.short_life Scenario.seeded_store)).
Proof.
  split; [exact seeded_store_no_sessions|].
  exact (interactions_are_audit_trail Scenario.short_life Scenario.seeded_store
           seeded_store_no_sessions).
Defined.

End StoreLife.
